(** * skimage.filter.thresholding: global and local threshold selection

    A shallow embedding of [skimage/filter/thresholding.py].  The NumPy
    code is polymorphic in the element type of its arrays; the embedding
    is written once over an arithmetic interface [Arith] and then read at
    two instances: IEEE-754 binary floating point (the arithmetic the
    program really runs on, executable inside Rocq) and the extended reals
    (rounding-free arithmetic with the IEEE special values, used to state
    algebraic facts). *)

From Stdlib Require Import String Reals Lra Arith ZArith NArith Bool Lia List.
From Stdlib Require SpecFloat.
Import ListNotations.

Set Implicit Arguments.
Local Open Scope Z_scope.

(** ** Scalar arithmetic of an ndarray element type *)

Class Arith (F : Type) : Type := {
  FofZ : Z -> F;
  Fopp : F -> F;
  Fadd : F -> F -> F;
  Fsub : F -> F -> F;
  Fmul : F -> F -> F;
  Fdiv : F -> F -> F;
  Fsqrt : F -> F;
  Fexp : F -> F;
  Flog : F -> F;
  Frint : F -> F;
  Feqb : F -> F -> bool;
  Fltb : F -> F -> bool;
  Fleb : F -> F -> bool;
  Fisnan : F -> bool
}.

(** ** Exceptions, observable events and the computation monad *)

Inductive exn : Type :=
| ValueError (msg : string)
| IndexError
| ZeroDivisionError
| ExternalError.

Inductive outcome (A : Type) : Type :=
| Ok (a : A)
| Raise (e : exn).

Arguments Ok {A} a.
Arguments Raise {A} e.

(** Array constructors ([np.zeros], [np.ones], [np.zeros_like]) and the
    library passes over whole images are recorded in call order. *)
Inductive event : Type :=
| EvAlloc
| EvIntegralImage
| EvConvolve
| EvFilter.

Definition comp (A : Type) : Type := (list event * outcome A)%type.

Definition ret {A} (a : A) : comp A := ([], Ok a).

Definition raise {A} (e : exn) : comp A := ([], Raise e).

Definition emit (ev : event) : comp unit := ([ev], Ok tt).

Definition bind {A B} (c : comp A) (k : A -> comp B) : comp B :=
  match c with
  | (t, Ok a) => let '(t', r) := k a in (t ++ t', r)
  | (t, Raise e) => (t, Raise e)
  end.

Definition lift {A} (o : outcome A) : comp A := ([], o).

Definition trace {A} (c : comp A) : list event := fst c.

Definition result {A} (c : comp A) : outcome A := snd c.

Declare Scope comp_scope.
Delimit Scope comp_scope with comp.
Notation "x <- c ;; k" := (bind c (fun x => k))
  (at level 100, c at next level, right associativity) : comp_scope.
Notation "' p <- c ;; k" := (bind c (fun x => let 'p := x in k))
  (at level 100, p pattern, c at next level, right associativity) : comp_scope.
Notation "c ;;; k" := (bind c (fun _ => k))
  (at level 100, right associativity) : comp_scope.

(** ** Generic list helpers standing for NumPy's vectorised operations *)

Fixpoint map2 {A B C} (f : A -> B -> C) (l : list A) (l' : list B) : list C :=
  match l, l' with
  | x :: t, y :: t' => f x y :: map2 f t t'
  | _, _ => []
  end.

(** [a[i]] for a non-negative in-range index. *)
Definition index {A} (l : list A) (i : nat) : outcome A :=
  match nth_error l i with
  | Some x => Ok x
  | None => Raise IndexError
  end.

(** [np.nonzero(mask)[0][0]]: position of the first [true]. *)
Fixpoint first_true_from (i : nat) (l : list bool) : outcome nat :=
  match l with
  | [] => Raise IndexError
  | b :: t => if b then Ok i else first_true_from (S i) t
  end.

Definition first_true (l : list bool) : outcome nat := first_true_from 0 l.

(** [l[i] = v] with Python's negative indices. *)
Definition py_index (n : nat) (i : Z) : option nat :=
  let i' := if i <? 0 then i + Z.of_nat n else i in
  if (0 <=? i') && (i' <? Z.of_nat n) then Some (Z.to_nat i') else None.

Fixpoint update {A} (i : nat) (v : A) (l : list A) : list A :=
  match l, i with
  | [], _ => []
  | _ :: t, O => v :: t
  | x :: t, S i' => x :: update i' v t
  end.

Section Generic.

Context {F : Type} {AF : Arith F}.

Definition image : Type := list (list F).

Definition bimage : Type := list (list bool).

Definition shape {A} (a : list (list A)) : nat * nat :=
  (length a, length (hd [] a)).

Definition Fsq (x : F) : F := Fmul x x.

(** *** One-dimensional NumPy primitives *)

Fixpoint cumsum_from (acc : F) (l : list F) : list F :=
  match l with
  | [] => []
  | x :: t => let acc' := Fadd acc x in acc' :: cumsum_from acc' t
  end.

(** [np.cumsum]: the running sum, accumulated left to right. *)
Definition cumsum (l : list F) : list F :=
  match l with
  | [] => []
  | x :: t => x :: cumsum_from x t
  end.

(** [np.argmax] on a float array: the scan of NumPy's [argmax] loop.  A NaN
    is maximal and stops the scan; otherwise an element replaces the
    current maximum only when it is not [<=] to it, so the first maximiser
    wins. *)
Fixpoint argmax_from (mp : F) (best i : nat) (l : list F) : nat :=
  match l with
  | [] => best
  | x :: t =>
      if Fleb x mp then argmax_from mp best (S i) t
      else if Fisnan x then i
      else argmax_from x i (S i) t
  end.

Definition argmax (l : list F) : outcome nat :=
  match l with
  | [] => Raise (ValueError "attempt to get argmax of an empty sequence")
  | x :: t => if Fisnan x then Ok O else Ok (argmax_from x O 1%nat t)
  end.

(** [np.maximum] / [np.minimum] and their reductions [ndarray.max()],
    [ndarray.min()] (NaN propagating, error on an empty array). *)
Definition Fmaximum (a b : F) : F := if Fleb b a || Fisnan a then a else b.

Definition Fminimum (a b : F) : F := if Fleb a b || Fisnan a then a else b.

Definition amax (a : image) : outcome F :=
  match concat a with
  | [] => Raise (ValueError "zero-size array to reduction operation maximum which has no identity")
  | x :: t => Ok (fold_left Fmaximum t x)
  end.

Definition amin (a : image) : outcome F :=
  match concat a with
  | [] => Raise (ValueError "zero-size array to reduction operation minimum which has no identity")
  | x :: t => Ok (fold_left Fminimum t x)
  end.

(** *** Histogram-based global selectors

    [histogram] is the external histogram provider
    ([skimage.exposure.histogram]): it returns the integer counts and the
    bin centres as two parallel arrays. *)

Definition histogram_provider : Type := image -> nat -> list N * list F.

Definition astype_float (hist : list N) : list F :=
  map (fun c => FofZ (Z.of_N c)) hist.

Definition threshold_otsu (histogram : histogram_provider)
  (img : image) (nbins : nat) : outcome F :=
  let '(hist, bin_centers) := histogram img nbins in
  let hist := astype_float hist in
  let weight1 := cumsum hist in
  let weight2 := rev (cumsum (rev hist)) in
  let mean1 := map2 Fdiv (cumsum (map2 Fmul hist bin_centers)) weight1 in
  let mean2 :=
    rev (map2 Fdiv (cumsum (rev (map2 Fmul hist bin_centers))) (rev weight2)) in
  let variance12 :=
    map2 Fmul (map2 Fmul (removelast weight1) (tl weight2))
         (map Fsq (map2 Fsub (removelast mean1) (tl mean2))) in
  match argmax variance12 with
  | Ok idx => index (removelast bin_centers) idx
  | Raise e => Raise e
  end.

Definition threshold_yen (histogram : histogram_provider)
  (img : image) (nbins : nat) : outcome F :=
  let '(hist, bin_centers) := histogram img nbins in
  if (length bin_centers =? 1)%nat then index bin_centers 0 else
  let total := FofZ (Z.of_N (fold_left N.add hist 0%N)) in
  let pmf := map (fun h => Fdiv h total) (astype_float hist) in
  let P1 := cumsum pmf in
  let P1_sq := cumsum (map Fsq pmf) in
  let P2_sq := rev (cumsum (map Fsq (rev pmf))) in
  let crit :=
    map Flog
      (map2 Fmul
         (map (fun x => Fdiv (FofZ 1) x) (map2 Fmul (removelast P1_sq) (tl P2_sq)))
         (map Fsq (map2 Fmul (removelast P1)
                     (map (fun x => Fsub (FofZ 1) x) (removelast P1))))) in
  match argmax crit with
  | Ok idx => index bin_centers idx
  | Raise e => Raise e
  end.

(** [np.arange(n, dtype=np.uint8)]: the fill loop computes [start + i*delta]
    and stores it in an unsigned byte. *)
Definition uint8 (z : Z) : Z := Z.land z 255.

Definition uint8_ordinal (i : nat) : Z := uint8 (0 + Z.of_nat i * 1).

Definition arange_uint8 (n : nat) : list Z := map uint8_ordinal (seq 0 n).

(** [np.ma.divide]: an entry is masked ([None]) where the divisor is zero. *)
Definition ma_divide (a b : list F) : list (option F) :=
  map2 (fun x y => if Feqb y (FofZ 0) then None else Some (Fdiv x y)) a b.

Definition ma_lift2 (f : F -> F -> F) (a b : option F) : option F :=
  match a, b with
  | Some x, Some y => Some (f x y)
  | _, _ => None
  end.

(** [allmean.round() == binnums], masked entries filled with [False]. *)
Definition ma_matches (allmean : list (option F)) (binnums : list Z) : list bool :=
  map2 (fun a b => match a with
                   | Some x => Feqb (Frint x) (FofZ b)
                   | None => false
                   end) allmean binnums.

Definition threshold_isodata (histogram : histogram_provider)
  (img : image) (nbins : nat) : outcome F :=
  let '(hist, bin_centers) := histogram img nbins in
  if (length bin_centers =? 1)%nat then index bin_centers 0 else
  let pmf := astype_float hist in
  let cpmfl := cumsum pmf in
  let cpmfh := rev (cumsum (rev pmf)) in
  let binnums := arange_uint8 (length pmf) in
  let fbin := map FofZ binnums in
  let l := ma_divide (cumsum (map2 Fmul pmf fbin)) cpmfl in
  let h := ma_divide (rev (cumsum (map2 Fmul (rev pmf) (rev fbin)))) cpmfh in
  let allmean :=
    map (fun s => ma_lift2 Fdiv s (Some (FofZ 2))) (map2 (ma_lift2 Fadd) l h) in
  match first_true (ma_matches allmean binnums) with
  | Ok k => index bin_centers k
  | Raise e => Raise e
  end.

(** *** Two-dimensional array primitives *)

Definition arr_map {A B} (f : A -> B) (a : list (list A)) : list (list B) :=
  map (map f) a.

Definition arr_map2 {A B C} (f : A -> B -> C)
  (a : list (list A)) (b : list (list B)) : list (list C) :=
  map2 (map2 f) a b.

Definition zeros (h w : nat) : image := repeat (repeat (FofZ 0) w) h.

Definition ones (h w : nat) : image := repeat (repeat (FofZ 1) w) h.

Definition np_zeros (h w : Z) : comp image :=
  if (h <? 0) || (w <? 0)
  then raise (ValueError "negative dimensions are not allowed")
  else (emit EvAlloc ;;; ret (zeros (Z.to_nat h) (Z.to_nat w)))%comp.

Definition np_ones (h w : Z) : comp image :=
  if (h <? 0) || (w <? 0)
  then raise (ValueError "negative dimensions are not allowed")
  else (emit EvAlloc ;;; ret (ones (Z.to_nat h) (Z.to_nat w)))%comp.

Definition np_zeros_like (a : image) : comp image :=
  (emit EvAlloc ;;; ret (arr_map (fun _ => FofZ 0) a))%comp.

(** [a[i, j] = v] *)
Definition setitem (a : image) (i j : Z) (v : F) : comp image :=
  match py_index (length a) i, py_index (length (hd [] a)) j with
  | Some i', Some j' => ret (update i' (update j' v (nth i' a [])) a)
  | _, _ => raise IndexError
  end.

Definition vstack (a b : image) : image := a ++ b.

Definition hstack (a b : image) : image := map2 (@app F) a b.

(** [a[:-1, :-1]] *)
Definition crop_last (a : image) : image := map (@removelast F) (removelast a).

Definition cumsum_axis1 (a : image) : image := map cumsum a.

Fixpoint cumsum_axis0_from (acc : list F) (a : image) : image :=
  match a with
  | [] => []
  | r :: t => let acc' := map2 Fadd acc r in acc' :: cumsum_axis0_from acc' t
  end.

Definition cumsum_axis0 (a : image) : image :=
  match a with
  | [] => []
  | r :: t => r :: cumsum_axis0_from r t
  end.

(** Modelled from the spec: [skimage.transform.integral_image] is imported
    by the module but its source is not at hand.  Cell (i, j) holds the sum
    of all input cells with row <= i and column <= j, obtained as the
    running sum along the rows followed by the running sum along the
    columns. *)
Definition integral_values (x : image) : image :=
  cumsum_axis0 (cumsum_axis1 x).

Definition integral_image (x : image) : comp image :=
  (emit EvIntegralImage ;;; ret (integral_values x))%comp.

(** *** [scipy.ndimage.convolve]

    The weights are mirrored; the filter origin of an axis of even length
    is shifted by one; weights equal to zero are left out of the
    footprint; the products are accumulated in row-major order of the
    mirrored weights, starting from 0.  Samples outside the input are
    taken from the nearest edge ([Nearest]) or are 0 ([Constant]). *)

Inductive boundary : Type := Nearest | Constant.

Definition clamp_index (z : Z) (n : nat) : nat :=
  Z.to_nat (Z.max 0 (Z.min z (Z.of_nat n - 1))).

Definition sample (mode : boundary) (a : image) (y x : Z) : F :=
  let '(h, w) := shape a in
  match mode with
  | Nearest => nth (clamp_index x w) (nth (clamp_index y h) a []) (FofZ 0)
  | Constant =>
      if (0 <=? y) && (y <? Z.of_nat h) && (0 <=? x) && (x <? Z.of_nat w)
      then nth (Z.to_nat x) (nth (Z.to_nat y) a []) (FofZ 0)
      else FofZ 0
  end.

Definition filter_origin (n : nat) : Z :=
  Z.of_nat (n / 2) - (if Nat.even n then 1 else 0).

Definition correlate_at (mode : boundary) (a weights : image) (i j : nat) : F :=
  let '(kh, kw) := shape weights in
  fold_left
    (fun acc p =>
       fold_left
         (fun acc q =>
            let wt := nth q (nth p weights []) (FofZ 0) in
            if Feqb wt (FofZ 0) then acc
            else Fadd acc
                   (Fmul wt
                      (sample mode a
                         (Z.of_nat i + Z.of_nat p - filter_origin kh)
                         (Z.of_nat j + Z.of_nat q - filter_origin kw))))
         (seq 0 kw) acc)
    (seq 0 kh) (FofZ 0).

Definition convolve_values (a weights : image) (mode : boundary) : image :=
  let flipped := rev (map (@rev F) weights) in
  let '(h, w) := shape a in
  map (fun i => map (fun j => correlate_at mode a flipped i j) (seq 0 w))
      (seq 0 h).

Definition convolve (a weights : image) (mode : boundary) : comp image :=
  (emit EvConvolve ;;; ret (convolve_values a weights mode))%comp.

(** *** Local statistics *)

Definition _mean_std (img : image) (w : Z) : comp (image * image) :=
  (if (w =? 1) || (w mod 2 =? 0) then
     raise (ValueError "Window size w must be odd and greater than 1.")
   else
     I <- integral_image img ;;
     top <- np_zeros 1 (Z.of_nat (snd (shape I))) ;;
     let I := vstack top I in
     left <- np_zeros (Z.of_nat (fst (shape I))) 1 ;;
     let I := hstack left I in
     kern <- np_zeros (w + 1) (w + 1) ;;
     kern <- setitem kern 0 0 (FofZ 1) ;;
     kern <- setitem kern (-1) (-1) (FofZ 1) ;;
     kern <- setitem kern 0 (-1) (FofZ (-1)) ;;
     kern <- setitem kern (-1) 0 (FofZ (-1)) ;;
     unit_img <- np_ones (Z.of_nat (fst (shape img))) (Z.of_nat (snd (shape img))) ;;
     box <- np_ones w w ;;
     w2 <- convolve unit_img box Constant ;;
     c <- convolve I kern Nearest ;;
     let m := arr_map2 Fdiv (crop_last c) w2 in
     let g := img in
     let g2 := arr_map Fsq g in
     let m2 := arr_map Fsq m in
     box' <- np_ones w w ;;
     sum_g2 <- convolve g2 box' Constant ;;
     let sum_m2 := arr_map2 Fmul w2 m2 in
     let s2 := arr_map2 Fdiv (arr_map2 Fsub sum_g2 sum_m2) w2 in
     let s := arr_map Fsqrt s2 in
     ret (m, s))%comp.

(** [image > (t - offset)] *)
Definition classify (img t : image) (offset : F) : bimage :=
  arr_map2 (fun x th => Fltb th x) img (arr_map (fun th => Fsub th offset) t).

Definition threshold_niblack (img : image) (w : Z) (k offset : F) : comp bimage :=
  ('(m, s) <- _mean_std img w ;;
   let t := arr_map2 Fsub m (arr_map (Fmul k) s) in
   ret (classify img t offset))%comp.

Definition sauvola_formula (k r : F) (m s : F) : F :=
  Fmul m (Fadd (FofZ 1) (Fmul k (Fsub (Fdiv s r) (FofZ 1)))).

Definition wolf_formula (k R M : F) (m s : F) : F :=
  Fadd (Fadd (Fmul (Fsub (FofZ 1) k) m) (Fmul k M))
       (Fmul (Fmul k (Fdiv s R)) (Fsub m M)).

Definition phansalkar_formula (k rn p q : F) (m s : F) : F :=
  Fmul m (Fadd (Fadd (FofZ 1) (Fmul p (Fexp (Fmul (Fopp q) m))))
               (Fmul k (Fsub (Fdiv s rn) (FofZ 1)))).

Definition threshold_sauvola (img : image) (method : string) (w : Z)
  (k r offset p q : F) : comp bimage :=
  (t <- np_zeros_like img ;;
   '(m, s) <- _mean_std img w ;;
   if String.eqb method "sauvola" then
     let t := arr_map2 (sauvola_formula k r) m s in
     ret (classify img t offset)
   else if String.eqb method "wolf" then
     R <- lift (amax s) ;;
     M <- lift (amin img) ;;
     let t := arr_map2 (wolf_formula k R M) m s in
     ret (classify img t offset)
   else if String.eqb method "phansalkar" then
     let img := arr_map (fun x => Fdiv x (FofZ 255)) img in
     '(m, s) <- _mean_std img w ;;
     let rn := Fdiv r (FofZ 255) in
     let t := arr_map2 (phansalkar_formula k rn p q) m s in
     ret (classify img t offset)
   else
     raise (ValueError "Unknown method"))%comp.

(** *** The statistic-filter adaptive threshold

    The windowed filters of [scipy.ndimage] are external collaborators; a
    call may fail inside the library. *)

Inductive param : Type :=
| PNone
| PFunc (f : list F -> F)
| PNum (x : F).

Record ndimage : Type := {
  generic_filter : image -> param -> Z -> string -> outcome image;
  gaussian_filter : image -> param -> string -> outcome image;
  convolve1d : image -> list F -> nat -> string -> outcome image;
  median_filter : image -> Z -> string -> outcome image
}.

Definition call_filter (o : outcome image) : comp image :=
  (emit EvFilter ;;; lift o)%comp.

Definition threshold_adaptive (nd : ndimage) (img : image) (block_size : Z)
  (method : string) (offset : F) (mode : string) (prm : param) : comp bimage :=
  (thresh_image <- np_zeros (Z.of_nat (fst (shape img))) (Z.of_nat (snd (shape img))) ;;
   thresh_image <-
     (if String.eqb method "generic" then
        call_filter (generic_filter nd img prm block_size mode)
      else if String.eqb method "gaussian" then
        let sigma := match prm with
                     | PNone => PNum (Fdiv (FofZ (block_size - 1)) (FofZ 6))
                     | _ => prm
                     end in
        call_filter (gaussian_filter nd img sigma mode)
      else if String.eqb method "mean" then
        if block_size =? 0 then raise ZeroDivisionError else
        unit_row <- np_ones 1 block_size ;;
        let mask := map (Fmul (Fdiv (FofZ 1) (FofZ block_size))) (hd [] unit_row) in
        t1 <- call_filter (convolve1d nd img mask 0 mode) ;;
        call_filter (convolve1d nd t1 mask 1 mode)
      else if String.eqb method "median" then
        call_filter (median_filter nd img block_size mode)
      else ret thresh_image) ;;
   ret (classify img thresh_image offset))%comp.

(** *** The selectors in the words of the specification

    Forward and backward cumulative sums at a bin, the between-class
    variance of a split, and the intermeans matching test on true bin
    ordinals. *)

Definition forward_sum (a : list F) (k : nat) : F :=
  match firstn (S k) a with
  | [] => FofZ 0
  | x :: t => fold_left Fadd t x
  end.

Definition backward_sum (a : list F) (k : nat) : F :=
  match rev (skipn k a) with
  | [] => FofZ 0
  | x :: t => fold_left Fadd t x
  end.

Definition spec_weight1 (counts : list N) (k : nat) : F :=
  forward_sum (astype_float counts) k.

Definition spec_weight2 (counts : list N) (k : nat) : F :=
  backward_sum (astype_float counts) k.

Definition spec_mean1 (counts : list N) (centers : list F) (k : nat) : F :=
  Fdiv (forward_sum (map2 Fmul (astype_float counts) centers) k)
       (spec_weight1 counts k).

Definition spec_mean2 (counts : list N) (centers : list F) (k : nat) : F :=
  Fdiv (backward_sum (map2 Fmul (astype_float counts) centers) k)
       (spec_weight2 counts k).

Definition between_class_variance (counts : list N) (centers : list F) (k : nat) : F :=
  Fmul (Fmul (spec_weight1 counts k) (spec_weight2 counts (S k)))
       (Fsq (Fsub (spec_mean1 counts centers k) (spec_mean2 counts centers (S k)))).

Definition ordinal_weighted (ordinal : nat -> Z) (counts : list N) : list F :=
  map2 Fmul (astype_float counts)
       (map (fun i => FofZ (ordinal i)) (seq 0 (length counts))).

Definition intermean_low (ordinal : nat -> Z) (counts : list N) (k : nat) : option F :=
  let cl := forward_sum (astype_float counts) k in
  if Feqb cl (FofZ 0) then None
  else Some (Fdiv (forward_sum (ordinal_weighted ordinal counts) k) cl).

Definition intermean_high (ordinal : nat -> Z) (counts : list N) (k : nat) : option F :=
  let ch := backward_sum (astype_float counts) k in
  if Feqb ch (FofZ 0) then None
  else Some (Fdiv (backward_sum (ordinal_weighted ordinal counts) k) ch).

Definition intermean_match (ordinal : nat -> Z) (counts : list N) (k : nat) : bool :=
  match intermean_low ordinal counts k, intermean_high ordinal counts k with
  | Some l, Some h =>
      Feqb (Frint (Fdiv (Fadd l h) (FofZ 2))) (FofZ (ordinal k))
  | _, _ => false
  end.

(** The threshold of section 4.5: the centre of the first bin whose rounded
    intermean equals its own ordinal. *)
Definition isodata_spec (counts : list N) (centers : list F) : outcome F :=
  match find (intermean_match Z.of_nat counts) (seq 0 (length counts)) with
  | Some k => index centers k
  | None => Raise IndexError
  end.

(** *** [_mean_std] read as values

    The arrays bound inside [_mean_std], as functions of the image and of
    a window size already known to be valid. *)

Definition corner_kernel (w : nat) : image :=
  let k0 := zeros (S w) (S w) in
  let k1 := update 0 (update 0 (FofZ 1) (nth 0 k0 [])) k0 in
  let k2 := update w (update w (FofZ 1) (nth w k1 [])) k1 in
  let k3 := update 0 (update w (FofZ (-1)) (nth 0 k2 [])) k2 in
  update w (update 0 (FofZ (-1)) (nth w k3 [])) k3.

Definition padded_integral (img : image) : image :=
  let I := integral_values img in
  let I := vstack (zeros 1 (snd (shape I))) I in
  hstack (zeros (fst (shape I)) 1) I.

Definition local_count (img : image) (w : nat) : image :=
  convolve_values (ones (fst (shape img)) (snd (shape img))) (ones w w) Constant.

Definition local_mean (img : image) (w : nat) : image :=
  arr_map2 Fdiv
    (crop_last (convolve_values (padded_integral img) (corner_kernel w) Nearest))
    (local_count img w).

Definition local_variance (img : image) (w : nat) : image :=
  let w2 := local_count img w in
  let m2 := arr_map Fsq (local_mean img w) in
  let sum_g2 := convolve_values (arr_map Fsq img) (ones w w) Constant in
  arr_map2 Fdiv (arr_map2 Fsub sum_g2 (arr_map2 Fmul w2 m2)) w2.

Definition local_std (img : image) (w : nat) : image :=
  arr_map Fsqrt (local_variance img w).

Definition mean_std_trace : list event :=
  [EvIntegralImage; EvAlloc; EvAlloc; EvAlloc; EvAlloc; EvAlloc;
   EvConvolve; EvConvolve; EvAlloc; EvConvolve].

(** The same arrays pixel by pixel. *)

Definition table {A} (f : nat -> nat -> A) (h w : nat) : list (list A) :=
  map (fun i => map (fun j => f i j) (seq 0 w)) (seq 0 h).

Definition mirrored (weights : image) : image := rev (map (@rev F) weights).

Definition count_at (img : image) (w : nat) (i j : nat) : F :=
  correlate_at Constant (ones (fst (shape img)) (snd (shape img)))
    (mirrored (ones w w)) i j.

Definition sum_at (img : image) (w : nat) (i j : nat) : F :=
  correlate_at Nearest (padded_integral img) (mirrored (corner_kernel w)) i j.

Definition sumsq_at (img : image) (w : nat) (i j : nat) : F :=
  correlate_at Constant (arr_map Fsq img) (mirrored (ones w w)) i j.

Definition mean_at (img : image) (w : nat) (i j : nat) : F :=
  Fdiv (sum_at img w i j) (count_at img w i j).

Definition variance_at (img : image) (w : nat) (i j : nat) : F :=
  Fdiv (Fsub (sumsq_at img w i j)
             (Fmul (count_at img w i j) (Fsq (mean_at img w i j))))
       (count_at img w i j).

(** *** Properties of the arithmetic used by the results below *)

Record order_laws : Prop := {
  leb_refl : forall a, Fisnan a = false -> Fleb a a = true;
  ltb_leb : forall a b, Fltb a b = true -> Fleb a b = true;
  leb_nleb_ltb : forall a b c,
    Fleb a b = true -> Fleb c b = false -> Fisnan c = false -> Fltb a c = true;
  nleb_leb_ltb : forall a b c,
    Fleb b c = true -> Fleb b a = false -> Fisnan a = false -> Fltb a c = true
}.

Definition offset_law : Prop :=
  forall t o1 o2 x,
    Fleb o1 o2 = true -> Fltb (Fsub t o1) x = true -> Fltb (Fsub t o2) x = true.

(** [R] is a greatest (least) element of an array without NaN. *)
Definition greatest_of (R : F) (l : list F) : Prop :=
  (forall x, In x l -> Fisnan x = false) ->
  In R l /\ forall x, In x l -> Fleb x R = true.

Definition least_of (M : F) (l : list F) : Prop :=
  (forall x, In x l -> Fisnan x = false) ->
  In M l /\ forall x, In x l -> Fleb M x = true.

End Generic.

(** ** IEEE-754 binary arithmetic (Stdlib's [SpecFloat]) *)

Module Binary.

Import SpecFloat.

Section Format.

Variables prec emax : Z.

Definition of_Z (z : Z) : spec_float := binary_normalize prec emax z 0 false.

(** Round to the nearest integer, ties to even ([np.round] / [rint]). *)
Definition rint (x : spec_float) : spec_float :=
  match x with
  | S754_finite s m e =>
      if 0 <=? e then x
      else
        let d := Z.pow 2 (- e) in
        let q := Z.div (Zpos m) d in
        let r := Z.modulo (Zpos m) d in
        let n := match Z.compare (2 * r) d with
                 | Lt => q
                 | Gt => q + 1
                 | Eq => if Z.even q then q else q + 1
                 end in
        match n with
        | Z0 => S754_zero s
        | _ => binary_normalize prec emax (if s then - n else n) 0 s
        end
  | _ => x
  end.

Definition is_nan (x : spec_float) : bool :=
  match x with
  | S754_nan => true
  | _ => false
  end.

(** [exp] and [log] come from the C library and are not fixed by IEEE-754;
    they are parameters of the instance. *)
Definition arith (libm_exp libm_log : spec_float -> spec_float) : Arith spec_float :=
  {| FofZ := of_Z;
     Fopp := SFopp;
     Fadd := SFadd prec emax;
     Fsub := SFsub prec emax;
     Fmul := SFmul prec emax;
     Fdiv := SFdiv prec emax;
     Fsqrt := SFsqrt prec emax;
     Fexp := libm_exp;
     Flog := libm_log;
     Frint := rint;
     Feqb := SFeqb;
     Fltb := SFltb;
     Fleb := SFleb;
     Fisnan := is_nan |}.

End Format.

(** A C library that answers NaN everywhere: any dependence of an
    evaluation on [exp] or [log] shows up in its result. *)
Definition libm_nan (x : spec_float) : spec_float := S754_nan.

Definition binary64 : Arith spec_float := arith 53 1024 libm_nan libm_nan.

Definition binary32 : Arith spec_float := arith 24 128 libm_nan libm_nan.

End Binary.

(** ** Rounding-free arithmetic: the reals extended with the IEEE special
    values (signed zeros are not distinguished) *)

Module Exact.

Local Open Scope R_scope.

Inductive xreal : Type :=
| Fin (r : R)
| PInf
| NInf
| NaN.

Definition Rltb (a b : R) : bool := if Rlt_dec a b then true else false.

Definition Rleb (a b : R) : bool := if Rle_dec a b then true else false.

Definition Reqb (a b : R) : bool := if Req_dec_T a b then true else false.

Definition signed_inf (positive : bool) : xreal := if positive then PInf else NInf.

Definition xopp (x : xreal) : xreal :=
  match x with
  | Fin r => Fin (- r)
  | PInf => NInf
  | NInf => PInf
  | NaN => NaN
  end.

Definition xadd (x y : xreal) : xreal :=
  match x, y with
  | NaN, _ | _, NaN => NaN
  | Fin a, Fin b => Fin (a + b)
  | PInf, NInf | NInf, PInf => NaN
  | PInf, _ | _, PInf => PInf
  | NInf, _ | _, NInf => NInf
  end.

Definition xsub (x y : xreal) : xreal := xadd x (xopp y).

(** Product of an infinity of the given sign with a finite factor. *)
Definition inf_times (positive : bool) (a : R) : xreal :=
  if Reqb a 0 then NaN
  else signed_inf (if Rltb 0 a then positive else negb positive).

Definition xmul (x y : xreal) : xreal :=
  match x, y with
  | NaN, _ | _, NaN => NaN
  | Fin a, Fin b => Fin (a * b)
  | Fin a, PInf | PInf, Fin a => inf_times true a
  | Fin a, NInf | NInf, Fin a => inf_times false a
  | PInf, PInf | NInf, NInf => PInf
  | PInf, NInf | NInf, PInf => NInf
  end.

Definition xdiv (x y : xreal) : xreal :=
  match x, y with
  | NaN, _ | _, NaN => NaN
  | Fin a, Fin b =>
      if Reqb b 0 then
        if Reqb a 0 then NaN else signed_inf (Rltb 0 a)
      else Fin (a / b)
  | Fin _, PInf | Fin _, NInf => Fin 0
  | PInf, Fin b => signed_inf (Rleb 0 b)
  | NInf, Fin b => signed_inf (negb (Rleb 0 b))
  | _, _ => NaN
  end.

Definition xsqrt (x : xreal) : xreal :=
  match x with
  | Fin r => if Rltb r 0 then NaN else Fin (sqrt r)
  | PInf => PInf
  | _ => NaN
  end.

Definition xexp (x : xreal) : xreal :=
  match x with
  | Fin r => Fin (exp r)
  | PInf => PInf
  | NInf => Fin 0
  | NaN => NaN
  end.

Definition xlog (x : xreal) : xreal :=
  match x with
  | Fin r => if Rltb r 0 then NaN else if Reqb r 0 then NInf else Fin (ln r)
  | PInf => PInf
  | _ => NaN
  end.

(** Nearest integer, ties to even. *)
Definition round_half_even (r : R) : Z :=
  let f := (up r - 1)%Z in
  let d := r - IZR f in
  if Rltb d (1 / 2) then f
  else if Rltb (1 / 2) d then (f + 1)%Z
  else if Z.even f then f else (f + 1)%Z.

Definition xrint (x : xreal) : xreal :=
  match x with
  | Fin r => Fin (IZR (round_half_even r))
  | _ => x
  end.

Definition xeqb (x y : xreal) : bool :=
  match x, y with
  | Fin a, Fin b => Reqb a b
  | PInf, PInf | NInf, NInf => true
  | _, _ => false
  end.

Definition xltb (x y : xreal) : bool :=
  match x, y with
  | NaN, _ | _, NaN => false
  | Fin a, Fin b => Rltb a b
  | _, NInf | PInf, _ => false
  | NInf, _ | _, PInf => true
  end.

Definition xleb (x y : xreal) : bool :=
  match x, y with
  | NaN, _ | _, NaN => false
  | Fin a, Fin b => Rleb a b
  | NInf, _ | _, PInf => true
  | _, NInf | PInf, _ => false
  end.

Definition xisnan (x : xreal) : bool :=
  match x with
  | NaN => true
  | _ => false
  end.

Definition arith : Arith xreal :=
  {| FofZ := fun z => Fin (IZR z);
     Fopp := xopp;
     Fadd := xadd;
     Fsub := xsub;
     Fmul := xmul;
     Fdiv := xdiv;
     Fsqrt := xsqrt;
     Fexp := xexp;
     Flog := xlog;
     Frint := xrint;
     Feqb := xeqb;
     Fltb := xltb;
     Fleb := xleb;
     Fisnan := xisnan |}.

End Exact.

#[global] Existing Instance Exact.arith.

(** ** Predicates on computations and classifications *)

Definition valid_window (w : Z) : Prop := 3 <= w /\ w mod 2 = 1.

(** The computation raises the invalid-parameter error and nothing was
    recorded before it. *)
Definition rejects_first {A} (c : comp A) : Prop :=
  exists msg, c = ([], Raise (ValueError msg)).

(** The filters of the library return on every call. *)
Definition filters_return {F : Type} (nd : @ndimage F) : Prop :=
  (forall a prm b mode, exists r, generic_filter nd a prm b mode = Ok r) /\
  (forall a prm mode, exists r, gaussian_filter nd a prm mode = Ok r) /\
  (forall a mask axis mode, exists r, convolve1d nd a mask axis mode = Ok r) /\
  (forall a b mode, exists r, median_filter nd a b mode = Ok r).

(** No filter of the library raises the error [e]. *)
Definition filters_never_raise {F : Type} (e : exn) (nd : @ndimage F) : Prop :=
  (forall a prm b mode, generic_filter nd a prm b mode <> Raise e) /\
  (forall a prm mode, gaussian_filter nd a prm mode <> Raise e) /\
  (forall a mask axis mode, convolve1d nd a mask axis mode <> Raise e) /\
  (forall a b mode, median_filter nd a b mode <> Raise e).

(** Every foreground pixel of [a] is a foreground pixel of [b]. *)
Definition foreground_subset (a b : bimage) : Prop :=
  Forall2 (Forall2 (fun x y : bool => x = true -> y = true)) a b.

Definition same_or_subset (c1 c2 : comp bimage) : Prop :=
  match result c1, result c2 with
  | Ok a, Ok b => foreground_subset a b
  | Raise e1, Raise e2 => e1 = e2
  | _, _ => False
  end.

(** ** Concrete inputs *)

Definition b64 : Arith SpecFloat.spec_float := Binary.binary64.

Definition b32 : Arith SpecFloat.spec_float := Binary.binary32.

Definition f64 (z : Z) : SpecFloat.spec_float := Binary.of_Z 53 1024 z.

Definition f32 (z : Z) : SpecFloat.spec_float := Binary.of_Z 24 128 z.

(** The double nearest to 0.1. *)
Definition tenth : SpecFloat.spec_float :=
  SpecFloat.S754_finite false 7205759403792794 (-56).

Definition flat_tenth : @image SpecFloat.spec_float := repeat (repeat tenth 3%nat) 3%nat.

Definition one_pixel : @image SpecFloat.spec_float := [[f64 5]].

(** The histogram of a 5 x 5 image of zeros of integer type. *)
Definition blank_histogram : @histogram_provider SpecFloat.spec_float :=
  fun _ _ => ([25%N], [f64 0]).

(** The histogram of a 16-bit image holding only the values 0 and 256:
    257 bins, the two end bins populated. *)
Definition two_level_counts : list N := 1%N :: repeat 0%N 255 ++ [1%N].

Definition two_level_centers : list SpecFloat.spec_float :=
  map (fun i => f32 (Z.of_nat i)) (seq 0 257).

Definition two_level_histogram : @histogram_provider SpecFloat.spec_float :=
  fun _ _ => (two_level_counts, two_level_centers).

(** A filter library that accepts every call and hands the image back. *)
Definition accepting_filters : @ndimage SpecFloat.spec_float :=
  {| generic_filter := fun img _ _ _ => Ok img;
     gaussian_filter := fun img _ _ => Ok img;
     convolve1d := fun img _ _ _ => Ok img;
     median_filter := fun img _ _ => Ok img |}.

(** The double 0.5 and a 3 x 3 image of the grey levels 1 .. 9. *)
Definition half : SpecFloat.spec_float :=
  SpecFloat.S754_finite false 4503599627370496 (-53).

Definition gradient : @image SpecFloat.spec_float :=
  [[f64 1; f64 2; f64 3]; [f64 4; f64 5; f64 6]; [f64 7; f64 8; f64 9]].

(** A three-bin histogram over the extended reals. *)
Definition three_bin_counts : list N := [1%N; 2%N; 1%N].

Definition three_bin_centers : list Exact.xreal :=
  [Exact.Fin 0; Exact.Fin 1; Exact.Fin 2].

Definition three_bin_histogram : @histogram_provider Exact.xreal :=
  fun _ _ => (three_bin_counts, three_bin_centers).

(** All rows of a two-dimensional array have [c] elements. *)
Definition all_rows {A} (c : nat) (a : list (list A)) : Prop :=
  Forall (fun r => length r = c) a.

(** Window positions that fall inside an axis of length [len]: position
    [p] of the window sits at coordinate [lo + p]. *)
Definition inside (lo : Z) (len : nat) (p : nat) : bool :=
  (0 <=? lo + Z.of_nat p) && (lo + Z.of_nat p <? Z.of_nat len).

Definition covered (lo : Z) (len n : nat) : nat :=
  length (filter (inside lo len) (seq 0 n)).

(** The weights of [kern] after its four assignments. *)
Definition corner_weight (n p q : nat) : Z :=
  if (p =? 0)%nat then
    if (q =? 0)%nat then 1 else if (q =? n)%nat then -1 else 0
  else if (p =? n)%nat then
    if (q =? 0)%nat then -1 else if (q =? n)%nat then 1 else 0
  else 0.

(** The constant image of value [c] with [H] rows and [W] columns. *)
Definition flat (c : R) (H W : nat) : @image Exact.xreal :=
  repeat (repeat (Exact.Fin c) W) H.

(** Total of a list of counts. *)
Definition total_count (l : list N) : Z :=
  fold_right (fun c z => Z.of_N c + z) 0 l.

(** Every entry of the array is a real number. *)
Definition all_finite (l : list Exact.xreal) : Prop :=
  Forall (fun x => exists r, x = Exact.Fin r) l.

(** A histogram with an empty first bin. *)
Definition late_start_histogram : @histogram_provider SpecFloat.spec_float :=
  fun _ _ => ([0%N; 1%N; 1%N], [f64 0; f64 1; f64 2]).

(** *** Brute-force window statistics of a real image *)

(** The image whose sample at row [y], column [x] is the real [r y x]. *)
Definition real_image (r : nat -> nat -> R) (H W : nat) : @image Exact.xreal :=
  table (fun y x => Exact.Fin (r y x)) H W.

(** [f 0 + ... + f (n-1)] *)
Fixpoint sum_upto (f : nat -> R) (n : nat) : R :=
  match n with
  | O => 0%R
  | S k => (sum_upto f k + f k)%R
  end.

(** Sum of [f] over the coordinates of a list. *)
Fixpoint lsum (f : nat -> R) (l : list nat) : R :=
  match l with
  | [] => 0%R
  | x :: t => (f x + lsum f t)%R
  end.

(** The coordinates [lo + p], [p < n], that lie inside an axis of length
    [len]: the part of a window that falls inside the image. *)
Definition clip (lo : Z) (len n : nat) : list nat :=
  map (fun p => Z.to_nat (lo + Z.of_nat p)) (filter (inside lo len) (seq 0 n)).

(** Rows and columns of the window of half-width [h] centred at (i, j). *)
Definition window_rows (H h i : nat) : list nat :=
  clip (Z.of_nat i - Z.of_nat h) H (S (2 * h)).

Definition window_cols (W h j : nat) : list nat :=
  clip (Z.of_nat j - Z.of_nat h) W (S (2 * h)).

(** Sum of [g (r y x)] over the pixels of the window inside the image. *)
Definition window_sum (g : R -> R) (r : nat -> nat -> R) (H W h i j : nat) : R :=
  lsum (fun y => lsum (fun x => g (r y x)) (window_cols W h j)) (window_rows H h i).

Definition window_size (H W h i j : nat) : nat :=
  (length (window_rows H h i) * length (window_cols W h j))%nat.

Definition window_mean (r : nat -> nat -> R) (H W h i j : nat) : R :=
  (window_sum (fun v => v) r H W h i j / INR (window_size H W h i j))%R.

(** Mean of the squared deviations from the window mean. *)
Definition window_variance (r : nat -> nat -> R) (H W h i j : nat) : R :=
  (window_sum (fun v => (v - window_mean r H W h i j) * (v - window_mean r H W h i j))
              r H W h i j
   / INR (window_size H W h i j))%R.

Unset Implicit Arguments.

(** ** The computation monad *)

Lemma bind_ok {A B} (t : list event) (a : A) (k : A -> comp B) :
  bind (t, Ok a) k = let '(t', r) := k a in (t ++ t', r).
Proof. reflexivity. Qed.

Lemma bind_raise {A B} (t : list event) (e : exn) (k : A -> comp B) :
  bind (t, Raise e) k = (t, Raise e).
Proof. reflexivity. Qed.

Section StructuralFacts.

Context {F : Type} {AF : Arith F}.

Lemma np_zeros_ok (h w : Z) :
  0 <= h -> 0 <= w ->
  np_zeros h w = ([EvAlloc], Ok (zeros (Z.to_nat h) (Z.to_nat w))).
Proof.
  intros Hh Hw. unfold np_zeros.
  destruct (Z.ltb_spec h 0); [lia|]. destruct (Z.ltb_spec w 0); [lia|].
  reflexivity.
Qed.

Lemma np_ones_ok (h w : Z) :
  0 <= h -> 0 <= w ->
  np_ones h w = ([EvAlloc], Ok (ones (Z.to_nat h) (Z.to_nat w))).
Proof.
  intros Hh Hw. unfold np_ones.
  destruct (Z.ltb_spec h 0); [lia|]. destruct (Z.ltb_spec w 0); [lia|].
  reflexivity.
Qed.

Lemma update_length {A} (i : nat) (v : A) (l : list A) :
  length (update i v l) = length l.
Proof.
  revert i; induction l as [|x t IH]; intros [|i]; simpl; auto.
Qed.

Lemma hd_update_row {A} (i : nat) (r : list A) (a : list (list A)) :
  length r = length (hd [] a) ->
  length (hd [] (update i r a)) = length (hd [] a).
Proof.
  destruct a as [|x t]; destruct i; simpl; auto.
Qed.

Lemma py_index_first (n : nat) : (0 < n)%nat -> py_index n 0 = Some O.
Proof.
  intros H. unfold py_index. simpl.
  destruct (Z.ltb_spec 0 (Z.of_nat n)); [reflexivity|lia].
Qed.

Lemma py_index_last (n : nat) : (0 < n)%nat -> py_index n (-1) = Some (n - 1)%nat.
Proof.
  intros H. unfold py_index. change (-1 <? 0) with true. cbv iota.
  destruct (Z.leb_spec 0 (-1 + Z.of_nat n)); [|lia].
  destruct (Z.ltb_spec (-1 + Z.of_nat n) (Z.of_nat n)); [|lia].
  cbv [andb]. f_equal. lia.
Qed.

Lemma setitem_ok (a : image) (i j : Z) (i' j' : nat) (v : F) :
  py_index (length a) i = Some i' ->
  py_index (length (hd [] a)) j = Some j' ->
  setitem a i j v = ([], Ok (update i' (update j' v (nth i' a [])) a)).
Proof. intros Hi Hj. unfold setitem. rewrite Hi, Hj. reflexivity. Qed.

Lemma zeros_rows (h w : nat) : length (zeros h w) = h.
Proof. apply repeat_length. Qed.

Lemma zeros_cols (h w : nat) : length (hd [] (zeros (S h) w)) = w.
Proof. simpl. apply repeat_length. Qed.

Lemma nth_zeros_length (h w i : nat) :
  (i < h)%nat -> length (nth i (zeros h w) []) = w.
Proof.
  intros H. unfold zeros. rewrite nth_repeat_lt by exact H. apply repeat_length.
Qed.

Lemma all_rows_zeros (h w : nat) : all_rows w (zeros h w).
Proof.
  unfold all_rows, zeros. apply Forall_forall. intros r Hr.
  apply repeat_spec in Hr. subst r. apply repeat_length.
Qed.

Lemma all_rows_nth {A} (c : nat) (a : list (list A)) (i : nat) :
  all_rows c a -> (i < length a)%nat -> length (nth i a []) = c.
Proof.
  intros Ha Hi. unfold all_rows in Ha. rewrite Forall_forall in Ha.
  apply Ha. apply nth_In. exact Hi.
Qed.

Lemma all_rows_hd {A} (c : nat) (a : list (list A)) :
  all_rows c a -> (0 < length a)%nat -> length (hd [] a) = c.
Proof.
  intros Ha Hl. destruct a as [|r t]; simpl in *; [lia|].
  inversion Ha; assumption.
Qed.

Lemma all_rows_update {A} (c : nat) (a : list (list A)) (i : nat) (r : list A) :
  all_rows c a -> length r = c -> all_rows c (update i r a).
Proof.
  unfold all_rows. intros Ha Hr. revert i.
  induction Ha as [|x t Hx Ht IH]; intros [|i]; simpl; constructor; auto.
Qed.

Lemma all_rows_set {A} (c : nat) (a : list (list A)) (i j : nat) (v : A) :
  all_rows c a -> (i < length a)%nat ->
  all_rows c (update i (update j v (nth i a [])) a).
Proof.
  intros Ha Hi. apply all_rows_update; [exact Ha|].
  rewrite update_length. apply all_rows_nth; assumption.
Qed.

Lemma setitem_in_range (a : image) (c : nat) (i j : Z) (i' j' : nat) (v : F) :
  all_rows c a -> (0 < length a)%nat ->
  py_index (length a) i = Some i' ->
  py_index c j = Some j' ->
  setitem a i j v = ([], Ok (update i' (update j' v (nth i' a [])) a)).
Proof.
  intros Ha Hl Hi Hj. apply setitem_ok; [exact Hi|].
  rewrite (all_rows_hd c a Ha Hl). exact Hj.
Qed.

Lemma invalid_window_test (w : Z) :
  valid_window w -> (w =? 1) || (w mod 2 =? 0) = false.
Proof.
  intros [Hge Hodd]. rewrite Hodd.
  destruct (Z.eqb_spec w 1); [lia|]. reflexivity.
Qed.

Lemma mean_std_ok (img : image) (w : Z) :
  valid_window w ->
  _mean_std img w =
  (mean_std_trace, Ok (local_mean img (Z.to_nat w), local_std img (Z.to_nat w))).
Proof.
  intros Hv. pose proof Hv as [Hge Hodd].
  unfold _mean_std. rewrite (invalid_window_test w Hv).
  set (n := Z.to_nat w).
  assert (Hn : (3 <= n)%nat) by (unfold n; lia).
  assert (Hw1 : Z.to_nat (w + 1) = S n) by (unfold n; lia).
  assert (Hlast : py_index (S n) (-1) = Some n).
  { rewrite py_index_last by lia. f_equal. lia. }
  assert (Hfirst : py_index (S n) 0 = Some 0%nat) by (apply py_index_first; lia).
  unfold integral_image, emit, ret. rewrite !bind_ok; cbv beta iota.
  rewrite np_zeros_ok by lia. rewrite bind_ok; cbv beta.
  rewrite np_zeros_ok by lia. rewrite bind_ok; cbv beta.
  rewrite np_zeros_ok by lia. rewrite bind_ok; cbv beta.
  rewrite Hw1.
  set (k0 := zeros (S n) (S n)).
  assert (R0 : all_rows (S n) k0) by apply all_rows_zeros.
  assert (L0 : length k0 = S n) by apply zeros_rows.
  rewrite (setitem_in_range k0 (S n) 0 0 0%nat 0%nat);
    [| exact R0 | lia | rewrite L0; exact Hfirst | exact Hfirst ].
  rewrite bind_ok; cbv beta.
  set (k1 := update 0 (update 0 (FofZ 1) (nth 0 k0 [])) k0).
  assert (R1 : all_rows (S n) k1) by (apply all_rows_set; [exact R0|lia]).
  assert (L1 : length k1 = S n) by (unfold k1; rewrite update_length; exact L0).
  rewrite (setitem_in_range k1 (S n) (-1) (-1) n n);
    [| exact R1 | lia | rewrite L1; exact Hlast | exact Hlast ].
  rewrite bind_ok; cbv beta.
  set (k2 := update n (update n (FofZ 1) (nth n k1 [])) k1).
  assert (R2 : all_rows (S n) k2) by (apply all_rows_set; [exact R1|lia]).
  assert (L2 : length k2 = S n) by (unfold k2; rewrite update_length; exact L1).
  rewrite (setitem_in_range k2 (S n) 0 (-1) 0%nat n);
    [| exact R2 | lia | rewrite L2; exact Hfirst | exact Hlast ].
  rewrite bind_ok; cbv beta.
  set (k3 := update 0 (update n (FofZ (-1)) (nth 0 k2 [])) k2).
  assert (R3 : all_rows (S n) k3) by (apply all_rows_set; [exact R2|lia]).
  assert (L3 : length k3 = S n) by (unfold k3; rewrite update_length; exact L2).
  rewrite (setitem_in_range k3 (S n) (-1) 0 n 0%nat);
    [| exact R3 | lia | rewrite L3; exact Hlast | exact Hfirst ].
  rewrite bind_ok; cbv beta.
  rewrite np_ones_ok by lia. rewrite bind_ok; cbv beta.
  rewrite !np_ones_ok by lia. unfold convolve, emit, ret.
  rewrite !bind_ok; cbv beta iota. cbn [app].
  rewrite !Nat2Z.id.
  reflexivity.
Qed.

End StructuralFacts.

(** ** Degenerate histograms *)

(** C1.  On a histogram with a single bin [v], [threshold_yen] and
    [threshold_isodata] return [v] through their explicit short cut, while
    [threshold_otsu], which has no such short cut, slices its cumulative
    arrays down to an empty [variance12] and fails in [np.argmax]. *)
Theorem single_bin_selectors {F : Type} {AF : Arith F}
  (histogram : histogram_provider) (img : image) (nbins : nat) (n : N) (v : F) :
  histogram img nbins = ([n], [v]) ->
  threshold_otsu histogram img nbins =
    Raise (ValueError "attempt to get argmax of an empty sequence") /\
  threshold_yen histogram img nbins = Ok v /\
  threshold_isodata histogram img nbins = Ok v.
Proof.
  intros H. unfold threshold_otsu, threshold_yen, threshold_isodata.
  rewrite H. cbn. repeat split; reflexivity.
Qed.

Lemma single_bin_selectors_blank_image :
  blank_histogram [] 256%nat = ([25%N], [f64 0]) /\
  (threshold_otsu (AF := b64) blank_histogram [] 256 =
     Raise (ValueError "attempt to get argmax of an empty sequence") /\
   threshold_yen (AF := b64) blank_histogram [] 256 = Ok (f64 0) /\
   threshold_isodata (AF := b64) blank_histogram [] 256 = Ok (f64 0)).
Proof.
  split; [reflexivity|].
  apply (single_bin_selectors (AF := b64) blank_histogram [] 256%nat 25%N (f64 0)).
  reflexivity.
Defined.

(** ** Parameter validation of the local engines *)

Section Validation.

Context {F : Type} {AF : Arith F}.

Lemma mean_std_rejects (img : image) (w : Z) :
  w = 1 \/ w mod 2 = 0 ->
  _mean_std img w =
  ([], Raise (ValueError "Window size w must be odd and greater than 1.")).
Proof.
  intros H. unfold _mean_std.
  replace ((w =? 1) || (w mod 2 =? 0)) with true; [reflexivity|].
  symmetry. apply orb_true_iff.
  destruct H as [H|H]; [left|right]; apply Z.eqb_eq; exact H.
Qed.

Lemma adaptive_allocates_first (nd : ndimage) (img : image) (block_size : Z)
  (method : string) (offset : F) (mode : string) (prm : param) :
  exists t o,
    threshold_adaptive nd img block_size method offset mode prm = (EvAlloc :: t, o).
Proof.
  unfold threshold_adaptive. rewrite np_zeros_ok by lia.
  rewrite bind_ok. cbv beta.
  match goal with |- context [let '(t', r) := ?c in _] => destruct c as [t' r] end.
  exists t', r. reflexivity.
Qed.

(** With filters that return, a positive block size of any parity gives a
    classification. *)
Lemma adaptive_returns (nd : ndimage) (img : image) (block_size : Z)
  (method : string) (offset : F) (mode : string) (prm : param) :
  filters_return nd -> 0 < block_size ->
  exists th,
    result (threshold_adaptive nd img block_size method offset mode prm) =
    Ok (classify img th offset).
Proof.
  intros (Hg & Hs & Hc & Hm) Hb. unfold threshold_adaptive.
  rewrite np_zeros_ok by lia. rewrite bind_ok. cbv beta.
  destruct (String.eqb method "generic").
  { destruct (Hg img prm block_size mode) as [r Hr].
    unfold call_filter, emit, lift. rewrite Hr. eexists. reflexivity. }
  destruct (String.eqb method "gaussian").
  { match goal with
    | |- context [gaussian_filter nd img ?sg mode] =>
        destruct (Hs img sg mode) as [r Hr]
    end.
    unfold call_filter, emit, lift. cbv zeta. rewrite Hr. eexists. reflexivity. }
  destruct (String.eqb method "mean").
  { destruct (Z.eqb_spec block_size 0) as [E|_]; [lia|].
    rewrite np_ones_ok by lia. rewrite bind_ok. cbv beta zeta.
    match goal with
    | |- context [convolve1d nd img ?mask 0%nat mode] =>
        destruct (Hc img mask 0%nat mode) as [t1 H1];
        destruct (Hc t1 mask 1%nat mode) as [t2 H2]
    end.
    unfold call_filter, emit, lift. rewrite H1. cbn [bind]. rewrite H2.
    eexists. reflexivity. }
  destruct (String.eqb method "median").
  { destruct (Hm img block_size mode) as [r Hr].
    unfold call_filter, emit, lift. rewrite Hr. eexists. reflexivity. }
  eexists. reflexivity.
Qed.

Ltac same_error H :=
  let E := fresh "E" in
  intros E; apply H; injection E as ->; reflexivity.

(** Whatever the block size, the window error can only come out of
    [threshold_adaptive] if a filter raised it. *)
Lemma adaptive_no_window_error (nd : ndimage) (img : image) (block_size : Z)
  (method : string) (offset : F) (mode : string) (prm : param) :
  filters_never_raise
    (ValueError "Window size w must be odd and greater than 1.") nd ->
  result (threshold_adaptive nd img block_size method offset mode prm) <>
  Raise (ValueError "Window size w must be odd and greater than 1.").
Proof.
  intros (Hg & Hs & Hc & Hm). unfold threshold_adaptive.
  rewrite np_zeros_ok by lia. rewrite bind_ok. cbv beta.
  destruct (String.eqb method "generic").
  { specialize (Hg img prm block_size mode).
    unfold call_filter, emit, lift.
    destruct (generic_filter nd img prm block_size mode) as [r|e];
      cbn; [discriminate|same_error Hg]. }
  destruct (String.eqb method "gaussian").
  { cbv zeta.
    match goal with
    | |- context [gaussian_filter nd img ?sg mode] =>
        specialize (Hs img sg mode);
        unfold call_filter, emit, lift;
        destruct (gaussian_filter nd img sg mode) as [r|e]
    end; cbn; [discriminate|same_error Hs]. }
  destruct (String.eqb method "mean").
  { destruct (Z.eqb_spec block_size 0) as [E|Hne]; [cbn; discriminate|].
    unfold np_ones. cbn [Z.ltb Z.compare orb].
    destruct (Z.ltb_spec block_size 0); [cbn; discriminate|].
    unfold emit, ret. rewrite !bind_ok. cbv beta zeta.
    match goal with
    | |- context [convolve1d nd img ?mask 0%nat mode] =>
        pose proof (Hc img mask 0%nat mode) as H1;
        unfold call_filter, emit, lift;
        destruct (convolve1d nd img mask 0%nat mode) as [t1|e];
        [cbn [bind];
         pose proof (Hc t1 mask 1%nat mode) as H2;
         destruct (convolve1d nd t1 mask 1%nat mode) as [t2|e]|]
    end; cbn; [discriminate|same_error H2|same_error H1]. }
  destruct (String.eqb method "median").
  { specialize (Hm img block_size mode).
    unfold call_filter, emit, lift.
    destruct (median_filter nd img block_size mode) as [r|e];
      cbn; [discriminate|same_error Hm]. }
  cbn. discriminate.
Qed.

End Validation.

(** C4 (as stated, refuted).  With the even window size 2,
    [threshold_sauvola] has already allocated an array when the error is
    raised, and [threshold_adaptive] raises nothing at all. *)
Lemma invalid_window_not_rejected_first :
  ~ rejects_first
      (threshold_sauvola (AF := b64) one_pixel "sauvola" 2
         (f64 0) (f64 128) (f64 0) (f64 2) (f64 10)) /\
  threshold_adaptive (AF := b64) accepting_filters one_pixel 2 "mean"
    (f64 0) "reflect" PNone
  = ([EvAlloc; EvAlloc; EvFilter; EvFilter], Ok [[false]]).
Proof.
  split.
  - intros [msg H]. vm_compute in H. discriminate H.
  - vm_compute. reflexivity.
Qed.

(** C4 (amended).  For window size 1 and for every even window size,
    [threshold_niblack] raises the invalid-parameter error before anything
    else happens; [threshold_sauvola] raises the same error after the one
    allocation of its threshold array and before any integral image is
    built; [threshold_adaptive] does not validate its block size: its
    first action is the allocation of the threshold array, it never
    raises the window error unless a filter of the library does, and for
    the positive sizes among these (1, 2, 4, ...) it returns a
    classification [image > (thresh - offset)] whenever the filters
    return. *)
Theorem invalid_window_rejected {F : Type} {AF : Arith F}
  (nd : ndimage) (img : image) (w : Z) (method filter : string)
  (k r offset p q : F) (mode : string) (prm : param) :
  w = 1 \/ w mod 2 = 0 ->
  rejects_first (threshold_niblack img w k offset) /\
  threshold_sauvola img method w k r offset p q =
    ([EvAlloc], Raise (ValueError "Window size w must be odd and greater than 1.")) /\
  (exists t o,
     threshold_adaptive nd img w filter offset mode prm = (EvAlloc :: t, o)) /\
  (filters_never_raise
     (ValueError "Window size w must be odd and greater than 1.") nd ->
   result (threshold_adaptive nd img w filter offset mode prm) <>
   Raise (ValueError "Window size w must be odd and greater than 1.")) /\
  (filters_return nd -> 0 < w ->
   exists th,
     result (threshold_adaptive nd img w filter offset mode prm) =
     Ok (classify img th offset)).
Proof.
  intros H. split; [|split; [|split; [|split]]].
  - unfold rejects_first, threshold_niblack.
    rewrite (mean_std_rejects img w H).
    eexists. reflexivity.
  - unfold threshold_sauvola, np_zeros_like, emit, ret.
    rewrite !bind_ok. cbv beta iota.
    rewrite (mean_std_rejects img w H). reflexivity.
  - apply adaptive_allocates_first.
  - apply adaptive_no_window_error.
  - apply adaptive_returns.
Qed.

Lemma invalid_window_rejected_even :
  (2 = 1 \/ 2 mod 2 = 0) /\
  rejects_first (threshold_niblack (AF := b64) one_pixel 2 (f64 0) (f64 0)) /\
  threshold_sauvola (AF := b64) one_pixel "wolf" 2
    (f64 0) (f64 128) (f64 0) (f64 2) (f64 10) =
    ([EvAlloc], Raise (ValueError "Window size w must be odd and greater than 1.")) /\
  (exists t o,
     threshold_adaptive (AF := b64) accepting_filters one_pixel 2 "median"
       (f64 0) "reflect" PNone = (EvAlloc :: t, o)) /\
  result (threshold_adaptive (AF := b64) accepting_filters one_pixel 2 "median"
            (f64 0) "reflect" PNone) <>
  Raise (ValueError "Window size w must be odd and greater than 1.") /\
  exists th,
    result (threshold_adaptive (AF := b64) accepting_filters one_pixel 2 "median"
              (f64 0) "reflect" PNone) =
    Ok (classify (AF := b64) one_pixel th (f64 0)).
Proof.
  assert (Hw : 2 = 1 \/ 2 mod 2 = 0) by (right; reflexivity).
  destruct (invalid_window_rejected (AF := b64) accepting_filters one_pixel 2
              "wolf" "median"
              (f64 0) (f64 128) (f64 0) (f64 2) (f64 10) "reflect" PNone Hw)
    as (Hn & Hs & Ha & He & Hr).
  split; [exact Hw|]. split; [exact Hn|]. split; [exact Hs|].
  split; [exact Ha|]. split.
  - apply He. repeat split; intros; discriminate.
  - apply Hr; [|reflexivity].
    repeat split; intros; eexists; reflexivity.
Defined.

(** C5 (as stated, refuted).  With an unknown method name and a valid
    window, [threshold_sauvola] raises only after the allocation and the
    whole local-statistics pass, and [threshold_adaptive] raises nothing. *)
Lemma unknown_method_not_rejected_first :
  threshold_sauvola (AF := b64) one_pixel "otsu" 3
    (f64 0) (f64 128) (f64 0) (f64 2) (f64 10)
  = (EvAlloc :: mean_std_trace, Raise (ValueError "Unknown method")) /\
  threshold_adaptive (AF := b64) accepting_filters one_pixel 3 "otsu"
    (f64 0) "reflect" PNone
  = ([EvAlloc], Ok [[true]]).
Proof. split; vm_compute; reflexivity. Qed.

(** C5 (amended).  For every method name outside
    {sauvola, wolf, phansalkar} and every valid window,
    [threshold_sauvola] raises the invalid-parameter error, but only after
    it has allocated its threshold array and run the complete
    local-statistics pass of [_mean_std]. *)
Theorem unknown_method_sauvola {F : Type} {AF : Arith F}
  (img : image) (method : string) (w : Z) (k r offset p q : F) :
  method <> "sauvola"%string -> method <> "wolf"%string ->
  method <> "phansalkar"%string -> valid_window w ->
  threshold_sauvola img method w k r offset p q =
  (EvAlloc :: mean_std_trace, Raise (ValueError "Unknown method")).
Proof.
  intros H1 H2 H3 Hw.
  unfold threshold_sauvola, np_zeros_like, emit, ret.
  rewrite !bind_ok. cbv beta iota.
  rewrite (mean_std_ok img w Hw). rewrite bind_ok. cbv beta iota.
  apply String.eqb_neq in H1, H2, H3. rewrite H1, H2, H3.
  reflexivity.
Qed.

Lemma unknown_method_sauvola_otsu :
  ("otsu" <> "sauvola" /\ "otsu" <> "wolf" /\ "otsu" <> "phansalkar")%string /\
  valid_window 3 /\
  threshold_sauvola (AF := b64) one_pixel "otsu" 3
    (f64 0) (f64 128) (f64 0) (f64 2) (f64 10)
  = (EvAlloc :: mean_std_trace, Raise (ValueError "Unknown method")).
Proof.
  assert (N1 : "otsu"%string <> "sauvola"%string) by discriminate.
  assert (N2 : "otsu"%string <> "wolf"%string) by discriminate.
  assert (N3 : "otsu"%string <> "phansalkar"%string) by discriminate.
  assert (V : valid_window 3) by (split; [lia|reflexivity]).
  split; [repeat split; assumption|]. split; [exact V|].
  exact (unknown_method_sauvola (AF := b64) one_pixel "otsu" 3
           (f64 0) (f64 128) (f64 0) (f64 2) (f64 10) N1 N2 N3 V).
Defined.

(** ** Cumulative sums, slices and scans *)

Lemma list_as_map_seq {A} (l : list A) (f : nat -> A) (d : A) :
  (forall k, (k < length l)%nat -> nth k l d = f k) ->
  l = map f (seq 0 (length l)).
Proof.
  intros H. apply (nth_ext l _ d (f O)).
  - rewrite length_map, length_seq. reflexivity.
  - intros k Hk. rewrite (map_nth f (seq 0 (length l)) O k).
    rewrite seq_nth by exact Hk. simpl. apply H. exact Hk.
Qed.

Lemma map2_length {A B C} (f : A -> B -> C) (l : list A) (l' : list B) :
  length (map2 f l l') = Nat.min (length l) (length l').
Proof.
  revert l'; induction l as [|x t IH]; intros [|y t']; simpl; auto.
Qed.

Lemma map2_on_maps {I A B C} (f : A -> B -> C) (g : I -> A) (h : I -> B) (s : list I) :
  map2 f (map g s) (map h s) = map (fun i => f (g i) (h i)) s.
Proof. induction s as [|i s IH]; simpl; [reflexivity|]. rewrite IH. reflexivity. Qed.

Lemma map2_app {A B C} (f : A -> B -> C) (a a' : list A) (b b' : list B) :
  length a = length b ->
  map2 f (a ++ a') (b ++ b') = map2 f a b ++ map2 f a' b'.
Proof.
  revert b; induction a as [|x t IH]; intros [|y u] H; simpl in *; try discriminate.
  - reflexivity.
  - rewrite IH by lia. reflexivity.
Qed.

Lemma map2_rev {A B C} (f : A -> B -> C) (a : list A) (b : list B) :
  length a = length b ->
  map2 f (rev a) (rev b) = rev (map2 f a b).
Proof.
  revert b; induction a as [|x t IH]; intros [|y u] H; simpl in *; try discriminate.
  - reflexivity.
  - rewrite map2_app by (rewrite !length_rev; lia).
    rewrite IH by lia. reflexivity.
Qed.

Lemma removelast_map_seq {A} (g : nat -> A) (n : nat) :
  removelast (map g (seq 0 n)) = map g (seq 0 (n - 1)).
Proof.
  destruct n as [|m]; [reflexivity|].
  rewrite seq_S, map_app. simpl. rewrite removelast_last.
  rewrite Nat.sub_0_r. reflexivity.
Qed.

Lemma tl_map_seq {A} (g : nat -> A) (n : nat) :
  tl (map g (seq 0 n)) = map (fun i => g (S i)) (seq 0 (n - 1)).
Proof.
  destruct n as [|m]; [reflexivity|].
  simpl. rewrite Nat.sub_0_r. rewrite <- seq_shift, map_map. reflexivity.
Qed.

Lemma nth_error_removelast {A} (l : list A) (k : nat) (d : A) :
  (S k < length l)%nat -> nth_error (removelast l) k = Some (nth k l d).
Proof.
  revert k; induction l as [|x t IH]; intros k H; simpl in H; [lia|].
  destruct t as [|y u]; [simpl in H; lia|].
  destruct k as [|k]; [reflexivity|].
  change (removelast (x :: y :: u)) with (x :: removelast (y :: u)).
  simpl nth_error. simpl nth. apply IH. simpl in *. lia.
Qed.

Section CumulativeSums.

Context {F : Type} {AF : Arith F}.

Lemma cumsum_from_length (acc : F) (l : list F) :
  length (cumsum_from acc l) = length l.
Proof. revert acc; induction l as [|x t IH]; intros acc; simpl; auto. Qed.

Lemma cumsum_length (l : list F) : length (cumsum l) = length l.
Proof. destruct l; simpl; [reflexivity|]. rewrite cumsum_from_length. reflexivity. Qed.

Lemma nth_cumsum_from (acc : F) (l : list F) (k : nat) (d : F) :
  (k < length l)%nat ->
  nth k (cumsum_from acc l) d = fold_left Fadd (firstn (S k) l) acc.
Proof.
  revert acc k; induction l as [|x t IH]; intros acc k H; simpl in H; [lia|].
  destruct k as [|k]; [reflexivity|].
  simpl. rewrite IH by lia. reflexivity.
Qed.

Lemma nth_cumsum (l : list F) (k : nat) (d : F) :
  (k < length l)%nat -> nth k (cumsum l) d = forward_sum l k.
Proof.
  intros H. destruct l as [|x t]; simpl in H; [lia|].
  unfold forward_sum. destruct k as [|k]; [reflexivity|].
  simpl. rewrite nth_cumsum_from by lia. reflexivity.
Qed.

(** [np.cumsum(a)[k]] is the forward cumulative sum at [k]. *)
Lemma cumsum_forward (l : list F) :
  cumsum l = map (forward_sum l) (seq 0 (length l)).
Proof.
  rewrite <- (cumsum_length l).
  apply (list_as_map_seq (cumsum l) (forward_sum l) (FofZ 0)).
  intros k Hk. rewrite cumsum_length in Hk. apply nth_cumsum. exact Hk.
Qed.

Lemma forward_sum_rev (l : list F) (k : nat) :
  (k < length l)%nat ->
  forward_sum (rev l) (length l - S k) = backward_sum l k.
Proof.
  intros H. unfold forward_sum, backward_sum.
  replace (S (length l - S k)) with (length l - k)%nat by lia.
  rewrite firstn_rev.
  replace (length l - (length l - k))%nat with k by lia.
  reflexivity.
Qed.

(** [np.cumsum(a[::-1])[::-1][k]] is the backward cumulative sum at [k]. *)
Lemma cumsum_backward (l : list F) :
  rev (cumsum (rev l)) = map (backward_sum l) (seq 0 (length l)).
Proof.
  assert (L : length (rev (cumsum (rev l))) = length l)
    by (rewrite length_rev, cumsum_length, length_rev; reflexivity).
  rewrite <- L.
  apply (list_as_map_seq _ (backward_sum l) (FofZ 0)).
  intros k Hk. rewrite L in Hk.
  rewrite rev_nth by (rewrite cumsum_length, length_rev; exact Hk).
  rewrite cumsum_length, length_rev.
  rewrite nth_cumsum by (rewrite length_rev; lia).
  apply forward_sum_rev. exact Hk.
Qed.

Lemma astype_float_length (counts : list N) :
  length (astype_float counts) = length counts.
Proof. apply length_map. Qed.

(** *** The [np.argmax] scan *)

Variable laws : order_laws.

Lemma argmax_from_spec (d : F) (t pre : list F) (mp : F) (best : nat) :
  (best < length pre)%nat ->
  nth best pre d = mp ->
  (forall x, In x t -> Fisnan x = false) ->
  (forall j, (j < length pre)%nat -> Fleb (nth j pre d) mp = true) ->
  (forall j, (j < best)%nat -> Fltb (nth j pre d) mp = true) ->
  let k := argmax_from mp best (length pre) t in
  let l := pre ++ t in
  (k < length l)%nat /\
  (forall j, (j < length l)%nat -> Fleb (nth j l d) (nth k l d) = true) /\
  (forall j, (j < k)%nat -> Fltb (nth j l d) (nth k l d) = true).
Proof.
  revert pre mp best.
  induction t as [|x t IH]; intros pre mp best Hb Hmp Hnan Hle Hlt; cbv zeta.
  - simpl. rewrite app_nil_r. rewrite Hmp. auto.
  - assert (Hx : Fisnan x = false) by (apply Hnan; left; reflexivity).
    assert (Ht : forall y, In y t -> Fisnan y = false)
      by (intros y Hy; apply Hnan; right; exact Hy).
    assert (Hlen : length (pre ++ [x]) = S (length pre))
      by (rewrite length_app; simpl; lia).
    assert (Hpre : forall j, (j < length pre)%nat -> nth j (pre ++ [x]) d = nth j pre d)
      by (intros j Hj; apply app_nth1; exact Hj).
    assert (Hlast : nth (length pre) (pre ++ [x]) d = x)
      by (rewrite app_nth2 by lia; rewrite Nat.sub_diag; reflexivity).
    replace (pre ++ x :: t) with ((pre ++ [x]) ++ t)
      by (rewrite <- app_assoc; reflexivity).
    simpl argmax_from. destruct (Fleb x mp) eqn:Hxm.
    + rewrite <- Hlen. apply IH.
      * lia.
      * rewrite Hpre by exact Hb. exact Hmp.
      * exact Ht.
      * intros j Hj. rewrite Hlen in Hj.
        destruct (Nat.eq_dec j (length pre)) as [->|Hne].
        -- rewrite Hlast. exact Hxm.
        -- rewrite Hpre by lia. apply Hle. lia.
      * intros j Hj. rewrite Hpre by lia. apply Hlt. exact Hj.
    + rewrite Hx. rewrite <- Hlen. apply IH.
      * lia.
      * exact Hlast.
      * exact Ht.
      * intros j Hj. rewrite Hlen in Hj.
        destruct (Nat.eq_dec j (length pre)) as [->|Hne].
        -- rewrite Hlast. apply (leb_refl laws). exact Hx.
        -- rewrite Hpre by lia. apply (ltb_leb laws).
           apply (leb_nleb_ltb laws) with (b := mp); auto. apply Hle. lia.
      * intros j Hj. rewrite Hpre by lia.
        apply (leb_nleb_ltb laws) with (b := mp); auto.
Qed.

(** On a non-empty array without NaN, [np.argmax] returns the first index
    holding a greatest element. *)
Lemma argmax_first_maximiser (d : F) (l : list F) :
  l <> [] ->
  (forall x, In x l -> Fisnan x = false) ->
  exists k,
    argmax l = Ok k /\ (k < length l)%nat /\
    (forall j, (j < length l)%nat -> Fleb (nth j l d) (nth k l d) = true) /\
    (forall j, (j < k)%nat -> Fltb (nth j l d) (nth k l d) = true).
Proof.
  intros Hne Hnan. destruct l as [|x t]; [congruence|].
  assert (Hx : Fisnan x = false) by (apply Hnan; left; reflexivity).
  unfold argmax. rewrite Hx.
  exists (argmax_from x 0 1 t). split; [reflexivity|].
  apply (argmax_from_spec d t [x] x 0%nat).
  - simpl; lia.
  - reflexivity.
  - intros y Hy. apply Hnan. right. exact Hy.
  - intros j Hj. simpl in Hj. assert (j = 0)%nat by lia. subst j.
    simpl. apply (leb_refl laws). exact Hx.
  - intros j Hj. lia.
Qed.

End CumulativeSums.

(** ** Otsu's selector *)

Section Otsu.

Context {F : Type} {AF : Arith F}.

Lemma otsu_weight1 (counts : list N) :
  cumsum (astype_float counts) =
  map (spec_weight1 counts) (seq 0 (length counts)).
Proof.
  rewrite cumsum_forward, astype_float_length. reflexivity.
Qed.

Lemma otsu_weight2 (counts : list N) :
  rev (cumsum (rev (astype_float counts))) =
  map (spec_weight2 counts) (seq 0 (length counts)).
Proof.
  rewrite cumsum_backward, astype_float_length. reflexivity.
Qed.

Lemma otsu_mean1 (counts : list N) (centers : list F) :
  length counts = length centers ->
  map2 Fdiv (cumsum (map2 Fmul (astype_float counts) centers))
            (cumsum (astype_float counts)) =
  map (spec_mean1 counts centers) (seq 0 (length counts)).
Proof.
  intros H. rewrite otsu_weight1, cumsum_forward.
  rewrite map2_length, astype_float_length, <- H, Nat.min_id.
  rewrite map2_on_maps. reflexivity.
Qed.

Lemma otsu_mean2 (counts : list N) (centers : list F) :
  length counts = length centers ->
  rev (map2 Fdiv (cumsum (rev (map2 Fmul (astype_float counts) centers)))
                 (rev (rev (cumsum (rev (astype_float counts)))))) =
  map (spec_mean2 counts centers) (seq 0 (length counts)).
Proof.
  intros H.
  assert (L : length (map2 Fmul (astype_float counts) centers) = length counts)
    by (rewrite map2_length, astype_float_length, <- H, Nat.min_id; reflexivity).
  rewrite <- map2_rev.
  2:{ rewrite !length_rev, !cumsum_length, !length_rev, L, astype_float_length.
      reflexivity. }
  rewrite rev_involutive.
  rewrite otsu_weight2, cumsum_backward, L.
  rewrite map2_on_maps. reflexivity.
Qed.

(** The array [variance12] holds the between-class variance of every split
    [k] from 0 to nbins-2. *)
Lemma otsu_variance12 (histogram : histogram_provider) (img : image) (nbins : nat)
  (counts : list N) (centers : list F) :
  histogram img nbins = (counts, centers) ->
  length counts = length centers ->
  threshold_otsu histogram img nbins =
  match argmax (map (between_class_variance counts centers)
                    (seq 0 (length counts - 1))) with
  | Ok idx => index (removelast centers) idx
  | Raise e => Raise e
  end.
Proof.
  intros Hh Hl. unfold threshold_otsu. rewrite Hh.
  rewrite (otsu_mean2 counts centers Hl), (otsu_mean1 counts centers Hl).
  rewrite otsu_weight1, otsu_weight2.
  rewrite !removelast_map_seq, !tl_map_seq.
  rewrite !map2_on_maps, map_map.
  rewrite map2_on_maps. reflexivity.
Qed.

Variable laws : order_laws.

(** The scan of [np.argmax] over [variance12], read on the spec's formula. *)
Lemma otsu_first_maximiser
  (histogram : histogram_provider) (img : image) (nbins : nat)
  (counts : list N) (centers : list F) :
  histogram img nbins = (counts, centers) ->
  length counts = length centers ->
  (2 <= length counts)%nat ->
  (forall j, (j + 2 <= length counts)%nat ->
             Fisnan (between_class_variance counts centers j) = false) ->
  exists k c,
    (k + 2 <= length counts)%nat /\
    nth_error centers k = Some c /\
    threshold_otsu histogram img nbins = Ok c /\
    (forall j, (j + 2 <= length counts)%nat ->
       Fleb (between_class_variance counts centers j)
            (between_class_variance counts centers k) = true) /\
    (forall j, (j < k)%nat ->
       Fltb (between_class_variance counts centers j)
            (between_class_variance counts centers k) = true).
Proof.
  intros Hh Hl Hn Hnan.
  set (v := between_class_variance counts centers) in *.
  set (m := (length counts - 1)%nat).
  assert (Hm : length (map v (seq 0 m)) = m)
    by (rewrite length_map, length_seq; reflexivity).
  assert (Hnth : forall j, (j < m)%nat -> nth j (map v (seq 0 m)) (v O) = v j).
  { intros j Hj. rewrite (map_nth v (seq 0 m) O j).
    rewrite seq_nth by exact Hj. reflexivity. }
  destruct (argmax_first_maximiser laws (v O) (map v (seq 0 m)))
    as (k & Hk & Hlt & Hmax & Hfirst).
  - intros E. apply (f_equal (@length F)) in E. rewrite Hm in E.
    simpl in E. unfold m in E. lia.
  - intros x Hx. apply in_map_iff in Hx. destruct Hx as (j & <- & Hj).
    apply in_seq in Hj. apply Hnan. unfold m in Hj. lia.
  - rewrite Hm in Hlt, Hmax.
    assert (Hc : (k < length centers)%nat) by (unfold m in Hlt; lia).
    destruct (nth_error centers k) as [c|] eqn:Ec;
      [|apply nth_error_None in Ec; lia].
    exists k, c. split; [unfold m in Hlt; lia|]. split; [exact Ec|]. split.
    + rewrite (otsu_variance12 histogram img nbins counts centers Hh Hl).
      fold v. fold m. rewrite Hk. unfold index.
      rewrite (nth_error_removelast centers k c) by (unfold m in Hlt; lia).
      f_equal. apply nth_error_nth with (d := c) in Ec. exact Ec.
    + split.
      * intros j Hj. assert (Hjm : (j < m)%nat) by (unfold m; lia).
        specialize (Hmax j Hjm). rewrite !Hnth in Hmax by assumption.
        exact Hmax.
      * intros j Hj. specialize (Hfirst j Hj).
        rewrite !Hnth in Hfirst by lia. exact Hfirst.
Qed.

(** C6 (amended).  For a histogram with at least two bins whose between-class
    variance [weight1[k] * weight2[k+1] * (mean1[k] - mean2[k+1])^2] is
    defined (not NaN) at every split k in [0, nbins-2], [threshold_otsu]
    returns the centre of the bin at the split that maximises it, and of
    the first such split when several do. *)
Theorem threshold_otsu_first_maximiser
  (histogram : histogram_provider) (img : image) (nbins : nat)
  (counts : list N) (centers : list F) :
  histogram img nbins = (counts, centers) ->
  length counts = length centers ->
  (2 <= length counts)%nat ->
  (forall j, (j + 2 <= length counts)%nat ->
             Fisnan (between_class_variance counts centers j) = false) ->
  exists k c,
    (k + 2 <= length counts)%nat /\
    nth_error centers k = Some c /\
    threshold_otsu histogram img nbins = Ok c /\
    (forall j, (j + 2 <= length counts)%nat ->
       Fleb (between_class_variance counts centers j)
            (between_class_variance counts centers k) = true) /\
    (forall j, (j < k)%nat ->
       Fltb (between_class_variance counts centers j)
            (between_class_variance counts centers k) = true).
Proof. exact (otsu_first_maximiser histogram img nbins counts centers). Qed.

End Otsu.

(** ** The intermeans (ISODATA) selector *)

Lemma first_true_from_find (f : nat -> bool) (n i : nat) :
  first_true_from i (map f (seq i n)) =
  match find f (seq i n) with
  | Some k => Ok k
  | None => Raise IndexError
  end.
Proof.
  revert i; induction n as [|n IH]; intros i; simpl; [reflexivity|].
  destruct (f i); [reflexivity|]. apply IH.
Qed.

Lemma find_ext_in {A} (f g : A -> bool) (l : list A) :
  (forall x, In x l -> f x = g x) -> find f l = find g l.
Proof.
  induction l as [|x t IH]; intros H; simpl; [reflexivity|].
  rewrite (H x) by (left; reflexivity).
  destruct (g x); [reflexivity|]. apply IH. intros y Hy. apply H. right. exact Hy.
Qed.

Lemma uint8_ordinal_mod (i : nat) : uint8_ordinal i = Z.of_nat i mod 256.
Proof.
  unfold uint8_ordinal, uint8. rewrite Z.add_0_l, Z.mul_1_r.
  change 255 with (Z.ones 8). rewrite Z.land_ones by lia. reflexivity.
Qed.

Section Isodata.

Context {F : Type} {AF : Arith F}.

Lemma ordinal_weighted_length (ordinal : nat -> Z) (counts : list N) :
  length (ordinal_weighted ordinal counts) = length counts.
Proof.
  unfold ordinal_weighted.
  rewrite map2_length, astype_float_length, length_map, length_seq, Nat.min_id.
  reflexivity.
Qed.

Lemma intermean_match_ext (o1 o2 : nat -> Z) (counts : list N) (k : nat) :
  (forall i, (i < length counts)%nat -> o1 i = o2 i) ->
  (k < length counts)%nat ->
  intermean_match o1 counts k = intermean_match o2 counts k.
Proof.
  intros H Hk.
  assert (E : ordinal_weighted o1 counts = ordinal_weighted o2 counts).
  { unfold ordinal_weighted. f_equal. apply map_ext_in.
    intros i Hi. apply in_seq in Hi. rewrite H by lia. reflexivity. }
  unfold intermean_match, intermean_low, intermean_high.
  rewrite E, (H k Hk). reflexivity.
Qed.

(** The search of [threshold_isodata], bin by bin: the first-match scan is
    run with the ordinals of [np.arange(n, dtype=np.uint8)]. *)
Lemma isodata_search (histogram : histogram_provider) (img : image) (nbins : nat)
  (counts : list N) (centers : list F) :
  histogram img nbins = (counts, centers) ->
  length centers <> 1%nat ->
  threshold_isodata histogram img nbins =
  match find (intermean_match uint8_ordinal counts) (seq 0 (length counts)) with
  | Some k => index centers k
  | None => Raise IndexError
  end.
Proof.
  intros Hh Hc. unfold threshold_isodata. rewrite Hh.
  apply Nat.eqb_neq in Hc. rewrite Hc.
  set (n := length counts).
  set (pmf := astype_float counts).
  assert (Lp : length pmf = n) by apply astype_float_length.
  rewrite Lp. unfold arange_uint8. rewrite map_map.
  set (X := map2 Fmul pmf (map (fun i => FofZ (uint8_ordinal i)) (seq 0 n))).
  assert (EX : X = ordinal_weighted uint8_ordinal counts) by reflexivity.
  assert (LX : length X = n) by (rewrite EX; apply ordinal_weighted_length).
  rewrite (map2_rev Fmul pmf) by (rewrite length_map, length_seq; exact Lp).
  fold X.
  rewrite (cumsum_backward X), (cumsum_backward pmf).
  rewrite (cumsum_forward X), (cumsum_forward pmf).
  rewrite LX, Lp. unfold ma_divide, ma_matches.
  rewrite !map2_on_maps, map_map, map2_on_maps.
  unfold first_true. rewrite first_true_from_find.
  rewrite (find_ext_in _ (intermean_match uint8_ordinal counts)).
  - destruct (find _ _); reflexivity.
  - intros k _. unfold intermean_match, intermean_low, intermean_high.
    fold pmf. rewrite <- EX.
    destruct (Feqb (forward_sum pmf k) (FofZ 0));
      destruct (Feqb (backward_sum pmf k) (FofZ 0)); reflexivity.
Qed.

(** C10.  [threshold_isodata] numbers the bins with unsigned bytes: the
    ordinal at position i is i mod 256 (so position 256 of a longer
    histogram carries ordinal 0 again), and both the weighted cumulative
    averages and the matching test of the first-match search use these
    reduced ordinals in place of the true bin indices. *)
Theorem isodata_ordinals_wrap
  (histogram : histogram_provider) (img : image) (nbins : nat)
  (counts : list N) (centers : list F) :
  histogram img nbins = (counts, centers) ->
  length centers <> 1%nat ->
  (256 < length counts)%nat ->
  (forall i, (i < length counts)%nat ->
     nth i (arange_uint8 (length counts)) 0 = Z.of_nat i mod 256) /\
  nth 256 (arange_uint8 (length counts)) 0 = 0 /\
  threshold_isodata histogram img nbins =
  match find (intermean_match (fun i => Z.of_nat i mod 256) counts)
             (seq 0 (length counts)) with
  | Some k => index centers k
  | None => Raise IndexError
  end.
Proof.
  intros Hh Hc Hbig.
  assert (Hnth : forall i, (i < length counts)%nat ->
            nth i (arange_uint8 (length counts)) 0 = Z.of_nat i mod 256).
  { intros i Hi. unfold arange_uint8.
    rewrite nth_indep with (d' := uint8_ordinal 0)
      by (rewrite length_map, length_seq; exact Hi).
    rewrite (map_nth uint8_ordinal (seq 0 (length counts)) O i).
    rewrite seq_nth by exact Hi. apply uint8_ordinal_mod. }
  split; [exact Hnth|]. split; [rewrite Hnth by exact Hbig; reflexivity|].
  rewrite (isodata_search histogram img nbins counts centers Hh Hc).
  rewrite (find_ext_in (intermean_match uint8_ordinal counts)
             (intermean_match (fun i => Z.of_nat i mod 256) counts)).
  - reflexivity.
  - intros k Hk. apply in_seq in Hk. apply intermean_match_ext; [|lia].
    intros i _. apply uint8_ordinal_mod.
Qed.

(** Up to 256 bins the byte ordinals are the bin indices, and the selector
    is the one of the specification. *)
Lemma isodata_small_histogram
  (histogram : histogram_provider) (img : image) (nbins : nat)
  (counts : list N) (centers : list F) :
  histogram img nbins = (counts, centers) ->
  length centers <> 1%nat ->
  (length counts <= 256)%nat ->
  threshold_isodata histogram img nbins = isodata_spec counts centers.
Proof.
  intros Hh Hc Hsmall.
  rewrite (isodata_search histogram img nbins counts centers Hh Hc).
  unfold isodata_spec.
  rewrite (find_ext_in (intermean_match uint8_ordinal counts)
             (intermean_match Z.of_nat counts)).
  - reflexivity.
  - intros k Hk. apply in_seq in Hk. apply intermean_match_ext; [|lia].
    intros i Hi. rewrite uint8_ordinal_mod. apply Z.mod_small. lia.
Qed.

End Isodata.

Lemma isodata_ordinals_wrap_two_level :
  two_level_histogram [] 256%nat = (two_level_counts, two_level_centers) /\
  length two_level_centers <> 1%nat /\
  (256 < length two_level_counts)%nat /\
  ((forall i, (i < length two_level_counts)%nat ->
      nth i (arange_uint8 (length two_level_counts)) 0 = Z.of_nat i mod 256) /\
   nth 256 (arange_uint8 (length two_level_counts)) 0 = 0 /\
   threshold_isodata (AF := b32) two_level_histogram [] 256 =
   match find (intermean_match (AF := b32) (fun i => Z.of_nat i mod 256) two_level_counts)
              (seq 0 (length two_level_counts)) with
   | Some k => index two_level_centers k
   | None => Raise IndexError
   end).
Proof.
  assert (H1 : two_level_histogram [] 256%nat = (two_level_counts, two_level_centers))
    by reflexivity.
  assert (H2 : length two_level_centers <> 1%nat) by (vm_compute; discriminate).
  assert (H3 : (256 < length two_level_counts)%nat) by (vm_compute; lia).
  split; [exact H1|]. split; [exact H2|]. split; [exact H3|].
  exact (isodata_ordinals_wrap (AF := b32) two_level_histogram [] 256%nat
           two_level_counts two_level_centers H1 H2 H3).
Defined.

(** C7 (failing input).  On the 257-bin histogram of a 16-bit image that
    holds only the values 0 and 256, the first bin whose rounded intermean
    equals its index is bin 128, but [threshold_isodata] returns the centre
    of bin 0: ordinal 256 has wrapped to 0, every weighted sum is 0, and
    bin 0 matches at once. *)
Theorem isodata_two_level_divergence :
  threshold_isodata (AF := b32) two_level_histogram [] 256 = Ok (f32 0) /\
  isodata_spec (AF := b32) two_level_counts two_level_centers = Ok (f32 128) /\
  find (intermean_match (AF := b32) Z.of_nat two_level_counts)
       (seq 0 (length two_level_counts)) = Some 128%nat.
Proof. repeat split; vm_compute; reflexivity. Qed.

(** ** The extended reals satisfy the arithmetic laws *)

Ltac decide_reals :=
  unfold Exact.Rleb, Exact.Rltb, Exact.Reqb in *;
  repeat match goal with
         | H : context [Rle_dec ?a ?b] |- _ => destruct (Rle_dec a b)
         | H : context [Rlt_dec ?a ?b] |- _ => destruct (Rlt_dec a b)
         | H : context [Req_dec_T ?a ?b] |- _ => destruct (Req_dec_T a b)
         | |- context [Rle_dec ?a ?b] => destruct (Rle_dec a b)
         | |- context [Rlt_dec ?a ?b] => destruct (Rlt_dec a b)
         | |- context [Req_dec_T ?a ?b] => destruct (Req_dec_T a b)
         end;
  try discriminate; try reflexivity; try lra.

Ltac xreal_cases :=
  repeat match goal with x : Exact.xreal |- _ => destruct x end;
  cbn -[IZR] in *; try discriminate; try reflexivity; decide_reals.

Lemma exact_order_laws : order_laws (AF := Exact.arith).
Proof.
  constructor.
  - intros a H. xreal_cases.
  - intros a b H. xreal_cases.
  - intros a b c H1 H2 H3. xreal_cases.
  - intros a b c H1 H2 H3. xreal_cases.
Qed.

Lemma exact_offset_law : offset_law (AF := Exact.arith).
Proof.
  intros t o1 o2 x H1 H2. xreal_cases.
Qed.

(** ** The order of the binary formats

    [SFcompare] orders the representations lexicographically by sign,
    exponent and mantissa, so the order laws hold for every value of
    [spec_float]. *)

Section BinaryOrder.

Import SpecFloat.

Ltac sf_compare_cases :=
  repeat match goal with
  | H : context [Z.compare ?a ?b] |- _ => destruct (Z.compare_spec a b)
  | |- context [Z.compare ?a ?b] => destruct (Z.compare_spec a b)
  | H : context [Pos.compare ?a ?b] |- _ => destruct (Pos.compare_spec a b)
  | |- context [Pos.compare ?a ?b] => destruct (Pos.compare_spec a b)
  end.

Ltac sf_order :=
  unfold SFleb, SFltb, SFcompare in *;
  change (Pos.compare_cont Eq) with Pos.compare in *;
  sf_compare_cases; cbn [CompOpp] in *;
  first [reflexivity | discriminate | lia].

Lemma binary_order_laws (prec emax : Z) (libm_exp libm_log : spec_float -> spec_float) :
  order_laws (AF := Binary.arith prec emax libm_exp libm_log).
Proof.
  constructor; cbn [Fleb Fltb Fisnan Binary.arith].
  - intros [s|s| |s m e] Hn; try discriminate Hn; destruct s; try reflexivity; sf_order.
  - intros a b. unfold SFltb, SFleb. destruct (SFcompare a b) as [[]|]; congruence.
  - intros [sa|sa| |sa ma ea] [sb|sb| |sb mb eb] [sc|sc| |sc mc ec] Hab Hcb Hc;
      try discriminate;
      try destruct sa; try destruct sb; try destruct sc;
      try discriminate; try reflexivity; sf_order.
  - intros [sa|sa| |sa ma ea] [sb|sb| |sb mb eb] [sc|sc| |sc mc ec] Hbc Hba Ha;
      try discriminate;
      try destruct sa; try destruct sb; try destruct sc;
      try discriminate; try reflexivity; sf_order.
Qed.

End BinaryOrder.

Lemma threshold_otsu_first_maximiser_three_bins :
  exists k c,
    (k + 2 <= length three_bin_counts)%nat /\
    nth_error three_bin_centers k = Some c /\
    threshold_otsu (AF := Exact.arith) three_bin_histogram [] 256 = Ok c /\
    (forall j, (j + 2 <= length three_bin_counts)%nat ->
       Fleb (between_class_variance (AF := Exact.arith) three_bin_counts three_bin_centers j)
            (between_class_variance three_bin_counts three_bin_centers k) = true) /\
    (forall j, (j < k)%nat ->
       Fltb (between_class_variance (AF := Exact.arith) three_bin_counts three_bin_centers j)
            (between_class_variance three_bin_counts three_bin_centers k) = true).
Proof.
  apply (threshold_otsu_first_maximiser (AF := Exact.arith) exact_order_laws
           three_bin_histogram [] 256%nat three_bin_counts three_bin_centers).
  - reflexivity.
  - reflexivity.
  - simpl. lia.
  - intros j Hj. simpl in Hj.
    destruct j as [|[|j]]; [| |lia];
      cbn -[IZR]; decide_reals.
Defined.

(** ** Arrays as tables *)

Lemma table_rows {A} (f : nat -> nat -> A) (h w : nat) :
  length (table f h w) = h.
Proof. unfold table. rewrite length_map, length_seq. reflexivity. Qed.

Lemma table_all_rows {A} (f : nat -> nat -> A) (h w : nat) :
  all_rows w (table f h w).
Proof.
  unfold all_rows, table. apply Forall_forall. intros r Hr.
  apply in_map_iff in Hr. destruct Hr as (i & <- & _).
  rewrite length_map, length_seq. reflexivity.
Qed.

Lemma table_cols {A} (f : nat -> nat -> A) (h w : nat) :
  length (hd [] (table f (S h) w)) = w.
Proof. unfold table. simpl. rewrite length_map, length_seq. reflexivity. Qed.

Lemma shape_table {A} (f : nat -> nat -> A) (h w : nat) :
  shape (table f (S h) w) = (S h, w).
Proof. unfold shape. rewrite table_rows, table_cols. reflexivity. Qed.

Lemma nth_table {A} (f : nat -> nat -> A) (h w i j : nat) (d : A) :
  (i < h)%nat -> (j < w)%nat -> nth j (nth i (table f h w) []) d = f i j.
Proof.
  intros Hi Hj. unfold table.
  rewrite nth_indep with (d' := map (fun j0 => f O j0) (seq 0 w))
    by (rewrite length_map, length_seq; exact Hi).
  rewrite (map_nth (fun i0 => map (fun j0 => f i0 j0) (seq 0 w)) (seq 0 h) O i).
  rewrite seq_nth by exact Hi. simpl.
  rewrite nth_indep with (d' := f i O)
    by (rewrite length_map, length_seq; exact Hj).
  rewrite (map_nth (fun j0 => f i j0) (seq 0 w) O j).
  rewrite seq_nth by exact Hj. reflexivity.
Qed.

Lemma table_ext {A} (f g : nat -> nat -> A) (h w : nat) :
  (forall i j, (i < h)%nat -> (j < w)%nat -> f i j = g i j) ->
  table f h w = table g h w.
Proof.
  intros H. unfold table. apply map_ext_in. intros i Hi. apply in_seq in Hi.
  apply map_ext_in. intros j Hj. apply in_seq in Hj. apply H; lia.
Qed.

Lemma repeat_as_map {A} (v : A) (n : nat) : repeat v n = map (fun _ => v) (seq 0 n).
Proof.
  replace n with (length (repeat v n)) at 2 by apply repeat_length.
  apply (list_as_map_seq (repeat v n) (fun _ => v) v).
  intros k Hk. apply nth_repeat.
Qed.

Lemma repeat_table {A} (v : A) (h w : nat) :
  repeat (repeat v w) h = table (fun _ _ => v) h w.
Proof. unfold table. rewrite repeat_as_map. rewrite (repeat_as_map v w). reflexivity. Qed.

Lemma arr_map_table {A B} (g : A -> B) (f : nat -> nat -> A) (h w : nat) :
  arr_map g (table f h w) = table (fun i j => g (f i j)) h w.
Proof.
  unfold arr_map, table. rewrite map_map. apply map_ext. intros i.
  rewrite map_map. reflexivity.
Qed.

Lemma arr_map2_table {A B C} (g : A -> B -> C)
  (f : nat -> nat -> A) (f' : nat -> nat -> B) (h w : nat) :
  arr_map2 g (table f h w) (table f' h w) = table (fun i j => g (f i j) (f' i j)) h w.
Proof.
  unfold arr_map2, table. rewrite map2_on_maps. apply map_ext. intros i.
  rewrite map2_on_maps. reflexivity.
Qed.

Lemma crop_last_table {A} (f : nat -> nat -> A) (h w : nat) :
  map (@removelast A) (removelast (table f (S h) (S w))) = table f h w.
Proof.
  unfold table. rewrite removelast_map_seq. simpl Nat.sub. rewrite Nat.sub_0_r.
  rewrite map_map. apply map_ext. intros i.
  rewrite removelast_map_seq. simpl Nat.sub. rewrite Nat.sub_0_r. reflexivity.
Qed.

Lemma concat_table_nonempty {A} (f : nat -> nat -> A) (h w : nat) :
  concat (table f (S h) (S w)) <> [].
Proof. unfold table. simpl. discriminate. Qed.

Lemma nth_update {A} (l : list A) (i j : nat) (v d : A) :
  (j < length l)%nat ->
  nth i (update j v l) d = if Nat.eqb i j then v else nth i l d.
Proof.
  revert i j; induction l as [|x t IH]; intros i j H; simpl in H; [lia|].
  destruct j as [|j]; destruct i as [|i]; simpl; try reflexivity.
  apply IH. lia.
Qed.

Section LocalTables.

Context {F : Type} {AF : Arith F}.

Lemma convolve_values_table (a weights : image) (mode : boundary) :
  convolve_values a weights mode =
  table (correlate_at mode a (mirrored weights)) (fst (shape a)) (snd (shape a)).
Proof. reflexivity. Qed.

Lemma shape_ones (h w : nat) : shape (ones (S h) w) = (S h, w).
Proof. unfold shape, ones. simpl. rewrite !repeat_length. reflexivity. Qed.

Lemma shape_arr_map {A B} (g : A -> B) (a : list (list A)) :
  shape (arr_map g a) = shape a.
Proof.
  unfold shape, arr_map. rewrite length_map.
  destruct a as [|r t]; simpl; [reflexivity|]. rewrite length_map. reflexivity.
Qed.

Lemma cumsum_axis0_from_length (acc : list F) (a : image) :
  length (cumsum_axis0_from acc a) = length a.
Proof. revert acc; induction a as [|r t IH]; intros acc; simpl; auto. Qed.

Lemma shape_integral_values (a : image) :
  shape (integral_values a) = shape a.
Proof.
  unfold integral_values, shape, cumsum_axis1.
  destruct a as [|r t]; simpl; [reflexivity|].
  rewrite cumsum_axis0_from_length, length_map, cumsum_length. reflexivity.
Qed.

Lemma shape_padded_integral (a : image) :
  shape (padded_integral a) = (S (fst (shape a)), S (snd (shape a))).
Proof.
  unfold padded_integral. rewrite shape_integral_values.
  destruct (integral_values a) as [|r t] eqn:E.
  - assert (H : shape (integral_values a) = shape a) by apply shape_integral_values.
    rewrite E in H. unfold shape in *. simpl in *.
    injection H as H1 H2. rewrite <- H1, <- H2. reflexivity.
  - assert (H : shape (integral_values a) = shape a) by apply shape_integral_values.
    rewrite E in H. unfold shape in H. simpl in H. injection H as H1 H2.
    unfold shape, vstack, hstack, zeros. simpl.
    rewrite <- H1, <- H2. simpl.
    rewrite map2_length, !repeat_length, Nat.min_id. reflexivity.
Qed.

Variables (img : @image F) (w : nat).

Hypothesis rows_positive : (0 < fst (shape img))%nat.

Lemma local_count_table :
  local_count img w = table (count_at img w) (fst (shape img)) (snd (shape img)).
Proof.
  unfold local_count, count_at. rewrite convolve_values_table.
  destruct (fst (shape img)) as [|h] eqn:E; [lia|].
  rewrite shape_ones. reflexivity.
Qed.

Lemma local_mean_table :
  local_mean img w = table (mean_at img w) (fst (shape img)) (snd (shape img)).
Proof.
  unfold local_mean. rewrite local_count_table, convolve_values_table.
  rewrite shape_padded_integral. cbn [fst snd]. unfold crop_last.
  rewrite crop_last_table, arr_map2_table. reflexivity.
Qed.

Lemma local_variance_table :
  local_variance img w = table (variance_at img w) (fst (shape img)) (snd (shape img)).
Proof.
  unfold local_variance. rewrite local_mean_table, local_count_table.
  rewrite convolve_values_table, shape_arr_map.
  rewrite arr_map_table, !arr_map2_table. reflexivity.
Qed.

Lemma local_std_table :
  local_std img w =
  table (fun i j => Fsqrt (variance_at img w i j)) (fst (shape img)) (snd (shape img)).
Proof.
  unfold local_std. rewrite local_variance_table, arr_map_table. reflexivity.
Qed.

End LocalTables.

(** ** The offset of the Niblack and Sauvola engines *)

Lemma same_or_subset_bind {A} (c : comp A) (k1 k2 : A -> comp bimage) :
  (forall a, same_or_subset (k1 a) (k2 a)) ->
  same_or_subset (bind c k1) (bind c k2).
Proof.
  intros H. destruct c as [t [a|e]]; unfold same_or_subset; simpl.
  - specialize (H a). unfold same_or_subset in H.
    destruct (k1 a) as [t1 o1], (k2 a) as [t2 o2]. simpl in *. exact H.
  - reflexivity.
Qed.

Lemma same_or_subset_raise (e : exn) : same_or_subset (raise e) (raise e).
Proof. unfold same_or_subset. simpl. reflexivity. Qed.

Section OffsetMonotone.

Context {F : Type} {AF : Arith F}.

Variable law : offset_law.

Lemma classify_row_monotone (row trow : list F) (o1 o2 : F) :
  Fleb o1 o2 = true ->
  Forall2 (fun x y : bool => x = true -> y = true)
    (map2 (fun x th => Fltb th x) row (map (fun th => Fsub th o1) trow))
    (map2 (fun x th => Fltb th x) row (map (fun th => Fsub th o2) trow)).
Proof.
  intros Ho. revert trow.
  induction row as [|x row IH]; intros [|th trow]; simpl; constructor.
  - apply law. exact Ho.
  - apply IH.
Qed.

Lemma classify_monotone (img t : image) (o1 o2 : F) :
  Fleb o1 o2 = true ->
  foreground_subset (classify img t o1) (classify img t o2).
Proof.
  intros Ho. unfold foreground_subset, classify, arr_map2, arr_map. revert t.
  induction img as [|row img IH]; intros [|trow t]; simpl; constructor.
  - apply classify_row_monotone. exact Ho.
  - apply IH.
Qed.

Lemma same_or_subset_classify (img t : image) (o1 o2 : F) :
  Fleb o1 o2 = true ->
  same_or_subset (ret (classify img t o1)) (ret (classify img t o2)).
Proof. intros Ho. unfold same_or_subset. simpl. apply classify_monotone. exact Ho. Qed.

(** For a fixed image, window, weight and method, the classification of
    [threshold_niblack] and of [threshold_sauvola] does not decrease when
    the offset grows, in every arithmetic with the offset law. *)
Lemma engines_offset_monotone (img : image) (method : string) (w : Z)
  (k r p q o1 o2 : F) :
  Fleb o1 o2 = true ->
  same_or_subset (threshold_niblack img w k o1) (threshold_niblack img w k o2) /\
  same_or_subset (threshold_sauvola img method w k r o1 p q)
                 (threshold_sauvola img method w k r o2 p q).
Proof.
  intros Ho. split.
  - unfold threshold_niblack. apply same_or_subset_bind. intros [m s].
    apply same_or_subset_classify. exact Ho.
  - unfold threshold_sauvola. apply same_or_subset_bind. intros t.
    apply same_or_subset_bind. intros [m s].
    destruct (String.eqb method "sauvola");
      [apply same_or_subset_classify; exact Ho|].
    destruct (String.eqb method "wolf").
    { apply same_or_subset_bind. intros R. apply same_or_subset_bind. intros M.
      apply same_or_subset_classify. exact Ho. }
    destruct (String.eqb method "phansalkar").
    { apply same_or_subset_bind. intros [m' s'].
      apply same_or_subset_classify. exact Ho. }
    apply same_or_subset_raise.
Qed.

End OffsetMonotone.




(** ** Wolf's variant *)

Section Wolf.

Context {F : Type} {AF : Arith F}.

Variable laws : order_laws.

Lemma fold_maximum_spec (t seen : list F) (acc : F) :
  In acc seen ->
  (forall x, In x seen -> Fleb x acc = true) ->
  (forall x, In x (seen ++ t) -> Fisnan x = false) ->
  In (fold_left Fmaximum t acc) (seen ++ t) /\
  forall x, In x (seen ++ t) -> Fleb x (fold_left Fmaximum t acc) = true.
Proof.
  revert seen acc. induction t as [|b t IH]; intros seen acc Hin Hle Hnan.
  - simpl. rewrite app_nil_r. auto.
  - replace (seen ++ b :: t) with ((seen ++ [b]) ++ t) in *
      by (rewrite <- app_assoc; reflexivity).
    assert (Hb : Fisnan b = false).
    { apply Hnan. apply in_or_app. left. apply in_or_app. right. left. reflexivity. }
    assert (Hacc : Fisnan acc = false).
    { apply Hnan. apply in_or_app. left. apply in_or_app. left. exact Hin. }
    simpl fold_left. unfold Fmaximum at 2 4. rewrite Hacc, orb_false_r.
    destruct (Fleb b acc) eqn:Hba; apply IH; auto.
    + apply in_or_app. left. exact Hin.
    + intros x Hx. apply in_app_or in Hx. destruct Hx as [Hx|[<-|[]]]; auto.
    + apply in_or_app. right. left. reflexivity.
    + intros x Hx. apply in_app_or in Hx. destruct Hx as [Hx|[<-|[]]].
      * apply (ltb_leb laws). apply (leb_nleb_ltb laws) with (b := acc); auto.
      * apply (leb_refl laws). exact Hb.
Qed.

Lemma fold_minimum_spec (t seen : list F) (acc : F) :
  In acc seen ->
  (forall x, In x seen -> Fleb acc x = true) ->
  (forall x, In x (seen ++ t) -> Fisnan x = false) ->
  In (fold_left Fminimum t acc) (seen ++ t) /\
  forall x, In x (seen ++ t) -> Fleb (fold_left Fminimum t acc) x = true.
Proof.
  revert seen acc. induction t as [|b t IH]; intros seen acc Hin Hle Hnan.
  - simpl. rewrite app_nil_r. auto.
  - replace (seen ++ b :: t) with ((seen ++ [b]) ++ t) in *
      by (rewrite <- app_assoc; reflexivity).
    assert (Hb : Fisnan b = false).
    { apply Hnan. apply in_or_app. left. apply in_or_app. right. left. reflexivity. }
    assert (Hacc : Fisnan acc = false).
    { apply Hnan. apply in_or_app. left. apply in_or_app. left. exact Hin. }
    simpl fold_left. unfold Fminimum at 2 4. rewrite Hacc, orb_false_r.
    destruct (Fleb acc b) eqn:Hab; apply IH; auto.
    + apply in_or_app. left. exact Hin.
    + intros x Hx. apply in_app_or in Hx. destruct Hx as [Hx|[<-|[]]]; auto.
    + apply in_or_app. right. left. reflexivity.
    + intros x Hx. apply in_app_or in Hx. destruct Hx as [Hx|[<-|[]]].
      * apply (ltb_leb laws). apply (nleb_leb_ltb laws) with (b := acc); auto.
      * apply (leb_refl laws). exact Hb.
Qed.

(** [ndarray.max()] and [ndarray.min()] of a non-empty array. *)
Lemma amax_greatest (a : image) :
  concat a <> [] ->
  exists R, amax a = Ok R /\ greatest_of R (concat a).
Proof.
  intros Hne. unfold amax. destruct (concat a) as [|x t]; [congruence|].
  eexists. split; [reflexivity|]. intros Hnan.
  apply (fold_maximum_spec t [x] x).
  - left; reflexivity.
  - intros y [<-|[]]. apply (leb_refl laws). apply Hnan. left; reflexivity.
  - exact Hnan.
Qed.

Lemma amin_least (a : image) :
  concat a <> [] ->
  exists M, amin a = Ok M /\ least_of M (concat a).
Proof.
  intros Hne. unfold amin. destruct (concat a) as [|x t]; [congruence|].
  eexists. split; [reflexivity|]. intros Hnan.
  apply (fold_minimum_spec t [x] x).
  - left; reflexivity.
  - intros y [<-|[]]. apply (leb_refl laws). apply Hnan. left; reflexivity.
  - exact Hnan.
Qed.

(** The wolf branch: the local statistics once, the two reductions once,
    then the threshold surface and the comparison. *)
Lemma wolf_surfaces (img : image) (w : Z) (k r offset p q : F) :
  valid_window w ->
  (0 < fst (shape img))%nat ->
  (0 < snd (shape img))%nat ->
  exists R M,
    amax (local_std img (Z.to_nat w)) = Ok R /\
    greatest_of R (concat (local_std img (Z.to_nat w))) /\
    amin img = Ok M /\ least_of M (concat img) /\
    threshold_sauvola img "wolf" w k r offset p q =
    (EvAlloc :: mean_std_trace,
     Ok (classify img
           (arr_map2 (wolf_formula k R M)
              (local_mean img (Z.to_nat w)) (local_std img (Z.to_nat w)))
           offset)).
Proof.
  intros Hw Hh Hc.
  set (n := Z.to_nat w).
  destruct (amax_greatest (local_std img n)) as (R & HR & HRmax).
  { rewrite (local_std_table img n Hh).
    destruct (fst (shape img)) as [|h']; [lia|].
    destruct (snd (shape img)) as [|w']; [lia|].
    apply concat_table_nonempty. }
  destruct (amin_least img) as (M & HM & HMmin).
  { destruct img as [|[|x row] rest]; simpl in *; try lia. discriminate. }
  exists R, M.
  split; [exact HR|]. split; [exact HRmax|].
  split; [exact HM|]. split; [exact HMmin|].
  unfold threshold_sauvola, np_zeros_like, emit, ret.
  rewrite !bind_ok. cbv beta iota.
  rewrite (mean_std_ok img w Hw). rewrite bind_ok. cbv beta iota.
  change (String.eqb "wolf" "sauvola") with false.
  change (String.eqb "wolf" "wolf") with true. cbv iota.
  fold n. rewrite HR, HM. unfold lift. rewrite !bind_ok. cbv beta iota.
  reflexivity.
Qed.

End Wolf.

(** ** Folds over a window *)

Lemma fold_left_ext_in {A B} (f g : A -> B -> A) (l : list B) (a : A) :
  (forall acc x, In x l -> f acc x = g acc x) ->
  fold_left f l a = fold_left g l a.
Proof.
  revert a; induction l as [|x t IH]; intros a H; simpl; [reflexivity|].
  rewrite (H a x) by (left; reflexivity).
  apply IH. intros acc y Hy. apply H. right. exact Hy.
Qed.

Lemma fold_left_idle {A B} (f : A -> B -> A) (l : list B) (a : A) :
  (forall acc x, In x l -> f acc x = acc) ->
  fold_left f l a = a.
Proof.
  revert a; induction l as [|x t IH]; intros a H; simpl; [reflexivity|].
  rewrite (H a x) by (left; reflexivity).
  apply IH. intros acc y Hy. apply H. right. exact Hy.
Qed.

(** A step function that only acts at the two ends of [0..n]. *)
Lemma fold_left_two_ends {A} (f : A -> nat -> A) (n : nat) (a : A) :
  (1 <= n)%nat ->
  (forall acc q, (0 < q < n)%nat -> f acc q = acc) ->
  fold_left f (seq 0 (S n)) a = f (f a O) n.
Proof.
  intros Hn Hmid. rewrite seq_S. rewrite fold_left_app. simpl.
  f_equal. destruct n as [|m]; [lia|]. simpl. 
  apply fold_left_idle. intros acc q Hq. apply in_seq in Hq.
  apply Hmid. lia.
Qed.

Lemma covered_step (lo : Z) (len n : nat) :
  covered lo len (S n) =
  (covered lo len n + if inside lo len n then 1 else 0)%nat.
Proof.
  unfold covered. rewrite seq_S, filter_app, length_app. simpl.
  destruct (inside lo len n); reflexivity.
Qed.

Lemma covered_interval (lo : Z) (len n : nat) :
  Z.of_nat (covered lo len n) =
  Z.max 0 (Z.min (Z.of_nat len) (lo + Z.of_nat n) - Z.max 0 lo).
Proof.
  induction n as [|n IH].
  - unfold covered. simpl. lia.
  - rewrite covered_step, Nat2Z.inj_add, IH. unfold inside.
    destruct (Z.leb_spec 0 (lo + Z.of_nat n));
      destruct (Z.ltb_spec (lo + Z.of_nat n) (Z.of_nat len)); simpl; lia.
Qed.

(** *** The corner kernel *)

Lemma nth_set_entry {A} (a : list (list A)) (c i j p q : nat) (v d : A) :
  all_rows c a -> (i < length a)%nat -> (j < c)%nat ->
  nth q (nth p (update i (update j v (nth i a [])) a) []) d =
  if ((p =? i) && (q =? j))%nat then v else nth q (nth p a []) d.
Proof.
  intros Ha Hi Hj. rewrite nth_update by exact Hi.
  destruct (Nat.eqb_spec p i) as [->|Hne]; simpl; [|reflexivity].
  rewrite nth_update by (rewrite (all_rows_nth c a i Ha Hi); exact Hj).
  reflexivity.
Qed.

Section CornerKernel.

Context {F : Type} {AF : Arith F}.

Lemma nth_zeros (h w p q : nat) (d : F) :
  (p < h)%nat -> (q < w)%nat -> nth q (nth p (zeros h w) []) d = FofZ 0.
Proof.
  intros Hp Hq. unfold zeros. rewrite nth_repeat_lt by exact Hp.
  apply nth_repeat_lt. exact Hq.
Qed.

Lemma corner_kernel_rows (n : nat) :
  length (corner_kernel n) = S n /\ all_rows (S n) (corner_kernel n).
Proof.
  unfold corner_kernel.
  set (k0 := zeros (S n) (S n)).
  assert (R0 : all_rows (S n) k0) by apply all_rows_zeros.
  assert (L0 : length k0 = S n) by apply zeros_rows.
  set (k1 := update 0 _ k0).
  assert (R1 : all_rows (S n) k1) by (apply all_rows_set; [exact R0|lia]).
  assert (L1 : length k1 = S n) by (unfold k1; rewrite update_length; exact L0).
  set (k2 := update n _ k1).
  assert (R2 : all_rows (S n) k2) by (apply all_rows_set; [exact R1|lia]).
  assert (L2 : length k2 = S n) by (unfold k2; rewrite update_length; exact L1).
  set (k3 := update 0 _ k2).
  assert (R3 : all_rows (S n) k3) by (apply all_rows_set; [exact R2|lia]).
  assert (L3 : length k3 = S n) by (unfold k3; rewrite update_length; exact L2).
  split; [rewrite update_length; exact L3|].
  apply all_rows_set; [exact R3|lia].
Qed.

Lemma corner_kernel_entry (n p q : nat) :
  (1 <= n)%nat -> (p <= n)%nat -> (q <= n)%nat ->
  nth q (nth p (corner_kernel n) []) (FofZ 0) = FofZ (corner_weight n p q).
Proof.
  intros Hn Hp Hq. unfold corner_kernel.
  set (k0 := zeros (S n) (S n)).
  assert (R0 : all_rows (S n) k0) by apply all_rows_zeros.
  assert (L0 : length k0 = S n) by apply zeros_rows.
  set (k1 := update 0 _ k0).
  assert (R1 : all_rows (S n) k1) by (apply all_rows_set; [exact R0|lia]).
  assert (L1 : length k1 = S n) by (unfold k1; rewrite update_length; exact L0).
  set (k2 := update n _ k1).
  assert (R2 : all_rows (S n) k2) by (apply all_rows_set; [exact R1|lia]).
  assert (L2 : length k2 = S n) by (unfold k2; rewrite update_length; exact L1).
  set (k3 := update 0 _ k2).
  assert (R3 : all_rows (S n) k3) by (apply all_rows_set; [exact R2|lia]).
  assert (L3 : length k3 = S n) by (unfold k3; rewrite update_length; exact L2).
  rewrite (nth_set_entry k3 (S n)) by (auto; lia).
  unfold k3. rewrite (nth_set_entry k2 (S n)) by (auto; lia).
  unfold k2. rewrite (nth_set_entry k1 (S n)) by (auto; lia).
  unfold k1. rewrite (nth_set_entry k0 (S n)) by (auto; lia).
  unfold k0. rewrite nth_zeros by lia.
  unfold corner_weight.
  destruct (Nat.eqb_spec p 0); destruct (Nat.eqb_spec p n);
    destruct (Nat.eqb_spec q 0); destruct (Nat.eqb_spec q n);
    simpl; try reflexivity; lia.
Qed.

Lemma mirrored_entry (k : image) (n p q : nat) :
  length k = S n -> all_rows (S n) k -> (p <= n)%nat -> (q <= n)%nat ->
  nth q (nth p (mirrored k) []) (FofZ 0) =
  nth (n - q) (nth (n - p) k []) (FofZ 0).
Proof.
  intros Hl Hr Hp Hq. unfold mirrored.
  rewrite rev_nth by (rewrite length_map, Hl; lia).
  rewrite length_map, Hl.
  replace (S n - S p)%nat with (n - p)%nat by lia.
  change (@nil F) with (rev (@nil F)) at 1.
  rewrite (map_nth (@rev F) k [] (n - p)).
  assert (Hlen : length (nth (n - p) k []) = S n)
    by (apply all_rows_nth; [exact Hr|lia]).
  rewrite rev_nth by (rewrite Hlen; lia).
  rewrite Hlen. replace (S n - S q)%nat with (n - q)%nat by lia.
  reflexivity.
Qed.

Lemma corner_weight_mirror (n p q : nat) :
  (1 <= n)%nat -> (p <= n)%nat -> (q <= n)%nat ->
  corner_weight n (n - p) (n - q) = corner_weight n p q.
Proof.
  intros Hn Hp Hq. unfold corner_weight.
  destruct (Nat.eqb_spec (n - p) 0); destruct (Nat.eqb_spec (n - p) n);
    destruct (Nat.eqb_spec (n - q) 0); destruct (Nat.eqb_spec (n - q) n);
    destruct (Nat.eqb_spec p 0); destruct (Nat.eqb_spec p n);
    destruct (Nat.eqb_spec q 0); destruct (Nat.eqb_spec q n);
    try reflexivity; lia.
Qed.

Lemma mirrored_corner_entry (n p q : nat) :
  (1 <= n)%nat -> (p <= n)%nat -> (q <= n)%nat ->
  nth q (nth p (mirrored (corner_kernel n)) []) (FofZ 0) =
  FofZ (corner_weight n p q).
Proof.
  intros Hn Hp Hq. destruct (corner_kernel_rows n) as [Hl Hr].
  rewrite (mirrored_entry (corner_kernel n) n p q Hl Hr Hp Hq).
  rewrite corner_kernel_entry by lia.
  rewrite corner_weight_mirror by lia. reflexivity.
Qed.

Lemma shape_mirrored_corner (n : nat) :
  shape (mirrored (corner_kernel n)) = (S n, S n).
Proof.
  destruct (corner_kernel_rows n) as [Hl Hr].
  unfold shape, mirrored. rewrite length_rev, length_map, Hl. f_equal.
  assert (Hall : all_rows (S n) (rev (map (@rev F) (corner_kernel n)))).
  { unfold all_rows in *. apply Forall_rev. apply Forall_map.
    eapply Forall_impl; [|exact Hr]. intros r H. simpl.
    rewrite length_rev. exact H. }
  apply all_rows_hd; [exact Hall|].
  rewrite length_rev, length_map, Hl. lia.
Qed.

Lemma mirrored_ones (n : nat) : mirrored (ones n n) = ones n n.
Proof.
  assert (R : forall (A : Type) (x : A) m, rev (repeat x m) = repeat x m).
  { intros A x m. induction m as [|m IH]; [reflexivity|].
    simpl. rewrite IH. rewrite <- repeat_cons. reflexivity. }
  unfold mirrored, ones. rewrite map_repeat, R, R. reflexivity.
Qed.

End CornerKernel.

(** ** Local statistics of a constant image, in rounding-free arithmetic *)

Lemma corner_weight_ends (n : nat) :
  (1 <= n)%nat ->
  corner_weight n 0 0 = 1 /\ corner_weight n 0 n = -1 /\
  corner_weight n n 0 = -1 /\ corner_weight n n n = 1.
Proof.
  intros Hn. unfold corner_weight. rewrite !Nat.eqb_refl.
  destruct (Nat.eqb_spec n 0); [lia|]. auto.
Qed.

Lemma corner_weight_inner_column (n p q : nat) :
  (0 < q < n)%nat -> corner_weight n p q = 0.
Proof.
  intros Hq. unfold corner_weight.
  destruct (Nat.eqb_spec q 0); [lia|]. destruct (Nat.eqb_spec q n); [lia|].
  destruct (p =? 0)%nat; [reflexivity|]. destruct (p =? n)%nat; reflexivity.
Qed.

Lemma corner_weight_inner_row (n p q : nat) :
  (0 < p < n)%nat -> corner_weight n p q = 0.
Proof.
  intros Hp. unfold corner_weight.
  destruct (Nat.eqb_spec p 0); [lia|]. destruct (Nat.eqb_spec p n); [lia|].
  reflexivity.
Qed.

Lemma odd_window_origin (h : nat) :
  filter_origin (S (2 * h)) = Z.of_nat h /\
  filter_origin (S (S (2 * h))) = Z.of_nat h.
Proof.
  unfold filter_origin. split.
  - replace (Nat.even (S (2 * h))) with false.
    2:{ symmetry. rewrite Nat.even_succ. rewrite <- Nat.negb_even.
        rewrite Nat.even_mul. reflexivity. }
    replace (S (2 * h) / 2)%nat with h; [lia|].
    apply Nat.div_unique with (r := 1%nat); lia.
  - replace (Nat.even (S (S (2 * h)))) with true.
    2:{ symmetry. rewrite Nat.even_succ_succ, Nat.even_mul. reflexivity. }
    replace (S (S (2 * h)) / 2)%nat with (S h); [lia|].
    apply Nat.div_unique with (r := 0%nat); lia.
Qed.

Section ExactSums.

Import Exact.

Lemma xdiv_fin (a b : R) : b <> 0%R -> xdiv (Fin a) (Fin b) = Fin (a / b).
Proof.
  intros Hb. unfold xdiv, Reqb. destruct (Req_dec_T b 0); [contradiction|].
  reflexivity.
Qed.

Lemma fold_xadd_repeat (c : R) (m : nat) (a : R) :
  cumsum_from (Fin a) (repeat (Fin c) m) =
  map (fun x => Fin (a + c * INR (S x))) (seq 0 m).
Proof.
  revert a. induction m as [|m IH]; intros a; [reflexivity|].
  cbn [repeat cumsum_from]. cbn -[INR]. rewrite IH.
  rewrite <- seq_shift, map_map. f_equal.
  - f_equal. simpl. ring.
  - apply map_ext. intros x. f_equal. rewrite (S_INR (S x)). ring.
Qed.

Lemma cumsum_constant_row (c : R) (m : nat) :
  cumsum (repeat (Fin c) m) = map (fun x => Fin (c * INR (S x))) (seq 0 m).
Proof.
  destruct m as [|m]; [reflexivity|].
  cbn [repeat cumsum]. rewrite fold_xadd_repeat.
  cbn [seq map]. rewrite <- seq_shift, map_map. f_equal.
  - f_equal. simpl. ring.
  - apply map_ext. intros x. f_equal. rewrite (S_INR (S x)). ring.
Qed.

Lemma cumsum_axis0_constant (g : nat -> R) (w m : nat) (a : nat -> R) :
  cumsum_axis0_from (map (fun x => Fin (a x)) (seq 0 w))
    (repeat (map (fun x => Fin (g x)) (seq 0 w)) m) =
  map (fun y => map (fun x => Fin (a x + g x * INR (S y))) (seq 0 w)) (seq 0 m).
Proof.
  revert a. induction m as [|m IH]; intros a; [reflexivity|].
  cbn [repeat cumsum_axis0_from]. rewrite map2_on_maps.
  cbn -[INR]. rewrite (IH (fun x => (a x + g x)%R)).
  rewrite <- seq_shift, map_map. f_equal.
  - apply map_ext. intros x. f_equal. simpl. ring.
  - apply map_ext. intros y. apply map_ext. intros x. f_equal.
    rewrite (S_INR (S y)). ring.
Qed.

Variables (c : R) (H W : nat).

Hypothesis rows_positive : (0 < H)%nat.

Hypothesis cols_positive : (0 < W)%nat.

Lemma shape_flat : shape (flat c H W) = (H, W).
Proof.
  unfold shape, flat. rewrite repeat_length. f_equal.
  destruct H; [lia|]. simpl. apply repeat_length.
Qed.

Lemma integral_flat :
  integral_values (flat c H W) = table (fun y x => Fin (c * INR (S y) * INR (S x))) H W.
Proof.
  unfold integral_values, cumsum_axis1, flat.
  rewrite map_repeat, cumsum_constant_row.
  destruct H as [|h]; [lia|].
  cbn [repeat cumsum_axis0].
  rewrite (cumsum_axis0_constant (fun x => (c * INR (S x))%R) W h
             (fun x => (c * INR (S x))%R)).
  unfold table. cbn [seq map]. rewrite <- seq_shift, map_map. f_equal.
  - apply map_ext. intros x. f_equal. simpl. ring.
  - apply map_ext. intros y. apply map_ext. intros x. f_equal.
    rewrite (S_INR (S y)). ring.
Qed.

Lemma padded_integral_flat :
  padded_integral (flat c H W) = table (fun y x => Fin (c * INR y * INR x)) (S H) (S W).
Proof.
  unfold padded_integral. rewrite integral_flat.
  destruct H as [|h]; [lia|]. rewrite shape_table. cbn [fst snd].
  unfold vstack, hstack, zeros. cbn [repeat app].
  unfold shape. cbn [length fst]. rewrite table_rows.
  cbn [repeat map2 app].
  unfold table. cbn [seq map].
  change (@FofZ xreal Exact.arith 0) with (Fin 0).
  f_equal; [f_equal|f_equal; [f_equal|]].
  - f_equal. simpl. ring.
  - rewrite repeat_as_map, <- seq_shift, map_map.
    apply map_ext. intros x. f_equal. simpl. ring.
  - f_equal. simpl. ring.
  - rewrite <- seq_shift, map_map. reflexivity.
  - rewrite (repeat_as_map [Fin 0] h).
    rewrite <- (seq_shift h 1), <- (seq_shift h 0), !map_map.
    rewrite map2_on_maps. apply map_ext. intros y. cbn [app]. f_equal.
    + f_equal. simpl. ring.
    + rewrite <- seq_shift, map_map. reflexivity.
Qed.

End ExactSums.

Section ExactWindow.

Import Exact.

Lemma sample_constant_flat (v : R) (H W : nat) (ly lx : Z) (p q : nat) :
  (0 < H)%nat -> (0 < W)%nat ->
  sample Constant (flat v H W) (ly + Z.of_nat p) (lx + Z.of_nat q) =
  if inside ly H p && inside lx W q then Fin v else Fin 0.
Proof.
  intros HH HW. unfold sample. rewrite (shape_flat v H W HH HW). unfold inside.
  rewrite <- !andb_assoc.
  destruct (Z.leb_spec 0 (ly + Z.of_nat p)); [|reflexivity].
  destruct (Z.ltb_spec (ly + Z.of_nat p) (Z.of_nat H)); [|reflexivity].
  destruct (Z.leb_spec 0 (lx + Z.of_nat q)); [|reflexivity].
  destruct (Z.ltb_spec (lx + Z.of_nat q) (Z.of_nat W)); [|reflexivity].
  cbn [andb]. unfold flat.
  rewrite nth_repeat_lt by lia. apply nth_repeat_lt. lia.
Qed.

Lemma fold_box_inner (b : bool) (bx : nat -> bool) (v : R) (sq : list nat) (a : R) :
  fold_left (fun acc q => xadd acc (xmul (Fin 1) (if b && bx q then Fin v else Fin 0)))
            sq (Fin a) =
  Fin (a + (if b then v * INR (length (filter bx sq)) else 0)).
Proof.
  revert a. induction sq as [|q sq IH]; intros a.
  - simpl. f_equal. destruct b; simpl; ring.
  - cbn [fold_left filter].
    destruct b; destruct (bx q); cbn [andb xmul xadd]; rewrite IH; f_equal;
      cbn [length]; rewrite ?S_INR; ring.
Qed.

Lemma fold_box (by_ bx : nat -> bool) (v : R) (sp sq : list nat) (a : R) :
  fold_left
    (fun acc p =>
       fold_left
         (fun acc q => xadd acc (xmul (Fin 1) (if by_ p && bx q then Fin v else Fin 0)))
         sq acc)
    sp (Fin a) =
  Fin (a + v * INR (length (filter by_ sp)) * INR (length (filter bx sq))).
Proof.
  revert a. induction sp as [|p sp IH]; intros a.
  - simpl. f_equal. ring.
  - cbn [fold_left filter]. rewrite fold_box_inner, IH. f_equal.
    destruct (by_ p); cbn [length]; rewrite ?S_INR; ring.
Qed.

(** The box filter over a constant image counts the covered pixels. *)
Lemma box_sum_flat (v : R) (H W h i j : nat) :
  (0 < H)%nat -> (0 < W)%nat ->
  correlate_at Constant (flat v H W) (mirrored (ones (S (2 * h)) (S (2 * h)))) i j =
  Fin (v * INR (covered (Z.of_nat i - Z.of_nat h) H (S (2 * h)))
         * INR (covered (Z.of_nat j - Z.of_nat h) W (S (2 * h)))).
Proof.
  intros HH HW. set (n := S (2 * h)).
  rewrite mirrored_ones. unfold correlate_at.
  replace (shape (ones n n)) with (n, n) by (symmetry; apply shape_ones).
  destruct (odd_window_origin h) as [Ho _]. fold n in Ho. rewrite Ho.
  change (@FofZ xreal Exact.arith 0) with (Fin 0).
  rewrite (fold_left_ext_in _
    (fun acc p =>
       fold_left
         (fun acc q =>
            xadd acc (xmul (Fin 1)
              (if inside (Z.of_nat i - Z.of_nat h) H p
                  && inside (Z.of_nat j - Z.of_nat h) W q
               then Fin v else Fin 0)))
         (seq 0 n) acc)).
  - rewrite fold_box. unfold covered. f_equal. ring.
  - intros acc p Hp. apply in_seq in Hp.
    apply fold_left_ext_in. intros acc' q Hq. apply in_seq in Hq.
    unfold ones. rewrite nth_repeat_lt by lia. rewrite nth_repeat_lt by lia.
    change (@FofZ xreal Exact.arith 1) with (Fin 1).
    replace (Feqb (Fin 1) (Fin 0)) with false
      by (cbn; unfold Reqb; destruct (Req_dec_T 1 0); [lra|reflexivity]).
    replace (Z.of_nat i + Z.of_nat p - Z.of_nat h)
      with (Z.of_nat i - Z.of_nat h + Z.of_nat p) by lia.
    replace (Z.of_nat j + Z.of_nat q - Z.of_nat h)
      with (Z.of_nat j - Z.of_nat h + Z.of_nat q) by lia.
    rewrite sample_constant_flat by assumption. reflexivity.
Qed.

Lemma sample_nearest_table (g : nat -> nat -> xreal) (H W : nat) (y x : Z) :
  sample Nearest (table g (S H) (S W)) y x =
  g (clamp_index y (S H)) (clamp_index x (S W)).
Proof.
  unfold sample. rewrite shape_table.
  apply nth_table; unfold clamp_index; lia.
Qed.

Lemma covered_as_clamped (i h H : nat) :
  (i < H)%nat ->
  let y0 := clamp_index (Z.of_nat i + Z.of_nat 0 - Z.of_nat h) (S H) in
  let y1 := clamp_index (Z.of_nat i + Z.of_nat (S (2 * h)) - Z.of_nat h) (S H) in
  (y0 < y1)%nat /\ covered (Z.of_nat i - Z.of_nat h) H (S (2 * h)) = (y1 - y0)%nat.
Proof.
  intros Hi y0 y1.
  pose proof (covered_interval (Z.of_nat i - Z.of_nat h) H (S (2 * h))) as Hc.
  unfold y0, y1, clamp_index in *. lia.
Qed.

(** The four corner look-ups into the padded integral image of a constant
    image give the constant times the number of covered pixels. *)
Lemma corner_sum_flat (c : R) (H W h i j : nat) :
  (0 < H)%nat -> (0 < W)%nat -> (i < H)%nat -> (j < W)%nat ->
  sum_at (flat c H W) (S (2 * h)) i j =
  Fin (c * INR (covered (Z.of_nat i - Z.of_nat h) H (S (2 * h)))
         * INR (covered (Z.of_nat j - Z.of_nat h) W (S (2 * h)))).
Proof.
  intros HH HW Hi Hj. set (n := S (2 * h)).
  assert (Hn : (1 <= n)%nat) by (unfold n; lia).
  unfold sum_at. rewrite (padded_integral_flat c H W HH HW).
  unfold correlate_at. rewrite shape_mirrored_corner.
  destruct (odd_window_origin h) as [_ Ho]. fold n in Ho. rewrite Ho.
  change (@FofZ xreal Exact.arith 0) with (Fin 0).
  destruct (corner_weight_ends n Hn) as (W00 & W0n & Wn0 & Wnn).
  assert (Hzero : Feqb (Fin 0) (Fin 0) = true)
    by (cbn; unfold Reqb; destruct (Req_dec_T 0 0); [reflexivity|lra]).
  assert (Hone : Feqb (Fin 1) (Fin 0) = false)
    by (cbn; unfold Reqb; destruct (Req_dec_T 1 0); [lra|reflexivity]).
  assert (Hmone : Feqb (Fin (-1)) (Fin 0) = false)
    by (cbn; unfold Reqb; destruct (Req_dec_T (-1) 0); [lra|reflexivity]).
  assert (Hw : forall p q, (p <= n)%nat -> (q <= n)%nat ->
            nth q (nth p (mirrored (corner_kernel n)) []) (Fin 0) =
            Fin (IZR (corner_weight n p q))).
  { intros p q Hp Hq.
    exact (mirrored_corner_entry (AF := Exact.arith) n p q Hn Hp Hq). }
  rewrite fold_left_two_ends; [|exact Hn|].
  2:{ intros acc p Hp. apply fold_left_idle. intros acc' q Hq.
      apply in_seq in Hq. rewrite Hw by lia.
      rewrite corner_weight_inner_row by lia. cbv zeta. rewrite Hzero.
      reflexivity. }
  rewrite !fold_left_two_ends; try exact Hn.
  2,3: intros acc q Hq; rewrite Hw by lia;
       rewrite corner_weight_inner_column by lia; cbv zeta; rewrite Hzero;
       reflexivity.
  rewrite !Hw by lia. rewrite W00, W0n, Wn0, Wnn. cbv zeta.
  rewrite Hone, Hmone.
  rewrite !sample_nearest_table.
  destruct (covered_as_clamped i h H Hi) as [Hy Ey].
  destruct (covered_as_clamped j h W Hj) as [Hx Ex].
  fold n in Hy, Ey, Hx, Ex. rewrite Ey, Ex.
  rewrite !minus_INR by lia.
  cbn [Fadd Fmul Exact.arith xadd xmul]. f_equal. ring.
Qed.

End ExactWindow.

Section ConstantImage.

Import Exact.

Lemma count_at_flat (c : R) (H W h i j : nat) :
  (0 < H)%nat -> (0 < W)%nat ->
  count_at (flat c H W) (S (2 * h)) i j =
  Fin (1 * INR (covered (Z.of_nat i - Z.of_nat h) H (S (2 * h)))
         * INR (covered (Z.of_nat j - Z.of_nat h) W (S (2 * h)))).
Proof.
  intros HH HW. unfold count_at. rewrite (shape_flat c H W HH HW). cbn [fst snd].
  change (ones H W) with (flat 1 H W).
  apply box_sum_flat; assumption.
Qed.

Lemma sumsq_at_flat (c : R) (H W h i j : nat) :
  (0 < H)%nat -> (0 < W)%nat ->
  sumsq_at (flat c H W) (S (2 * h)) i j =
  Fin (c * c * INR (covered (Z.of_nat i - Z.of_nat h) H (S (2 * h)))
         * INR (covered (Z.of_nat j - Z.of_nat h) W (S (2 * h)))).
Proof.
  intros HH HW. unfold sumsq_at.
  replace (arr_map Fsq (flat c H W)) with (flat (c * c) H W)
    by (unfold arr_map, flat; rewrite !map_repeat; reflexivity).
  apply box_sum_flat; assumption.
Qed.

Lemma flat_pixel (c : R) (H W h i j : nat) :
  (0 < H)%nat -> (0 < W)%nat -> (i < H)%nat -> (j < W)%nat ->
  mean_at (flat c H W) (S (2 * h)) i j = Fin c /\
  Fsqrt (variance_at (flat c H W) (S (2 * h)) i j) = Fin 0.
Proof.
  intros HH HW Hi Hj.
  destruct (covered_as_clamped i h H Hi) as [Hy Ey].
  destruct (covered_as_clamped j h W Hj) as [Hx Ex].
  set (cy := covered (Z.of_nat i - Z.of_nat h) H (S (2 * h))) in *.
  set (cx := covered (Z.of_nat j - Z.of_nat h) W (S (2 * h))) in *.
  assert (Py : (0 < INR cy)%R) by (apply lt_0_INR; lia).
  assert (Px : (0 < INR cx)%R) by (apply lt_0_INR; lia).
  assert (Pn : (1 * INR cy * INR cx <> 0)%R) by nra.
  assert (Hm : mean_at (flat c H W) (S (2 * h)) i j = Fin c).
  { unfold mean_at. rewrite corner_sum_flat, count_at_flat by assumption.
    fold cy cx. cbn [Fdiv Exact.arith]. rewrite xdiv_fin by exact Pn.
    f_equal. field. lra. }
  split; [exact Hm|].
  unfold variance_at. rewrite Hm, sumsq_at_flat, count_at_flat by assumption.
  fold cy cx. cbn [Fdiv Fsub Fmul Fsq Fsqrt Exact.arith xsub xmul xadd xopp].
  rewrite xdiv_fin by exact Pn.
  replace ((c * c * INR cy * INR cx + - (1 * INR cy * INR cx * (c * c)))
             / (1 * INR cy * INR cx))%R with 0%R by (field; lra).
  unfold xsqrt, Rltb. destruct (Rlt_dec 0 0); [lra|].
  rewrite sqrt_0. reflexivity.
Qed.

Lemma odd_window_half (w : Z) :
  valid_window w -> exists h, (1 <= h)%nat /\ Z.to_nat w = S (2 * h).
Proof.
  intros [Hge Hodd]. exists (Z.to_nat (w / 2)).
  pose proof (Z.div_mod w 2 ltac:(lia)) as Hd. rewrite Hodd in Hd.
  split; lia.
Qed.


End ConstantImage.


(** ** The square root of the local variance *)

Section UnclampedRoot.

Context {F : Type} {AF : Arith F}.

Lemma local_std_as_table (img : image) (n : nat) :
  local_std img n =
  table (fun i j => Fsqrt (variance_at img n i j))
        (fst (shape img)) (snd (shape img)).
Proof.
  destruct img as [|r t].
  - reflexivity.
  - apply local_std_table. simpl. lia.
Qed.

End UnclampedRoot.

(** C2.  [_mean_std] takes the root of the local variance as computed:
    nothing clamps it.  On the 3 x 3 image filled with the double nearest
    to 0.1 and with window 3, the computed variance at pixel (0, 1) is
    negative, and the stddev surface holds NaN there and at six more
    pixels. *)
Lemma stddev_nan_on_constant_image :
  Fltb (Arith := b64) (variance_at (AF := b64) flat_tenth 3 0 1) (f64 0) = true /\
  exists m,
    _mean_std (AF := b64) flat_tenth 3 =
    (mean_std_trace,
     Ok (m,
         [[f64 0; SpecFloat.S754_nan; SpecFloat.S754_nan];
          [SpecFloat.S754_nan; SpecFloat.S754_nan; SpecFloat.S754_nan];
          [SpecFloat.S754_nan; SpecFloat.S754_nan; f64 0]])).
Proof.
  split; [vm_compute; reflexivity|].
  eexists. vm_compute. reflexivity.
Qed.

(** The NaN reaches the classification: with [offset = 1] every pixel of
    this constant image lies above its threshold, yet Niblack marks the
    seven NaN pixels background. *)
Lemma niblack_background_from_nan :
  result (threshold_niblack (AF := b64) flat_tenth 3 (f64 0) (f64 1)) =
  Ok [[true; false; false]; [false; false; false]; [false; false; true]].
Proof. vm_compute. reflexivity. Qed.


(** ** Where the between-class variance is defined *)

Section ExactOtsu.

Import Exact.

Lemma total_count_nonneg (l : list N) : 0 <= total_count l.
Proof. induction l as [|c t IH]; simpl; lia. Qed.

Lemma fold_counts (t : list N) (a : Z) :
  fold_left Fadd (astype_float t) (Fin (IZR a)) = Fin (IZR (a + total_count t)).
Proof.
  revert a. induction t as [|c t IH]; intros a.
  - simpl. rewrite Z.add_0_r. reflexivity.
  - cbn [astype_float map fold_left]. cbn [Fadd FofZ Exact.arith xadd].
    rewrite <- plus_IZR, IH. f_equal. f_equal. simpl. lia.
Qed.

Lemma rev_skipn_last {A} (l : list A) (k : nat) (d : A) :
  (k < length l)%nat -> exists rest, rev (skipn k l) = last l d :: rest.
Proof.
  intros Hk. assert (Hne : l <> []) by (destruct l; simpl in *; [lia|discriminate]).
  pose proof (app_removelast_last d Hne) as E.
  set (l' := removelast l) in *. set (x := last l d) in *.
  assert (Hl : length l = S (length l'))
    by (rewrite E, length_app; simpl; lia).
  replace (skipn k l) with (skipn k (l' ++ [x])) by (rewrite <- E; reflexivity).
  rewrite skipn_app, rev_app_distr.
  replace (k - length l')%nat with 0%nat by lia.
  simpl. eexists. reflexivity.
Qed.

Lemma forward_weight_positive (counts : list N) (k : nat) :
  (0 < hd 0 counts)%N -> (k < length counts)%nat ->
  exists z, 0 < z /\ forward_sum (astype_float counts) k = Fin (IZR z).
Proof.
  intros Hpos Hk. destruct counts as [|c t]; simpl in Hk; [lia|].
  unfold forward_sum, astype_float. rewrite firstn_map. cbn [firstn map].
  change (map (fun c0 : N => FofZ (Z.of_N c0)) (firstn k t))
    with (astype_float (AF := Exact.arith) (firstn k t)).
  change (@FofZ xreal Exact.arith (Z.of_N c)) with (Fin (IZR (Z.of_N c))).
  rewrite fold_counts. eexists. split; [|reflexivity].
  pose proof (total_count_nonneg (firstn k t)). simpl in Hpos. lia.
Qed.

Lemma backward_weight_positive (counts : list N) (k : nat) :
  (0 < last counts 0)%N -> (k < length counts)%nat ->
  exists z, 0 < z /\ backward_sum (astype_float counts) k = Fin (IZR z).
Proof.
  intros Hpos Hk. unfold backward_sum, astype_float.
  rewrite skipn_map, <- map_rev.
  destruct (rev_skipn_last counts k 0%N Hk) as [rest ->].
  cbn [map].
  change (map (fun c0 : N => FofZ (Z.of_N c0)) rest)
    with (astype_float (AF := Exact.arith) rest).
  change (@FofZ xreal Exact.arith (Z.of_N (last counts 0%N)))
    with (Fin (IZR (Z.of_N (last counts 0%N)))).
  rewrite fold_counts. eexists. split; [|reflexivity].
  pose proof (total_count_nonneg rest). lia.
Qed.

Lemma fold_finite (t : list xreal) (a : R) :
  all_finite t -> exists r, fold_left Fadd t (Fin a) = Fin r.
Proof.
  intros Ht. revert a. induction Ht as [|x t [r ->] Ht IH]; intros a.
  - eexists. reflexivity.
  - cbn [fold_left]. cbn [Fadd Exact.arith xadd]. apply IH.
Qed.

Lemma Forall_firstn_skipn {A} (P : A -> Prop) (l : list A) (k : nat) :
  Forall P l -> Forall P (firstn k l) /\ Forall P (skipn k l).
Proof.
  intros Hl. rewrite <- (firstn_skipn k l) in Hl.
  apply Forall_app in Hl. exact Hl.
Qed.

Lemma forward_sum_finite (l : list xreal) (k : nat) :
  all_finite l -> exists r, forward_sum l k = Fin r.
Proof.
  intros Hl. unfold forward_sum.
  assert (Hf : all_finite (firstn (S k) l)) by (apply Forall_firstn_skipn; exact Hl).
  destruct (firstn (S k) l) as [|x t]; [eexists; reflexivity|].
  inversion Hf as [|? ? [r ->] Ht]; subst. apply fold_finite. exact Ht.
Qed.

Lemma backward_sum_finite (l : list xreal) (k : nat) :
  all_finite l -> exists r, backward_sum l k = Fin r.
Proof.
  intros Hl. unfold backward_sum.
  assert (Hf : all_finite (rev (skipn k l)))
    by (apply Forall_rev; apply Forall_firstn_skipn; exact Hl).
  destruct (rev (skipn k l)) as [|x t]; [eexists; reflexivity|].
  inversion Hf as [|? ? [r ->] Ht]; subst. apply fold_finite. exact Ht.
Qed.

Lemma weighted_finite (counts : list N) (rs : list R) :
  all_finite (map2 Fmul (astype_float counts) (map Fin rs)).
Proof.
  unfold all_finite. revert rs.
  induction counts as [|c t IH]; intros [|r rs]; simpl; constructor.
  - eexists. reflexivity.
  - apply IH.
Qed.

(** In rounding-free arithmetic the between-class variance is a real
    number at every split as soon as the first and the last bin are
    populated. *)
Lemma variance_defined (counts : list N) (rs : list R) (j : nat) :
  (0 < hd 0 counts)%N -> (0 < last counts 0)%N ->
  (j + 2 <= length counts)%nat ->
  Fisnan (between_class_variance counts (map Fin rs) j) = false.
Proof.
  intros Hfirst Hlast Hj.
  unfold between_class_variance, spec_mean1, spec_mean2, spec_weight1, spec_weight2.
  destruct (forward_weight_positive counts j Hfirst ltac:(lia)) as (z1 & Hz1 & ->).
  destruct (backward_weight_positive counts (S j) Hlast ltac:(lia)) as (z2 & Hz2 & ->).
  destruct (forward_sum_finite _ j (weighted_finite counts rs)) as [a1 ->].
  destruct (backward_sum_finite _ (S j) (weighted_finite counts rs)) as [a2 ->].
  cbn [Fdiv Exact.arith].
  rewrite !xdiv_fin by (apply not_0_IZR; lia).
  reflexivity.
Qed.

(** Otsu's selector on histograms as the provider builds them for
    non-constant images, over the extended reals. *)
Lemma threshold_otsu_populated_ends
  (histogram : histogram_provider) (img : image) (nbins : nat)
  (counts : list N) (rs : list R) :
  histogram img nbins = (counts, map Fin rs) ->
  length counts = length rs ->
  (2 <= length counts)%nat ->
  (0 < hd 0 counts)%N -> (0 < last counts 0)%N ->
  exists k c,
    (k + 2 <= length counts)%nat /\
    nth_error rs k = Some c /\
    threshold_otsu histogram img nbins = Ok (Fin c) /\
    (forall j, (j + 2 <= length counts)%nat ->
       Fleb (between_class_variance counts (map Fin rs) j)
            (between_class_variance counts (map Fin rs) k) = true) /\
    (forall j, (j < k)%nat ->
       Fltb (between_class_variance counts (map Fin rs) j)
            (between_class_variance counts (map Fin rs) k) = true).
Proof.
  intros Hh Hl Hn Hfirst Hlast.
  destruct (otsu_first_maximiser exact_order_laws histogram img nbins
              counts (map Fin rs) Hh)
    as (k & c & Hk & Hc & Ht & Hmax & Hmin).
  - rewrite length_map. exact Hl.
  - exact Hn.
  - intros j Hj. apply variance_defined; assumption.
  - rewrite nth_error_map in Hc.
    destruct (nth_error rs k) as [r|] eqn:Er; [|discriminate].
    injection Hc as <-. exists k, r. auto.
Qed.

End ExactOtsu.

(** With an empty first bin the class mean [mean1[0]] is 0/0: the variance
    of split 0 is NaN and [np.argmax] stops there. *)
Lemma threshold_otsu_empty_first_bin :
  Fisnan (Arith := b64)
    (between_class_variance (AF := b64) [0%N; 1%N; 1%N] [f64 0; f64 1; f64 2] 0) = true /\
  threshold_otsu (AF := b64) late_start_histogram [] 256 = Ok (f64 0).
Proof. split; vm_compute; reflexivity. Qed.

(** C6 (as stated, refuted).  On the three-bin histogram [0, 1, 1] with
    centres 0, 1, 2 the between-class variance of split 0 is NaN (class 1
    is empty, its mean is 0/0) and that of split 1 is 1; [threshold_otsu]
    returns the centre of bin 0, which is not a maximiser: no split whose
    centre is returned is at least as large as every other split. *)
Lemma otsu_returns_undefined_split :
  threshold_otsu (AF := b64) late_start_histogram [] 256 = Ok (f64 0) /\
  between_class_variance (AF := b64) [0%N; 1%N; 1%N] [f64 0; f64 1; f64 2] 1 = f64 1 /\
  ~ exists k c,
      (k + 2 <= length [0%N; 1%N; 1%N])%nat /\
      nth_error [f64 0; f64 1; f64 2] k = Some c /\
      threshold_otsu (AF := b64) late_start_histogram [] 256 = Ok c /\
      (forall j, (j + 2 <= length [0%N; 1%N; 1%N])%nat ->
         Fleb (Arith := b64)
           (between_class_variance (AF := b64) [0%N; 1%N; 1%N] [f64 0; f64 1; f64 2] j)
           (between_class_variance (AF := b64) [0%N; 1%N; 1%N] [f64 0; f64 1; f64 2] k)
         = true) /\
      (forall j, (j < k)%nat ->
         Fltb (Arith := b64)
           (between_class_variance (AF := b64) [0%N; 1%N; 1%N] [f64 0; f64 1; f64 2] j)
           (between_class_variance (AF := b64) [0%N; 1%N; 1%N] [f64 0; f64 1; f64 2] k)
         = true).
Proof.
  assert (Ht : threshold_otsu (AF := b64) late_start_histogram [] 256 = Ok (f64 0))
    by (vm_compute; reflexivity).
  split; [exact Ht|]. split; [vm_compute; reflexivity|].
  intros (k & c & Hk & Hc & Hr & Hmax & _).
  rewrite Ht in Hr. injection Hr as <-.
  destruct k as [|[|k]].
  - specialize (Hmax 1%nat ltac:(simpl; lia)). vm_compute in Hmax. discriminate Hmax.
  - vm_compute in Hc. discriminate Hc.
  - simpl in Hk. lia.
Qed.

(** * Further properties of the engines and selectors *)

(** ** Shapes of the returned arrays *)

Lemma all_rows_map2 {A B C} (f : list A -> list B -> list C) (c : nat)
  (a : list (list A)) (b : list (list B)) :
  (forall r r', length r = c -> length r' = c -> length (f r r') = c) ->
  all_rows c a -> all_rows c b -> all_rows c (map2 f a b).
Proof.
  intros Hf Ha. revert b. unfold all_rows in *.
  induction Ha as [|r a Hr Ha IH]; intros b Hb; [constructor|].
  destruct Hb as [|r' b Hr' Hb]; simpl; constructor; auto.
Qed.

Lemma all_rows_arr_map2 {A B C} (f : A -> B -> C) (c : nat)
  (a : list (list A)) (b : list (list B)) :
  all_rows c a -> all_rows c b -> all_rows c (arr_map2 f a b).
Proof.
  intros Ha Hb. unfold arr_map2. apply all_rows_map2; auto.
  intros r r' Hr Hr'. rewrite map2_length, Hr, Hr'. apply Nat.min_id.
Qed.

Lemma all_rows_arr_map {A B} (f : A -> B) (c : nat) (a : list (list A)) :
  all_rows c a -> all_rows c (arr_map f a).
Proof.
  unfold all_rows, arr_map. intros Ha. apply Forall_map.
  eapply Forall_impl; [|exact Ha]. intros r Hr. simpl.
  rewrite length_map. exact Hr.
Qed.

Section Shapes.

Context {F : Type} {AF : Arith F}.

Lemma local_mean_as_table (img : image) (n : nat) :
  local_mean img n =
  table (mean_at img n) (fst (shape img)) (snd (shape img)).
Proof.
  destruct img as [|r t].
  - reflexivity.
  - apply local_mean_table. simpl. lia.
Qed.

(** X1.  With a valid window, the two surfaces returned by [_mean_std]
    have exactly the shape of the image: as many rows as the image and, in
    every row, as many columns as the first row of the image. *)
Theorem mean_std_same_shape (img : image) (w : Z) :
  valid_window w ->
  exists m s,
    _mean_std img w = (mean_std_trace, Ok (m, s)) /\
    length m = fst (shape img) /\ all_rows (snd (shape img)) m /\
    length s = fst (shape img) /\ all_rows (snd (shape img)) s.
Proof.
  intros Hw.
  exists (local_mean img (Z.to_nat w)), (local_std img (Z.to_nat w)).
  split; [apply mean_std_ok; exact Hw|].
  rewrite local_mean_as_table, local_std_as_table.
  rewrite !table_rows. repeat split; apply table_all_rows.
Qed.

(** X2.  On a rectangular image and with a valid window,
    [threshold_niblack] and [threshold_sauvola] (method sauvola) return a
    classification image of the shape of the input. *)
Theorem classification_same_shape (img : image) (w : Z) (k r offset p q : F) :
  valid_window w ->
  all_rows (snd (shape img)) img ->
  (exists c,
     threshold_niblack img w k offset = (mean_std_trace, Ok c) /\
     length c = fst (shape img) /\ all_rows (snd (shape img)) c) /\
  (exists c,
     threshold_sauvola img "sauvola" w k r offset p q =
       (EvAlloc :: mean_std_trace, Ok c) /\
     length c = fst (shape img) /\ all_rows (snd (shape img)) c).
Proof.
  intros Hw Hrect.
  assert (Hm : length (local_mean img (Z.to_nat w)) = length img)
    by (rewrite local_mean_as_table, table_rows; reflexivity).
  assert (Hs : length (local_std img (Z.to_nat w)) = length img)
    by (rewrite local_std_as_table, table_rows; reflexivity).
  assert (Rm : all_rows (snd (shape img)) (local_mean img (Z.to_nat w)))
    by (rewrite local_mean_as_table; apply table_all_rows).
  assert (Rs : all_rows (snd (shape img)) (local_std img (Z.to_nat w)))
    by (rewrite local_std_as_table; apply table_all_rows).
  split.
  - unfold threshold_niblack. rewrite (mean_std_ok img w Hw).
    rewrite bind_ok. cbv beta iota. unfold ret. rewrite app_nil_r.
    eexists. split; [reflexivity|]. unfold classify. split.
    + unfold arr_map2 at 1, arr_map at 1.
      rewrite map2_length, length_map. unfold arr_map2, arr_map.
      rewrite map2_length, length_map, Hm, Hs, !Nat.min_id. reflexivity.
    + apply all_rows_arr_map2; [exact Hrect|]. apply all_rows_arr_map.
      apply all_rows_arr_map2; [exact Rm|]. apply all_rows_arr_map. exact Rs.
  - unfold threshold_sauvola, np_zeros_like, emit, ret.
    rewrite !bind_ok. cbv beta iota.
    rewrite (mean_std_ok img w Hw). rewrite bind_ok. cbv beta iota.
    change (String.eqb "sauvola" "sauvola") with true. cbv iota.
    rewrite app_nil_r.
    eexists. split; [reflexivity|]. unfold classify. split.
    + unfold arr_map2 at 1, arr_map at 1.
      rewrite map2_length, length_map. unfold arr_map2.
      rewrite map2_length, Hm, Hs, !Nat.min_id. reflexivity.
    + apply all_rows_arr_map2; [exact Hrect|]. apply all_rows_arr_map.
      apply all_rows_arr_map2; assumption.
Qed.

(** X3.  The window check of [_mean_std] lets every negative odd size
    through.  The integral image is then built and padded, and the call
    fails on the kernel: for [w = -1] with an index error (the kernel is
    empty), for [w <= -3] because of the negative kernel dimensions. *)
Theorem negative_odd_window (img : image) (w : Z) :
  w < 0 -> w mod 2 = 1 ->
  (w = -1 ->
   _mean_std img w =
   ([EvIntegralImage; EvAlloc; EvAlloc; EvAlloc], Raise IndexError)) /\
  (w < -1 ->
   _mean_std img w =
   ([EvIntegralImage; EvAlloc; EvAlloc],
    Raise (ValueError "negative dimensions are not allowed"))).
Proof.
  intros Hneg Hodd.
  assert (Htest : (w =? 1) || (w mod 2 =? 0) = false).
  { rewrite Hodd. destruct (Z.eqb_spec w 1); [lia|reflexivity]. }
  split; intros Hw; unfold _mean_std; rewrite Htest;
    unfold integral_image, emit, ret; rewrite !bind_ok; cbv beta iota;
    rewrite np_zeros_ok by lia; rewrite bind_ok; cbv beta;
    rewrite np_zeros_ok by lia; rewrite bind_ok; cbv beta.
  - subst w. reflexivity.
  - unfold np_zeros at 1.
    destruct (Z.ltb_spec (w + 1) 0); [|lia]. reflexivity.
Qed.

End Shapes.

Lemma mean_std_same_shape_one_pixel :
  exists m s,
    _mean_std (AF := b64) one_pixel 3 = (mean_std_trace, Ok (m, s)) /\
    length m = fst (shape one_pixel) /\ all_rows (snd (shape one_pixel)) m /\
    length s = fst (shape one_pixel) /\ all_rows (snd (shape one_pixel)) s.
Proof.
  apply (mean_std_same_shape (AF := b64) one_pixel 3).
  split; [lia|reflexivity].
Defined.

Lemma classification_same_shape_flat_tenth :
  (exists c,
     threshold_niblack (AF := b64) flat_tenth 3 (f64 0) (f64 0) = (mean_std_trace, Ok c) /\
     length c = fst (shape flat_tenth) /\ all_rows (snd (shape flat_tenth)) c) /\
  (exists c,
     threshold_sauvola (AF := b64) flat_tenth "sauvola" 3
       (f64 0) (f64 128) (f64 0) (f64 2) (f64 10) =
       (EvAlloc :: mean_std_trace, Ok c) /\
     length c = fst (shape flat_tenth) /\ all_rows (snd (shape flat_tenth)) c).
Proof.
  apply (classification_same_shape (AF := b64) flat_tenth 3
           (f64 0) (f64 128) (f64 0) (f64 2) (f64 10)).
  - split; [lia|reflexivity].
  - repeat constructor.
Defined.

Lemma negative_odd_window_minus_three :
  (-3 = -1 ->
   _mean_std (AF := b64) one_pixel (-3) =
   ([EvIntegralImage; EvAlloc; EvAlloc; EvAlloc], Raise IndexError)) /\
  (-3 < -1 ->
   _mean_std (AF := b64) one_pixel (-3) =
   ([EvIntegralImage; EvAlloc; EvAlloc],
    Raise (ValueError "negative dimensions are not allowed"))).
Proof.
  apply (negative_odd_window (AF := b64) one_pixel (-3)).
  - lia.
  - reflexivity.
Defined.

(** ** Which bin centre a selector can return *)

Lemma length_removelast_pred {A} (l : list A) :
  length (removelast l) = (length l - 1)%nat.
Proof.
  induction l as [|x t IH]; [reflexivity|].
  destruct t as [|y u]; [reflexivity|].
  change (removelast (x :: y :: u)) with (x :: removelast (y :: u)).
  simpl length in *. rewrite IH. lia.
Qed.

Lemma length_tl_pred {A} (l : list A) : length (tl l) = (length l - 1)%nat.
Proof. destruct l; simpl; lia. Qed.

Lemma find_first_in_seq (f : nat -> bool) (n a k : nat) :
  find f (seq a n) = Some k ->
  (a <= k < a + n)%nat /\ f k = true /\
  forall j, (a <= j < k)%nat -> f j = false.
Proof.
  revert a. induction n as [|n IH]; intros a H; simpl in H; [discriminate|].
  destruct (f a) eqn:Fa.
  - injection H as <-. split; [lia|]. split; [exact Fa|]. intros j Hj. lia.
  - apply IH in H. destruct H as (Hr & Hk & Hj).
    split; [lia|]. split; [exact Hk|].
    intros j Hj'. destruct (Nat.eq_dec j a) as [->|Hne]; [exact Fa|].
    apply Hj. lia.
Qed.

Lemma find_none_in_seq (f : nat -> bool) (n a : nat) :
  find f (seq a n) = None <-> forall j, (a <= j < a + n)%nat -> f j = false.
Proof.
  split.
  - intros H j Hj. apply (find_none f (seq a n) H). apply in_seq. exact Hj.
  - intros H. destruct (find f (seq a n)) as [k|] eqn:E; [|reflexivity].
    apply find_first_in_seq in E. destruct E as (Hr & Hk & _).
    rewrite H in Hk by exact Hr. discriminate.
Qed.

Section SelectorRange.

Context {F : Type} {AF : Arith F}.

Lemma argmax_from_bound (l : list F) (mp : F) (best i : nat) :
  (best < i)%nat -> (argmax_from mp best i l < i + length l)%nat.
Proof.
  revert mp best i. induction l as [|x t IH]; intros mp best i Hb; simpl.
  - lia.
  - destruct (Fleb x mp).
    + specialize (IH mp best (S i)). lia.
    + destruct (Fisnan x); [lia|]. specialize (IH x i (S i)). lia.
Qed.

(** [np.argmax] of a non-empty array is an index of the array, whatever
    the array holds. *)
Lemma argmax_in_range (l : list F) :
  l <> [] -> exists k, argmax l = Ok k /\ (k < length l)%nat.
Proof.
  intros Hne. destruct l as [|x t]; [congruence|]. unfold argmax.
  destruct (Fisnan x).
  - exists O. split; [reflexivity|simpl; lia].
  - eexists. split; [reflexivity|].
    pose proof (argmax_from_bound t x 0 1 ltac:(lia)). simpl. lia.
Qed.

(** X4.  On a histogram with at least two bins (counts and centres of the
    same length) [threshold_otsu] never raises and returns the centre of
    one of the bins 0 .. nbins-2: the centre of the last bin is never
    returned, whatever the counts are (zero counts and NaN variances
    included). *)
Theorem threshold_otsu_inner_centre
  (histogram : histogram_provider) (img : image) (nbins : nat)
  (counts : list N) (centers : list F) :
  histogram img nbins = (counts, centers) ->
  length counts = length centers ->
  (2 <= length counts)%nat ->
  exists k c,
    (k + 2 <= length counts)%nat /\
    nth_error centers k = Some c /\
    threshold_otsu histogram img nbins = Ok c.
Proof.
  intros Hh Hl Hn.
  rewrite (otsu_variance12 histogram img nbins counts centers Hh Hl).
  destruct (argmax_in_range
              (map (between_class_variance counts centers)
                   (seq 0 (length counts - 1)))) as (k & Hk & Hlt).
  - intros E. apply (f_equal (@length F)) in E.
    rewrite length_map, length_seq in E. simpl in E. lia.
  - rewrite length_map, length_seq in Hlt. rewrite Hk.
    destruct (nth_error centers k) as [c|] eqn:Ec;
      [|apply nth_error_None in Ec; lia].
    exists k, c. split; [lia|]. split; [exact Ec|].
    unfold index. rewrite (nth_error_removelast centers k c) by lia.
    f_equal. apply nth_error_nth with (d := c) in Ec. exact Ec.
Qed.

(** X5.  The same holds for [threshold_yen]: with at least two bins it
    never raises and returns the centre of one of the bins 0 .. nbins-2
    (its criterion has nbins-1 entries and indexes the unsliced centres). *)
Theorem threshold_yen_inner_centre
  (histogram : histogram_provider) (img : image) (nbins : nat)
  (counts : list N) (centers : list F) :
  histogram img nbins = (counts, centers) ->
  length counts = length centers ->
  (2 <= length counts)%nat ->
  exists k c,
    (k + 2 <= length counts)%nat /\
    nth_error centers k = Some c /\
    threshold_yen histogram img nbins = Ok c.
Proof.
  intros Hh Hl Hn. unfold threshold_yen. rewrite Hh.
  destruct (Nat.eqb_spec (length centers) 1) as [E|_]; [lia|].
  match goal with
  | |- context [argmax ?l] =>
      assert (Hc : length l = (length counts - 1)%nat)
  end.
  { rewrite length_map, map2_length, !length_map, !map2_length,
      !length_map, !length_removelast_pred, length_tl_pred,
      length_rev, !cumsum_length, !length_map, length_rev, !length_map,
      !astype_float_length.
    lia. }
  match goal with
  | |- context [argmax ?l] =>
      destruct (argmax_in_range l) as (k & Hk & Hlt)
  end.
  { intros E. rewrite E in Hc. simpl in Hc. lia. }
  rewrite Hc in Hlt. rewrite Hk. unfold index.
  destruct (nth_error centers k) as [c|] eqn:Ec;
    [|apply nth_error_None in Ec; lia].
  exists k, c. split; [lia|]. split; [exact Ec|]. reflexivity.
Qed.

(** X6.  With parallel arrays of more than one bin, [threshold_isodata]
    either returns the centre of the first bin whose rounded intermean
    equals its byte ordinal, or, when no bin matches, raises [IndexError];
    it has no other outcome. *)
Theorem threshold_isodata_outcome
  (histogram : histogram_provider) (img : image) (nbins : nat)
  (counts : list N) (centers : list F) :
  histogram img nbins = (counts, centers) ->
  length centers <> 1%nat ->
  length counts = length centers ->
  (exists k c,
     (k < length counts)%nat /\ nth_error centers k = Some c /\
     threshold_isodata histogram img nbins = Ok c /\
     intermean_match uint8_ordinal counts k = true /\
     forall j, (j < k)%nat -> intermean_match uint8_ordinal counts j = false) \/
  (threshold_isodata histogram img nbins = Raise IndexError /\
   forall j, (j < length counts)%nat ->
             intermean_match uint8_ordinal counts j = false).
Proof.
  intros Hh Hc Hl.
  rewrite (isodata_search histogram img nbins counts centers Hh Hc).
  destruct (find (intermean_match uint8_ordinal counts) (seq 0 (length counts)))
    as [k|] eqn:E.
  - left. apply find_first_in_seq in E. destruct E as (Hr & Hk & Hj).
    destruct (nth_error centers k) as [c|] eqn:Ec;
      [|apply nth_error_None in Ec; lia].
    exists k, c. split; [lia|]. split; [exact Ec|]. split.
    + unfold index. rewrite Ec. reflexivity.
    + split; [exact Hk|]. intros j Hjk. apply Hj. lia.
  - right. split; [reflexivity|].
    intros j Hj. apply (proj1 (find_none_in_seq _ _ _) E). lia.
Qed.

End SelectorRange.

Lemma threshold_otsu_inner_centre_late_start :
  exists k c,
    (k + 2 <= length [0%N; 1%N; 1%N])%nat /\
    nth_error [f64 0; f64 1; f64 2] k = Some c /\
    threshold_otsu (AF := b64) late_start_histogram [] 256 = Ok c.
Proof.
  apply (threshold_otsu_inner_centre (AF := b64) late_start_histogram [] 256%nat
           [0%N; 1%N; 1%N] [f64 0; f64 1; f64 2]).
  - reflexivity.
  - reflexivity.
  - simpl. lia.
Defined.

Lemma threshold_yen_inner_centre_late_start :
  exists k c,
    (k + 2 <= length [0%N; 1%N; 1%N])%nat /\
    nth_error [f64 0; f64 1; f64 2] k = Some c /\
    threshold_yen (AF := b64) late_start_histogram [] 256 = Ok c.
Proof.
  apply (threshold_yen_inner_centre (AF := b64) late_start_histogram [] 256%nat
           [0%N; 1%N; 1%N] [f64 0; f64 1; f64 2]).
  - reflexivity.
  - reflexivity.
  - simpl. lia.
Defined.

Lemma threshold_isodata_outcome_two_level :
  (exists k c,
     (k < length two_level_counts)%nat /\ nth_error two_level_centers k = Some c /\
     threshold_isodata (AF := b32) two_level_histogram [] 256 = Ok c /\
     intermean_match (AF := b32) uint8_ordinal two_level_counts k = true /\
     forall j, (j < k)%nat ->
       intermean_match (AF := b32) uint8_ordinal two_level_counts j = false) \/
  (threshold_isodata (AF := b32) two_level_histogram [] 256 = Raise IndexError /\
   forall j, (j < length two_level_counts)%nat ->
     intermean_match (AF := b32) uint8_ordinal two_level_counts j = false).
Proof.
  apply (threshold_isodata_outcome (AF := b32) two_level_histogram [] 256%nat
           two_level_counts two_level_centers).
  - reflexivity.
  - vm_compute. discriminate.
  - vm_compute. reflexivity.
Defined.

(** ** The statistic-filter engine *)

Section Adaptive.

Context {F : Type} {AF : Arith F}.

(** X7.  [threshold_adaptive] has no branch for a method name outside
    {generic, gaussian, mean, median}: no filter is called, the threshold
    surface stays the freshly allocated zero array, and the call returns
    [image > (0 - offset)] whatever the block size, mode and parameter. *)
Theorem adaptive_unknown_method (nd : ndimage) (img : image) (block_size : Z)
  (method : string) (offset : F) (mode : string) (prm : param) :
  method <> "generic"%string -> method <> "gaussian"%string ->
  method <> "mean"%string -> method <> "median"%string ->
  threshold_adaptive nd img block_size method offset mode prm =
  ([EvAlloc],
   Ok (classify img (zeros (fst (shape img)) (snd (shape img))) offset)).
Proof.
  intros H1 H2 H3 H4. unfold threshold_adaptive.
  rewrite np_zeros_ok by lia. rewrite bind_ok. cbv beta.
  apply String.eqb_neq in H1, H2, H3, H4. rewrite H1, H2, H3, H4.
  unfold ret. rewrite bind_ok. cbv beta iota. rewrite !Nat2Z.id. reflexivity.
Qed.

(** X8.  With the mean method a block size of 0 raises
    [ZeroDivisionError] (the mask weight is [1. / block_size]) and a
    negative block size raises [ValueError] (the mask cannot be
    allocated); in both cases the threshold array has been allocated and
    no filter has been called. *)
Theorem adaptive_mean_bad_block (nd : ndimage) (img : image) (block_size : Z)
  (offset : F) (mode : string) (prm : param) :
  block_size <= 0 ->
  threshold_adaptive nd img block_size "mean" offset mode prm =
  ([EvAlloc],
   Raise (if block_size =? 0 then ZeroDivisionError
          else ValueError "negative dimensions are not allowed")).
Proof.
  intros Hb. unfold threshold_adaptive.
  rewrite np_zeros_ok by lia. rewrite bind_ok. cbv beta.
  change (String.eqb "mean" "generic") with false.
  change (String.eqb "mean" "gaussian") with false.
  change (String.eqb "mean" "mean") with true. cbv iota.
  destruct (Z.eqb_spec block_size 0) as [->|Hne].
  - reflexivity.
  - unfold np_ones. destruct (Z.ltb_spec block_size 0); [|lia].
    reflexivity.
Qed.

Variable law : offset_law.

(** The comparison [image > (thresh_image - offset)] of
    [threshold_adaptive] under two offsets, in every arithmetic with the
    offset law. *)
Lemma adaptive_classify_monotone (nd : ndimage) (img : image) (block_size : Z)
  (method : string) (o1 o2 : F) (mode : string) (prm : param) :
  Fleb o1 o2 = true ->
  same_or_subset (threshold_adaptive nd img block_size method o1 mode prm)
                 (threshold_adaptive nd img block_size method o2 mode prm).
Proof.
  intros Ho. unfold threshold_adaptive.
  apply same_or_subset_bind. intros t0.
  apply same_or_subset_bind. intros t.
  apply same_or_subset_classify; assumption.
Qed.

End Adaptive.

Lemma adaptive_unknown_method_otsu :
  threshold_adaptive (AF := b64) accepting_filters flat_tenth 4 "otsu"
    (f64 1) "reflect" PNone =
  ([EvAlloc],
   Ok (classify (AF := b64) flat_tenth
         (zeros (AF := b64) (fst (shape flat_tenth)) (snd (shape flat_tenth)))
         (f64 1))).
Proof.
  apply (adaptive_unknown_method (AF := b64) accepting_filters flat_tenth 4 "otsu"
           (f64 1) "reflect" PNone); discriminate.
Defined.

Lemma adaptive_mean_bad_block_zero :
  threshold_adaptive (AF := b64) accepting_filters one_pixel 0 "mean"
    (f64 0) "reflect" PNone =
  ([EvAlloc],
   Raise (if 0 =? 0 then ZeroDivisionError
          else ValueError "negative dimensions are not allowed")).
Proof.
  apply (adaptive_mean_bad_block (AF := b64) accepting_filters one_pixel 0
           (f64 0) "reflect" PNone).
  lia.
Defined.



(** ** The thresholds pixel by pixel *)

Lemma rectangular_as_table {A} (a : list (list A)) (c : nat) (d : A) :
  all_rows c a ->
  a = table (fun i j => nth j (nth i a []) d) (length a) c.
Proof.
  intros Ha. unfold table.
  apply (list_as_map_seq a (fun i => map (fun j => nth j (nth i a []) d) (seq 0 c)) []).
  intros i Hi.
  rewrite <- (all_rows_nth c a i Ha Hi).
  apply (list_as_map_seq (nth i a []) (fun j => nth j (nth i a []) d) d).
  intros j Hj. reflexivity.
Qed.

Section Pixelwise.

Context {F : Type} {AF : Arith F}.

Lemma classify_tables (x t : nat -> nat -> F) (h w : nat) (offset : F) :
  classify (table x h w) (table t h w) offset =
  table (fun i j => Fltb (Fsub (t i j) offset) (x i j)) h w.
Proof.
  unfold classify. rewrite arr_map_table, arr_map2_table. reflexivity.
Qed.

Lemma classify_pixel (img : image) (t : nat -> nat -> F) (offset : F) (i j : nat) :
  all_rows (snd (shape img)) img ->
  (i < fst (shape img))%nat -> (j < snd (shape img))%nat ->
  nth j (nth i (classify img (table t (fst (shape img)) (snd (shape img))) offset) [])
      false =
  Fltb (Fsub (t i j) offset) (nth j (nth i img []) (FofZ 0)).
Proof.
  intros Hrect Hi Hj.
  rewrite (rectangular_as_table img (snd (shape img)) (FofZ 0) Hrect) at 1.
  change (length img) with (fst (shape img)).
  rewrite classify_tables. rewrite nth_table by assumption. reflexivity.
Qed.

(** X10.  On a rectangular image and with a valid window, a pixel of the
    Niblack classification is foreground exactly when
    [image > (m - k*s) - offset] there, and a pixel of the Sauvola
    classification (method sauvola) exactly when
    [image > m * (1 + k*((s/r) - 1)) - offset], where [m] and [s] are the
    surfaces returned by [_mean_std]: the formulas of the docstrings. *)
Theorem niblack_sauvola_pixelwise (img : image) (w : Z) (k r offset p q : F) :
  valid_window w ->
  all_rows (snd (shape img)) img ->
  exists m s cn cs,
    _mean_std img w = (mean_std_trace, Ok (m, s)) /\
    threshold_niblack img w k offset = (mean_std_trace, Ok cn) /\
    threshold_sauvola img "sauvola" w k r offset p q =
      (EvAlloc :: mean_std_trace, Ok cs) /\
    forall i j,
      (i < fst (shape img))%nat -> (j < snd (shape img))%nat ->
      let x := nth j (nth i img []) (FofZ 0) in
      let mv := nth j (nth i m []) (FofZ 0) in
      let sv := nth j (nth i s []) (FofZ 0) in
      nth j (nth i cn []) false = Fltb (Fsub (Fsub mv (Fmul k sv)) offset) x /\
      nth j (nth i cs []) false =
        Fltb (Fsub (Fmul mv (Fadd (FofZ 1) (Fmul k (Fsub (Fdiv sv r) (FofZ 1)))))
                   offset) x.
Proof.
  intros Hw Hrect. set (n := Z.to_nat w).
  exists (local_mean img n), (local_std img n).
  eexists. eexists.
  split; [apply mean_std_ok; exact Hw|]. split; [|split].
  - unfold threshold_niblack. rewrite (mean_std_ok img w Hw).
    rewrite bind_ok. cbv beta iota. unfold ret. rewrite app_nil_r. reflexivity.
  - unfold threshold_sauvola, np_zeros_like, emit, ret.
    rewrite !bind_ok. cbv beta iota.
    rewrite (mean_std_ok img w Hw). rewrite bind_ok. cbv beta iota.
    change (String.eqb "sauvola" "sauvola") with true. cbv iota.
    rewrite app_nil_r. reflexivity.
  - intros i j Hi Hj. cbv zeta. fold n.
    rewrite (local_mean_as_table img n), (local_std_as_table img n).
    rewrite arr_map_table, !arr_map2_table.
    rewrite !classify_pixel by assumption.
    rewrite !nth_table by assumption. split; reflexivity.
Qed.

(** X11.  Method phansalkar works on the image divided by 255 throughout:
    the local statistics of the raw image are computed first and thrown
    away, [_mean_std] runs a second time on the rescaled image, [r] is
    rescaled to [r/255], and the final comparison is
    [image/255 > m * (1 + p*exp(-q*m) + k*((s/(r/255)) - 1)) - offset]
    with [m], [s] the statistics of the rescaled image. *)
Theorem phansalkar_pixelwise (img : image) (w : Z) (k r offset p q : F) :
  valid_window w ->
  all_rows (snd (shape img)) img ->
  exists m s c,
    _mean_std (arr_map (fun x => Fdiv x (FofZ 255)) img) w =
      (mean_std_trace, Ok (m, s)) /\
    threshold_sauvola img "phansalkar" w k r offset p q =
      (EvAlloc :: mean_std_trace ++ mean_std_trace, Ok c) /\
    forall i j,
      (i < fst (shape img))%nat -> (j < snd (shape img))%nat ->
      let x := Fdiv (nth j (nth i img []) (FofZ 0)) (FofZ 255) in
      let mv := nth j (nth i m []) (FofZ 0) in
      let sv := nth j (nth i s []) (FofZ 0) in
      nth j (nth i c []) false =
        Fltb (Fsub
                (Fmul mv
                   (Fadd (Fadd (FofZ 1) (Fmul p (Fexp (Fmul (Fopp q) mv))))
                         (Fmul k (Fsub (Fdiv sv (Fdiv r (FofZ 255))) (FofZ 1)))))
                offset) x.
Proof.
  intros Hw Hrect. set (n := Z.to_nat w).
  set (img' := arr_map (fun x => Fdiv x (FofZ 255)) img).
  assert (Hshape : shape img' = shape img) by apply shape_arr_map.
  assert (Hrect' : all_rows (snd (shape img')) img')
    by (rewrite Hshape; apply all_rows_arr_map; exact Hrect).
  exists (local_mean img' n), (local_std img' n).
  eexists.
  split; [apply mean_std_ok; exact Hw|]. split.
  - unfold threshold_sauvola, np_zeros_like, emit, ret.
    rewrite !bind_ok. cbv beta iota.
    rewrite (mean_std_ok img w Hw). rewrite bind_ok. cbv beta iota.
    change (String.eqb "phansalkar" "sauvola") with false.
    change (String.eqb "phansalkar" "wolf") with false.
    change (String.eqb "phansalkar" "phansalkar") with true. cbv iota.
    fold img'. rewrite (mean_std_ok img' w Hw). rewrite bind_ok. cbv beta iota.
    rewrite app_nil_r. reflexivity.
  - intros i j Hi Hj. cbv zeta. fold n.
    rewrite (local_mean_as_table img' n), (local_std_as_table img' n).
    rewrite arr_map2_table.
    rewrite <- Hshape in Hi, Hj.
    rewrite !classify_pixel by assumption.
    rewrite !nth_table by assumption.
    f_equal. unfold img', arr_map.
    rewrite Hshape in Hi, Hj.
    rewrite nth_indep with (d' := map (fun x => Fdiv x (FofZ 255)) [])
      by (rewrite length_map; exact Hi).
    rewrite (map_nth (map (fun x => Fdiv x (FofZ 255))) img [] i).
    assert (Hlen : length (nth i img []) = snd (shape img))
      by (apply all_rows_nth; assumption).
    rewrite nth_indep with (d' := Fdiv (FofZ 0) (FofZ 255))
      by (rewrite length_map, Hlen; exact Hj).
    rewrite (map_nth (fun x => Fdiv x (FofZ 255)) (nth i img []) (FofZ 0) j).
    reflexivity.
Qed.

(** C8.  On a non-empty rectangular image and with a valid odd window,
    [threshold_sauvola] with method wolf runs [_mean_std] once, reduces
    its stddev surface once to [R = s.max()] (a greatest element) and the
    image once to [M = image.min()] (a least element), and marks a pixel
    foreground exactly when
    [image > ((1-k)*m + k*M + k*(s/R)*(m - M)) - offset] there, with the
    same two scalars [R] and [M] at every pixel. *)
Theorem wolf_threshold (laws : order_laws) (img : image) (w : Z)
  (k r offset p q : F) :
  valid_window w ->
  (0 < fst (shape img))%nat ->
  (0 < snd (shape img))%nat ->
  all_rows (snd (shape img)) img ->
  exists m s R M c,
    _mean_std img w = (mean_std_trace, Ok (m, s)) /\
    amax s = Ok R /\ greatest_of R (concat s) /\
    amin img = Ok M /\ least_of M (concat img) /\
    threshold_sauvola img "wolf" w k r offset p q =
      (EvAlloc :: mean_std_trace, Ok c) /\
    forall i j,
      (i < fst (shape img))%nat -> (j < snd (shape img))%nat ->
      let x := nth j (nth i img []) (FofZ 0) in
      let mv := nth j (nth i m []) (FofZ 0) in
      let sv := nth j (nth i s []) (FofZ 0) in
      nth j (nth i c []) false =
        Fltb (Fsub
                (Fadd (Fadd (Fmul (Fsub (FofZ 1) k) mv) (Fmul k M))
                      (Fmul (Fmul k (Fdiv sv R)) (Fsub mv M)))
                offset) x.
Proof.
  intros Hw Hh Hc Hrect. set (n := Z.to_nat w).
  destruct (wolf_surfaces laws img w k r offset p q Hw Hh Hc)
    as (R & M & HR & HRmax & HM & HMmin & Ht).
  fold n in HR, HRmax, Ht.
  exists (local_mean img n), (local_std img n), R, M.
  eexists.
  split; [apply mean_std_ok; exact Hw|].
  split; [exact HR|]. split; [exact HRmax|].
  split; [exact HM|]. split; [exact HMmin|].
  split; [exact Ht|].
  intros i j Hi Hj. cbv zeta.
  rewrite (local_mean_as_table img n), (local_std_as_table img n).
  rewrite arr_map2_table.
  rewrite classify_pixel by assumption.
  rewrite !nth_table by assumption. reflexivity.
Qed.

End Pixelwise.

Lemma niblack_sauvola_pixelwise_flat_tenth :
  exists m s cn cs,
    _mean_std (AF := b64) flat_tenth 3 = (mean_std_trace, Ok (m, s)) /\
    threshold_niblack (AF := b64) flat_tenth 3 (f64 1) (f64 0) = (mean_std_trace, Ok cn) /\
    threshold_sauvola (AF := b64) flat_tenth "sauvola" 3
      (f64 1) (f64 128) (f64 0) (f64 2) (f64 10) =
      (EvAlloc :: mean_std_trace, Ok cs) /\
    forall i j,
      (i < fst (shape flat_tenth))%nat -> (j < snd (shape flat_tenth))%nat ->
      let x := nth j (nth i flat_tenth []) (FofZ (Arith := b64) 0) in
      let mv := nth j (nth i m []) (FofZ (Arith := b64) 0) in
      let sv := nth j (nth i s []) (FofZ (Arith := b64) 0) in
      nth j (nth i cn []) false =
        Fltb (Arith := b64)
          (Fsub (Arith := b64) (Fsub (Arith := b64) mv (Fmul (Arith := b64) (f64 1) sv))
             (f64 0)) x /\
      nth j (nth i cs []) false =
        Fltb (Arith := b64)
          (Fsub (Arith := b64)
             (Fmul (Arith := b64) mv
                (Fadd (Arith := b64) (FofZ (Arith := b64) 1)
                   (Fmul (Arith := b64) (f64 1)
                      (Fsub (Arith := b64) (Fdiv (Arith := b64) sv (f64 128))
                         (FofZ (Arith := b64) 1)))))
             (f64 0)) x.
Proof.
  apply (niblack_sauvola_pixelwise (AF := b64) flat_tenth 3
           (f64 1) (f64 128) (f64 0) (f64 2) (f64 10)).
  - split; [lia|reflexivity].
  - repeat constructor.
Defined.

Lemma phansalkar_pixelwise_ramp :
  exists m s c,
    _mean_std
      (arr_map (fun x => Fdiv x (FofZ 255))
         (real_image (fun y x => INR (3 * y + x)) 3 3)) 3 =
      (mean_std_trace, Ok (m, s)) /\
    threshold_sauvola (real_image (fun y x => INR (3 * y + x)) 3 3) "phansalkar" 3
      (Exact.Fin (1/4)) (Exact.Fin (1/2)) (Exact.Fin 0) (Exact.Fin 2) (Exact.Fin 10) =
      (EvAlloc :: mean_std_trace ++ mean_std_trace, Ok c) /\
    forall i j,
      (i < fst (shape (real_image (fun y x => INR (3 * y + x)) 3 3)))%nat ->
      (j < snd (shape (real_image (fun y x => INR (3 * y + x)) 3 3)))%nat ->
      let x := Fdiv (nth j (nth i (real_image (fun y x => INR (3 * y + x)) 3 3) [])
                       (FofZ 0)) (FofZ 255) in
      let mv := nth j (nth i m []) (FofZ 0) in
      let sv := nth j (nth i s []) (FofZ 0) in
      nth j (nth i c []) false =
        Fltb (Fsub
                (Fmul mv
                   (Fadd (Fadd (FofZ 1)
                            (Fmul (Exact.Fin 2) (Fexp (Fmul (Fopp (Exact.Fin 10)) mv))))
                         (Fmul (Exact.Fin (1/4))
                            (Fsub (Fdiv sv (Fdiv (Exact.Fin (1/2)) (FofZ 255)))
                                  (FofZ 1)))))
                (Exact.Fin 0)) x.
Proof.
  apply (phansalkar_pixelwise (real_image (fun y x => INR (3 * y + x)) 3 3) 3
           (Exact.Fin (1/4)) (Exact.Fin (1/2)) (Exact.Fin 0) (Exact.Fin 2) (Exact.Fin 10)).
  - split; [lia|reflexivity].
  - apply table_all_rows.
Defined.

Lemma wolf_threshold_gradient :
  exists m s R M c,
    _mean_std (AF := b64) gradient 3 = (mean_std_trace, Ok (m, s)) /\
    amax (AF := b64) s = Ok R /\ greatest_of (AF := b64) R (concat s) /\
    amin (AF := b64) gradient = Ok M /\ least_of (AF := b64) M (concat gradient) /\
    threshold_sauvola (AF := b64) gradient "wolf" 3
      half (f64 128) (f64 0) (f64 2) (f64 10) =
      (EvAlloc :: mean_std_trace, Ok c) /\
    forall i j,
      (i < fst (shape gradient))%nat -> (j < snd (shape gradient))%nat ->
      let x := nth j (nth i gradient []) (FofZ (Arith := b64) 0) in
      let mv := nth j (nth i m []) (FofZ (Arith := b64) 0) in
      let sv := nth j (nth i s []) (FofZ (Arith := b64) 0) in
      nth j (nth i c []) false =
        Fltb (Arith := b64)
          (Fsub (Arith := b64)
             (Fadd (Arith := b64)
                (Fadd (Arith := b64)
                   (Fmul (Arith := b64)
                      (Fsub (Arith := b64) (FofZ (Arith := b64) 1) half) mv)
                   (Fmul (Arith := b64) half M))
                (Fmul (Arith := b64)
                   (Fmul (Arith := b64) half (Fdiv (Arith := b64) sv R))
                   (Fsub (Arith := b64) mv M)))
             (f64 0)) x.
Proof.
  apply (wolf_threshold (AF := b64)
           (binary_order_laws 53 1024 Binary.libm_nan Binary.libm_nan)
           gradient 3 half (f64 128) (f64 0) (f64 2) (f64 10)).
  - split; [lia|reflexivity].
  - simpl. lia.
  - simpl. lia.
  - repeat constructor.
Defined.

(** The wolf classification of the 3 x 3 gradient, evaluated in binary64
    ([k = 0.5], [offset = 0]). *)
Lemma wolf_gradient_evaluated :
  result (threshold_sauvola (AF := b64) gradient "wolf" 3
            half (f64 128) (f64 0) (f64 2) (f64 10)) =
  Ok [[false; false; false]; [false; false; true]; [true; true; true]].
Proof. vm_compute. reflexivity. Qed.

(** ** The integral-image statistics against the brute-force window *)

Section RealSums.

Local Open Scope R_scope.

Lemma sum_upto_shift (f : nat -> R) (n : nat) :
  sum_upto f (S n) = f O + sum_upto (fun k => f (S k)) n.
Proof.
  induction n as [|n IH]; [simpl; ring|].
  change (sum_upto f (S (S n))) with (sum_upto f (S n) + f (S n)).
  rewrite IH. simpl. ring.
Qed.

Lemma sum_upto_minus (f g : nat -> R) (n : nat) :
  sum_upto (fun k => f k - g k) n = sum_upto f n - sum_upto g n.
Proof. induction n as [|n IH]; simpl; [ring|]. rewrite IH. ring. Qed.

Lemma lsum_app (f : nat -> R) (l l' : list nat) :
  lsum f (l ++ l') = lsum f l + lsum f l'.
Proof. induction l as [|x t IH]; simpl; [ring|]. rewrite IH. ring. Qed.

Lemma lsum_ext (f g : nat -> R) (l : list nat) :
  (forall x, In x l -> f x = g x) -> lsum f l = lsum g l.
Proof.
  induction l as [|x t IH]; intros H; simpl; [reflexivity|].
  rewrite (H x) by (left; reflexivity). rewrite IH; [reflexivity|].
  intros y Hy. apply H. right. exact Hy.
Qed.

Lemma lsum_nonneg (f : nat -> R) (l : list nat) :
  (forall x, 0 <= f x) -> 0 <= lsum f l.
Proof.
  intros H. induction l as [|x t IH]; simpl; [lra|]. specialize (H x). lra.
Qed.

Lemma lsum_deviation (f : nat -> R) (mu : R) (l : list nat) :
  lsum (fun x => (f x - mu) * (f x - mu)) l =
  lsum (fun x => f x * f x) l - 2 * mu * lsum f l + mu * mu * INR (length l).
Proof.
  induction l as [|x t IH]; [simpl; ring|].
  cbn [lsum length]. rewrite IH, S_INR. ring.
Qed.

Lemma lsum2_deviation (r : nat -> nat -> R) (mu : R) (ly lx : list nat) :
  lsum (fun y => lsum (fun x => (r y x - mu) * (r y x - mu)) lx) ly =
  lsum (fun y => lsum (fun x => r y x * r y x) lx) ly
  - 2 * mu * lsum (fun y => lsum (fun x => r y x) lx) ly
  + mu * mu * INR (length ly * length lx).
Proof.
  induction ly as [|y t IH]; [simpl; ring|].
  cbn [lsum length]. rewrite IH, lsum_deviation.
  change (lsum (fun x : nat => r y x) lx) with (lsum (r y) lx).
  rewrite !mult_INR, S_INR. ring.
Qed.

(** Summing over the clipped window is a difference of two prefix sums. *)
Lemma lsum_clip_prefix (f : nat -> R) (lo : Z) (len n : nat) :
  lsum f (clip lo len n) =
  sum_upto f (Z.to_nat (Z.max (Z.max 0 lo) (Z.min (Z.of_nat len) (lo + Z.of_nat n))))
  - sum_upto f (Z.to_nat (Z.max 0 lo)).
Proof.
  induction n as [|n IH].
  - unfold clip. simpl.
    replace (Z.max (Z.max 0 lo) (Z.min (Z.of_nat len) (lo + 0)))
      with (Z.max 0 lo) by lia.
    ring.
  - unfold clip in *. rewrite seq_S, filter_app, map_app, lsum_app, IH.
    cbn [seq filter]. unfold inside. cbn [Nat.add].
    destruct (Z.leb_spec 0 (lo + Z.of_nat n));
      destruct (Z.ltb_spec (lo + Z.of_nat n) (Z.of_nat len)); cbn [andb map lsum].
    + replace (Z.to_nat (Z.max (Z.max 0 lo) (Z.min (Z.of_nat len) (lo + Z.of_nat (S n)))))
        with (S (Z.to_nat (lo + Z.of_nat n))) by lia.
      replace (Z.to_nat (Z.max (Z.max 0 lo) (Z.min (Z.of_nat len) (lo + Z.of_nat n))))
        with (Z.to_nat (lo + Z.of_nat n)) by lia.
      simpl sum_upto. ring.
    + replace (Z.max (Z.max 0 lo) (Z.min (Z.of_nat len) (lo + Z.of_nat (S n))))
        with (Z.max (Z.max 0 lo) (Z.min (Z.of_nat len) (lo + Z.of_nat n))) by lia.
      ring.
    + replace (Z.max (Z.max 0 lo) (Z.min (Z.of_nat len) (lo + Z.of_nat (S n))))
        with (Z.max (Z.max 0 lo) (Z.min (Z.of_nat len) (lo + Z.of_nat n))) by lia.
      ring.
    + replace (Z.max (Z.max 0 lo) (Z.min (Z.of_nat len) (lo + Z.of_nat (S n))))
        with (Z.max (Z.max 0 lo) (Z.min (Z.of_nat len) (lo + Z.of_nat n))) by lia.
      ring.
Qed.

Lemma clip_length (lo : Z) (len n : nat) :
  length (clip lo len n) = covered lo len n.
Proof. unfold clip, covered. apply length_map. Qed.

End RealSums.

Lemma table_succ {A} (f : nat -> nat -> A) (m w : nat) :
  table f (S m) w = map (f O) (seq 0 w) :: table (fun y => f (S y)) m w.
Proof.
  unfold table. cbn [seq map]. f_equal.
  rewrite <- seq_shift, map_map. reflexivity.
Qed.

Lemma stack_row {A} (z : A) (g : nat -> nat -> A) (n w : nat) :
  repeat z w :: table g n w =
  table (fun y x => match y with O => z | S y' => g y' x end) (S n) w.
Proof. rewrite table_succ, repeat_as_map. reflexivity. Qed.

Lemma stack_column {A} (z : A) (g : nat -> nat -> A) (n w : nat) :
  map2 (@app A) (repeat [z] n) (table g n w) =
  table (fun y x => match x with O => z | S x' => g y x' end) n (S w).
Proof.
  rewrite repeat_as_map. unfold table. rewrite map2_on_maps.
  apply map_ext. intros y. cbn [app seq map]. f_equal.
  rewrite <- seq_shift, map_map. reflexivity.
Qed.

Section RealIntegral.

Import Exact.

Lemma sum_upto_zero (n : nat) : sum_upto (fun _ => 0%R) n = 0%R.
Proof. induction n as [|n IH]; simpl; [reflexivity|]. rewrite IH. ring. Qed.

Lemma cumsum_from_real (f : nat -> R) (m : nat) (a : R) :
  cumsum_from (Fin a) (map (fun x => Fin (f x)) (seq 0 m)) =
  map (fun x => Fin (a + sum_upto f (S x))) (seq 0 m).
Proof.
  revert f a. induction m as [|m IH]; intros f a; [reflexivity|].
  cbn [seq map cumsum_from]. rewrite <- seq_shift, !map_map.
  cbn [Fadd Exact.arith xadd].
  rewrite (IH (fun x => f (S x)) (a + f O)%R). f_equal.
  - f_equal. simpl. ring.
  - apply map_ext. intros x. f_equal. rewrite (sum_upto_shift f (S x)). ring.
Qed.

Lemma cumsum_real (f : nat -> R) (m : nat) :
  cumsum (map (fun x => Fin (f x)) (seq 0 m)) =
  map (fun x => Fin (sum_upto f (S x))) (seq 0 m).
Proof.
  destruct m as [|m]; [reflexivity|].
  cbn [seq map cumsum]. rewrite <- seq_shift, !map_map.
  rewrite (cumsum_from_real (fun x => f (S x)) m (f O)). f_equal.
  - f_equal. simpl. ring.
  - apply map_ext. intros x. f_equal. rewrite (sum_upto_shift f (S x)). ring.
Qed.

Lemma cumsum_axis0_from_real (g : nat -> nat -> R) (m w : nat) (a : nat -> R) :
  cumsum_axis0_from (map (fun x => Fin (a x)) (seq 0 w))
    (table (fun y x => Fin (g y x)) m w) =
  table (fun y x => Fin (a x + sum_upto (fun y' => g y' x) (S y))) m w.
Proof.
  revert g a. induction m as [|m IH]; intros g a; [reflexivity|].
  rewrite !table_succ. cbn [cumsum_axis0_from]. rewrite map2_on_maps.
  cbn [Fadd Exact.arith xadd].
  rewrite (IH (fun y => g (S y)) (fun x => (a x + g O x)%R)). f_equal.
  - apply map_ext. intros x. f_equal. simpl. ring.
  - apply table_ext. intros y x _ _. f_equal.
    rewrite (sum_upto_shift (fun y' => g y' x) (S y)). ring.
Qed.

Variables (r : nat -> nat -> R) (H W : nat).

Hypothesis rows_positive : (0 < H)%nat.

Hypothesis cols_positive : (0 < W)%nat.

Lemma shape_real_image : shape (real_image r H W) = (H, W).
Proof.
  unfold real_image. destruct H as [|h]; [lia|]. apply shape_table.
Qed.

Lemma integral_real_image :
  integral_values (real_image r H W) =
  table (fun y x => Fin (sum_upto (fun y' => sum_upto (r y') (S x)) (S y))) H W.
Proof.
  unfold integral_values, cumsum_axis1, real_image, table.
  rewrite map_map.
  rewrite (map_ext _ (fun y => map (fun x => Fin (sum_upto (r y) (S x))) (seq 0 W)))
    by (intros y; apply cumsum_real).
  destruct H as [|h]; [lia|].
  change (map (fun y => map (fun x => Fin (sum_upto (r y) (S x))) (seq 0 W)) (seq 0 (S h)))
    with (table (fun y x => Fin (sum_upto (r y) (S x))) (S h) W).
  rewrite table_succ. cbn [cumsum_axis0].
  rewrite (cumsum_axis0_from_real (fun y x => sum_upto (r (S y)) (S x)) h W
             (fun x => sum_upto (r O) (S x))).
  change (map (fun i => map (fun j => Fin (sum_upto (fun y' => sum_upto (r y') (S j)) (S i)))
                          (seq 0 W)) (seq 0 (S h)))
    with (table (fun y x => Fin (sum_upto (fun y' => sum_upto (r y') (S x)) (S y))) (S h) W).
  rewrite table_succ. f_equal.
  - apply map_ext. intros x. f_equal. simpl. ring.
  - apply table_ext. intros y x _ _. f_equal.
    rewrite (sum_upto_shift (fun y' => sum_upto (r y') (S x)) (S y)). reflexivity.
Qed.

Lemma padded_integral_real_image :
  padded_integral (real_image r H W) =
  table (fun a b => Fin (sum_upto (fun y => sum_upto (r y) b) a)) (S H) (S W).
Proof.
  unfold padded_integral. rewrite integral_real_image.
  destruct H as [|h]; [lia|]. rewrite shape_table. cbn [fst snd].
  unfold vstack, hstack, zeros. cbn [repeat app].
  unfold shape. cbn [length fst]. rewrite table_rows.
  change (@FofZ xreal Exact.arith 0) with (Fin 0).
  rewrite stack_row, stack_column. apply table_ext. intros a b _ _.
  destruct b as [|b]; [simpl; rewrite sum_upto_zero; reflexivity|].
  destruct a as [|a]; reflexivity.
Qed.

End RealIntegral.

(** ** The integral-image statistics against the window sums *)

Section RealWindow.

Import Exact.

Local Open Scope R_scope.

Variables (r : nat -> nat -> R) (H W : nat).

Hypothesis rows_positive : (0 < H)%nat.

Hypothesis cols_positive : (0 < W)%nat.

Lemma sample_constant_real (ly lx : Z) (p q : nat) :
  sample Constant (real_image r H W) (ly + Z.of_nat p) (lx + Z.of_nat q) =
  if inside ly H p && inside lx W q
  then Fin (r (Z.to_nat (ly + Z.of_nat p)) (Z.to_nat (lx + Z.of_nat q)))
  else Fin 0.
Proof.
  unfold sample. rewrite (shape_real_image r H W rows_positive cols_positive). unfold inside.
  rewrite <- !andb_assoc.
  destruct (Z.leb_spec 0 (ly + Z.of_nat p)); [|reflexivity].
  destruct (Z.ltb_spec (ly + Z.of_nat p) (Z.of_nat H)); [|reflexivity].
  destruct (Z.leb_spec 0 (lx + Z.of_nat q)); [|reflexivity].
  destruct (Z.ltb_spec (lx + Z.of_nat q) (Z.of_nat W)); [|reflexivity].
  cbn [andb]. unfold real_image. apply nth_table; lia.
Qed.

Lemma fold_window_inner (b : bool) (bx : nat -> bool) (cx : nat -> nat)
  (v : nat -> R) (sq : list nat) (a : R) :
  fold_left
    (fun acc q => xadd acc (xmul (Fin 1) (if b && bx q then Fin (v (cx q)) else Fin 0)))
    sq (Fin a) =
  Fin (a + (if b then lsum v (map cx (filter bx sq)) else 0)).
Proof.
  revert a. induction sq as [|q sq IH]; intros a.
  - simpl. f_equal. destruct b; simpl; ring.
  - cbn [fold_left filter].
    destruct b; destruct (bx q); cbn [andb xmul xadd]; rewrite IH; f_equal;
      cbn [map lsum]; ring.
Qed.

Lemma fold_window (by_ bx : nat -> bool) (cy cx : nat -> nat)
  (v : nat -> nat -> R) (sp sq : list nat) (a : R) :
  fold_left
    (fun acc p =>
       fold_left
         (fun acc q =>
            xadd acc (xmul (Fin 1)
              (if by_ p && bx q then Fin (v (cy p) (cx q)) else Fin 0)))
         sq acc)
    sp (Fin a) =
  Fin (a + lsum (fun y => lsum (fun x => v y x) (map cx (filter bx sq)))
                (map cy (filter by_ sp))).
Proof.
  revert a. induction sp as [|p sp IH]; intros a.
  - simpl. f_equal. ring.
  - cbn [fold_left filter].
    rewrite (fold_window_inner (by_ p) bx cx (v (cy p)) sq a), IH. f_equal.
    destruct (by_ p); cbn [map lsum];
      change (fun x : nat => v (cy p) x) with (v (cy p)); ring.
Qed.

(** The box filter with zero padding sums the pixels of the window that
    lie inside the image. *)
Lemma box_sum_real (h i j : nat) :
  correlate_at Constant (real_image r H W) (mirrored (ones (S (2 * h)) (S (2 * h)))) i j =
  Fin (window_sum (fun v => v) r H W h i j).
Proof.
  set (n := S (2 * h)).
  rewrite mirrored_ones. unfold correlate_at.
  replace (shape (ones n n)) with (n, n) by (symmetry; apply shape_ones).
  destruct (odd_window_origin h) as [Ho _]. fold n in Ho. rewrite Ho.
  change (@FofZ xreal Exact.arith 0) with (Fin 0).
  rewrite (fold_left_ext_in _
    (fun acc p =>
       fold_left
         (fun acc q =>
            xadd acc (xmul (Fin 1)
              (if inside (Z.of_nat i - Z.of_nat h) H p
                  && inside (Z.of_nat j - Z.of_nat h) W q
               then Fin (r (Z.to_nat (Z.of_nat i - Z.of_nat h + Z.of_nat p))
                           (Z.to_nat (Z.of_nat j - Z.of_nat h + Z.of_nat q)))
               else Fin 0)))
         (seq 0 n) acc)).
  - rewrite (fold_window (inside (Z.of_nat i - Z.of_nat h) H)
               (inside (Z.of_nat j - Z.of_nat h) W)
               (fun p => Z.to_nat (Z.of_nat i - Z.of_nat h + Z.of_nat p))
               (fun q => Z.to_nat (Z.of_nat j - Z.of_nat h + Z.of_nat q))
               r (seq 0 n) (seq 0 n) 0).
    unfold window_sum, window_rows, window_cols, clip. fold n. f_equal. ring.
  - intros acc p Hp. apply in_seq in Hp.
    apply fold_left_ext_in. intros acc' q Hq. apply in_seq in Hq.
    unfold ones. rewrite nth_repeat_lt by lia. rewrite nth_repeat_lt by lia.
    change (@FofZ xreal Exact.arith 1) with (Fin 1).
    replace (Feqb (Fin 1) (Fin 0)) with false
      by (cbn; unfold Reqb; destruct (Req_dec_T 1 0); [lra|reflexivity]).
    replace (Z.of_nat i + Z.of_nat p - Z.of_nat h)%Z
      with (Z.of_nat i - Z.of_nat h + Z.of_nat p)%Z by lia.
    replace (Z.of_nat j + Z.of_nat q - Z.of_nat h)%Z
      with (Z.of_nat j - Z.of_nat h + Z.of_nat q)%Z by lia.
    rewrite sample_constant_real. reflexivity.
Qed.

(** The window sum as four look-ups into the table of prefix sums. *)
Lemma window_sum_corners (h i j : nat) :
  (i < H)%nat -> (j < W)%nat ->
  let P := fun a b => sum_upto (fun y => sum_upto (r y) b) a in
  let y0 := clamp_index (Z.of_nat i + Z.of_nat 0 - Z.of_nat h) (S H) in
  let y1 := clamp_index (Z.of_nat i + Z.of_nat (S (2 * h)) - Z.of_nat h) (S H) in
  let x0 := clamp_index (Z.of_nat j + Z.of_nat 0 - Z.of_nat h) (S W) in
  let x1 := clamp_index (Z.of_nat j + Z.of_nat (S (2 * h)) - Z.of_nat h) (S W) in
  window_sum (fun v => v) r H W h i j = P y1 x1 - P y1 x0 - P y0 x1 + P y0 x0.
Proof.
  intros Hi Hj P y0 y1 x0 x1.
  unfold window_sum, window_rows, window_cols.
  rewrite (lsum_ext _ (fun y => sum_upto (r y) x1 - sum_upto (r y) x0)).
  2:{ intros y _. rewrite (lsum_clip_prefix (fun x => r y x)).
      f_equal; f_equal; unfold x0, x1, clamp_index; lia. }
  rewrite lsum_clip_prefix.
  replace (Z.to_nat (Z.max (Z.max 0 (Z.of_nat i - Z.of_nat h))
             (Z.min (Z.of_nat H) (Z.of_nat i - Z.of_nat h + Z.of_nat (S (2 * h))))))
    with y1 by (unfold y1, clamp_index; lia).
  replace (Z.to_nat (Z.max 0 (Z.of_nat i - Z.of_nat h)))
    with y0 by (unfold y0, clamp_index; lia).
  rewrite !sum_upto_minus. unfold P. ring.
Qed.

(** The four corner look-ups into the padded integral image give the sum of
    the pixels of the window that lie inside the image. *)
Lemma corner_sum_real (h i j : nat) :
  (i < H)%nat -> (j < W)%nat ->
  sum_at (real_image r H W) (S (2 * h)) i j =
  Fin (window_sum (fun v => v) r H W h i j).
Proof.
  intros Hi Hj. rewrite (window_sum_corners h i j Hi Hj). cbv zeta.
  set (n := S (2 * h)).
  assert (Hn : (1 <= n)%nat) by (unfold n; lia).
  unfold sum_at. rewrite (padded_integral_real_image r H W rows_positive cols_positive).
  unfold correlate_at. rewrite shape_mirrored_corner.
  destruct (odd_window_origin h) as [_ Ho]. fold n in Ho. rewrite Ho.
  change (@FofZ xreal Exact.arith 0) with (Fin 0).
  destruct (corner_weight_ends n Hn) as (W00 & W0n & Wn0 & Wnn).
  assert (Hzero : Feqb (Fin 0) (Fin 0) = true)
    by (cbn; unfold Reqb; destruct (Req_dec_T 0 0); [reflexivity|lra]).
  assert (Hone : Feqb (Fin 1) (Fin 0) = false)
    by (cbn; unfold Reqb; destruct (Req_dec_T 1 0); [lra|reflexivity]).
  assert (Hmone : Feqb (Fin (-1)) (Fin 0) = false)
    by (cbn; unfold Reqb; destruct (Req_dec_T (-1) 0); [lra|reflexivity]).
  assert (Hw : forall p q, (p <= n)%nat -> (q <= n)%nat ->
            nth q (nth p (mirrored (corner_kernel n)) []) (Fin 0) =
            Fin (IZR (corner_weight n p q))).
  { intros p q Hp Hq.
    exact (mirrored_corner_entry (AF := Exact.arith) n p q Hn Hp Hq). }
  rewrite fold_left_two_ends; [|exact Hn|].
  2:{ intros acc p Hp. apply fold_left_idle. intros acc' q Hq.
      apply in_seq in Hq. rewrite Hw by lia.
      rewrite corner_weight_inner_row by lia. cbv zeta. rewrite Hzero.
      reflexivity. }
  rewrite !fold_left_two_ends; try exact Hn.
  2,3: intros acc q Hq; rewrite Hw by lia;
       rewrite corner_weight_inner_column by lia; cbv zeta; rewrite Hzero;
       reflexivity.
  rewrite !Hw by lia. rewrite W00, W0n, Wn0, Wnn. cbv zeta.
  rewrite Hone, Hmone.
  rewrite !sample_nearest_table.
  cbn [Fadd Fmul Exact.arith xadd xmul]. f_equal. ring.
Qed.

End RealWindow.

Section RealStatistics.

Import Exact.

Local Open Scope R_scope.

Variables (r : nat -> nat -> R) (H W : nat).

Hypothesis rows_positive : (0 < H)%nat.

Hypothesis cols_positive : (0 < W)%nat.

Lemma count_at_real (h i j : nat) :
  count_at (real_image r H W) (S (2 * h)) i j = Fin (INR (window_size H W h i j)).
Proof.
  unfold count_at. rewrite (shape_real_image r H W rows_positive cols_positive).
  cbn [fst snd]. change (ones H W) with (flat 1 H W).
  rewrite box_sum_flat by assumption.
  unfold window_size, window_rows, window_cols.
  rewrite !clip_length, mult_INR. f_equal. ring.
Qed.

Lemma sumsq_at_real (h i j : nat) :
  sumsq_at (real_image r H W) (S (2 * h)) i j =
  Fin (window_sum (fun v => v * v) r H W h i j).
Proof.
  unfold sumsq_at, real_image. rewrite arr_map_table.
  change (table (fun y x => Fsq (Fin (r y x))) H W)
    with (real_image (fun y x => r y x * r y x) H W).
  rewrite (box_sum_real (fun y x => r y x * r y x) H W rows_positive cols_positive).
  reflexivity.
Qed.

Lemma window_size_positive (h i j : nat) :
  (i < H)%nat -> (j < W)%nat -> (0 < window_size H W h i j)%nat.
Proof.
  intros Hi Hj. unfold window_size, window_rows, window_cols.
  rewrite !clip_length.
  destruct (covered_as_clamped i h H Hi) as [Hy Ey].
  destruct (covered_as_clamped j h W Hj) as [Hx Ex].
  rewrite Ey, Ex. apply Nat.mul_pos_pos; lia.
Qed.

(** The mean of the squared deviations is the mean of the squares less the
    square of the mean. *)
Lemma window_variance_moments (h i j : nat) :
  (i < H)%nat -> (j < W)%nat ->
  window_variance r H W h i j =
  (window_sum (fun v => v * v) r H W h i j
   + - (INR (window_size H W h i j)
        * (window_mean r H W h i j * window_mean r H W h i j)))
  / INR (window_size H W h i j).
Proof.
  intros Hi Hj.
  pose proof (window_size_positive h i j Hi Hj) as Hp. apply lt_0_INR in Hp.
  unfold window_variance.
  set (mu := window_mean r H W h i j).
  assert (Hmu : window_sum (fun v => v) r H W h i j
                = mu * INR (window_size H W h i j)).
  { unfold mu, window_mean. field. lra. }
  unfold window_sum at 1.
  rewrite (lsum2_deviation r mu (window_rows H h i) (window_cols W h j)).
  fold (window_sum (fun v => v * v) r H W h i j).
  fold (window_sum (fun v => v) r H W h i j).
  fold (window_size H W h i j). rewrite Hmu. field. lra.
Qed.

Lemma window_variance_nonneg (h i j : nat) :
  (i < H)%nat -> (j < W)%nat -> 0 <= window_variance r H W h i j.
Proof.
  intros Hi Hj.
  pose proof (window_size_positive h i j Hi Hj) as Hp. apply lt_0_INR in Hp.
  unfold window_variance, window_sum.
  apply Rmult_le_pos; [|left; apply Rinv_0_lt_compat; exact Hp].
  apply lsum_nonneg. intros y. apply lsum_nonneg. intros x. cbv beta.
  match goal with |- 0 <= ?d * ?d => exact (Rle_0_sqr d) end.
Qed.

Lemma real_pixel (h i j : nat) :
  (i < H)%nat -> (j < W)%nat ->
  mean_at (real_image r H W) (S (2 * h)) i j = Fin (window_mean r H W h i j) /\
  Fsqrt (variance_at (real_image r H W) (S (2 * h)) i j) =
  Fin (sqrt (window_variance r H W h i j)).
Proof.
  intros Hi Hj.
  pose proof (window_size_positive h i j Hi Hj) as Hp. apply lt_0_INR in Hp.
  assert (Pn : INR (window_size H W h i j) <> 0) by lra.
  assert (Hm : mean_at (real_image r H W) (S (2 * h)) i j
               = Fin (window_mean r H W h i j)).
  { unfold mean_at.
    rewrite (corner_sum_real r H W rows_positive cols_positive h i j Hi Hj).
    rewrite count_at_real. cbn [Fdiv Exact.arith].
    rewrite xdiv_fin by exact Pn. reflexivity. }
  split; [exact Hm|].
  unfold variance_at. rewrite Hm, sumsq_at_real, count_at_real.
  cbn [Fdiv Fsub Fmul Fsq Fsqrt Exact.arith xsub xmul xadd xopp].
  rewrite xdiv_fin by exact Pn.
  rewrite <- (window_variance_moments h i j Hi Hj).
  pose proof (window_variance_nonneg h i j Hi Hj) as Hv.
  unfold xsqrt, Rltb.
  destruct (Rlt_dec (window_variance r H W h i j) 0); [lra|reflexivity].
Qed.

Lemma odd_window_half_value (w : Z) :
  valid_window w -> Z.to_nat w = S (2 * Z.to_nat (w / 2)).
Proof.
  intros [Hge Hodd].
  pose proof (Z.div_mod w 2 ltac:(lia)) as Hd. rewrite Hodd in Hd. lia.
Qed.

Lemma mean_std_real_image (w : Z) :
  valid_window w ->
  _mean_std (real_image r H W) w =
  (mean_std_trace,
   Ok (real_image (window_mean r H W (Z.to_nat (w / 2))) H W,
       real_image (fun i j => sqrt (window_variance r H W (Z.to_nat (w / 2)) i j)) H W)).
Proof.
  intros Hw. rewrite (mean_std_ok (real_image r H W) w Hw).
  rewrite (odd_window_half_value w Hw). set (h := Z.to_nat (w / 2)).
  assert (Hs : (0 < fst (shape (real_image r H W)))%nat)
    by (rewrite (shape_real_image r H W rows_positive cols_positive); exact rows_positive).
  rewrite (local_mean_table (real_image r H W) (S (2 * h)) Hs).
  rewrite (local_std_table (real_image r H W) (S (2 * h)) Hs).
  rewrite (shape_real_image r H W rows_positive cols_positive). cbn [fst snd].
  unfold real_image at 3 4. do 2 f_equal. f_equal.
  - apply table_ext. intros i j Hi Hj. apply real_pixel; assumption.
  - apply table_ext. intros i j Hi Hj. apply real_pixel; assumption.
Qed.

End RealStatistics.

(** X12.  In rounding-free arithmetic the integral-image computation of
    [_mean_std] is exact at every pixel, border pixels included: for an
    image of real samples with at least one row and one column and a valid
    window [w], the mean surface holds the average of the pixels of the
    [w x w] window that lie inside the image (the window is cut at the
    borders, and the divisor is the number of pixels left), and the stddev
    surface holds the square root of the mean squared deviation from that
    average over the same pixels. *)
Theorem mean_std_window_statistics (r : nat -> nat -> R) (H W : nat) (w : Z) :
  (0 < H)%nat -> (0 < W)%nat -> valid_window w ->
  _mean_std (real_image r H W) w =
  (mean_std_trace,
   Ok (real_image (window_mean r H W (Z.to_nat (w / 2))) H W,
       real_image (fun i j => sqrt (window_variance r H W (Z.to_nat (w / 2)) i j)) H W)).
Proof.
  intros HH HW Hw. exact (mean_std_real_image r H W HH HW w Hw).
Qed.

Lemma mean_std_window_statistics_ramp :
  _mean_std (real_image (fun y x => INR (3 * y + x)) 3 3) 3 =
  (mean_std_trace,
   Ok (real_image (window_mean (fun y x => INR (3 * y + x)) 3 3 (Z.to_nat (3 / 2))) 3 3,
       real_image
         (fun i j => sqrt (window_variance (fun y x => INR (3 * y + x)) 3 3
                             (Z.to_nat (3 / 2)) i j)) 3 3)).
Proof.
  apply (mean_std_window_statistics (fun y x => INR (3 * y + x)) 3 3 3).
  - lia.
  - lia.
  - split; [lia|reflexivity].
Defined.

(** X13.  In rounding-free arithmetic the stddev surface of [_mean_std]
    is a non-negative real number at every pixel, never NaN: the local
    variance [g2 - m*m] it takes the root of is the mean squared deviation
    of the window and cannot be negative.  (With floating-point rounding
    it can, which is where the NaN of a constant image comes from.) *)
Theorem stddev_exact_nonnegative (r : nat -> nat -> R) (H W : nat) (w : Z) :
  (0 < H)%nat -> (0 < W)%nat -> valid_window w ->
  exists m s,
    _mean_std (real_image r H W) w = (mean_std_trace, Ok (m, s)) /\
    forall i j, (i < H)%nat -> (j < W)%nat ->
      exists v, nth j (nth i s []) Exact.NaN = Exact.Fin v /\
                (0 <= v)%R /\
                (v * v)%R = window_variance r H W (Z.to_nat (w / 2)) i j.
Proof.
  intros HH HW Hw. eexists. eexists.
  split; [exact (mean_std_real_image r H W HH HW w Hw)|].
  intros i j Hi Hj. eexists. split.
  - unfold real_image. rewrite nth_table by assumption. reflexivity.
  - cbv beta. split; [apply sqrt_pos|].
    apply sqrt_sqrt. apply window_variance_nonneg; assumption.
Qed.

Lemma stddev_exact_nonnegative_ramp :
  exists m s,
    _mean_std (real_image (fun y x => INR (3 * y + x)) 3 3) 3 =
      (mean_std_trace, Ok (m, s)) /\
    forall i j, (i < 3)%nat -> (j < 3)%nat ->
      exists v, nth j (nth i s []) Exact.NaN = Exact.Fin v /\
                (0 <= v)%R /\
                (v * v)%R =
                window_variance (fun y x => INR (3 * y + x)) 3 3 (Z.to_nat (3 / 2)) i j.
Proof.
  apply (stddev_exact_nonnegative (fun y x => INR (3 * y + x)) 3 3 3).
  - lia.
  - lia.
  - split; [lia|reflexivity].
Defined.

Section MeanRange.

Local Open Scope R_scope.

Lemma clip_in_range (lo : Z) (len n y : nat) :
  In y (clip lo len n) -> (y < len)%nat.
Proof.
  unfold clip. intros Hy. apply in_map_iff in Hy. destruct Hy as (p & <- & Hp).
  apply filter_In in Hp. destruct Hp as [_ Hp]. unfold inside in Hp.
  apply andb_prop in Hp. destruct Hp as [H0 H1].
  apply Z.leb_le in H0. apply Z.ltb_lt in H1. lia.
Qed.

Lemma lsum_between (f : nat -> R) (lo hi : R) (l : list nat) :
  (forall x, In x l -> lo <= f x <= hi) ->
  lo * INR (length l) <= lsum f l <= hi * INR (length l).
Proof.
  induction l as [|x t IH]; intros Hb.
  - simpl. lra.
  - cbn [lsum length]. rewrite S_INR.
    pose proof (Hb x (or_introl eq_refl)) as Hx.
    assert (Ht : lo * INR (length t) <= lsum f t <= hi * INR (length t))
      by (apply IH; intros y Hy; apply Hb; right; exact Hy).
    lra.
Qed.

Lemma window_mean_between (r : nat -> nat -> R) (H W h i j : nat) (lo hi : R) :
  (i < H)%nat -> (j < W)%nat ->
  (forall y x, (y < H)%nat -> (x < W)%nat -> lo <= r y x <= hi) ->
  lo <= window_mean r H W h i j <= hi.
Proof.
  intros Hi Hj Hb.
  assert (HH : (0 < H)%nat) by lia. assert (HW : (0 < W)%nat) by lia.
  pose proof (window_size_positive H W HH HW h i j Hi Hj) as Hp.
  apply lt_0_INR in Hp.
  assert (Hs : lo * INR (window_size H W h i j)
               <= window_sum (fun v => v) r H W h i j
               <= hi * INR (window_size H W h i j)).
  { unfold window_size, window_sum. rewrite mult_INR.
    pose proof (lsum_between
                  (fun y => lsum (fun x => r y x) (window_cols W h j))
                  (lo * INR (length (window_cols W h j)))
                  (hi * INR (length (window_cols W h j)))
                  (window_rows H h i)) as Ho.
    cbv beta in Ho.
    assert (Hin : forall y, In y (window_rows H h i) ->
              lo * INR (length (window_cols W h j))
              <= lsum (fun x => r y x) (window_cols W h j)
              <= hi * INR (length (window_cols W h j))).
    { intros y Hy. apply lsum_between. intros x Hx. apply Hb.
      - exact (clip_in_range _ _ _ _ Hy).
      - exact (clip_in_range _ _ _ _ Hx). }
    specialize (Ho Hin). lra. }
  unfold window_mean.
  set (S1 := window_sum (fun v => v) r H W h i j) in *.
  set (N := INR (window_size H W h i j)) in *.
  split.
  - apply Rmult_le_reg_r with N; [exact Hp|].
    replace (S1 / N * N) with S1 by (field; lra). lra.
  - apply Rmult_le_reg_r with N; [exact Hp|].
    replace (S1 / N * N) with S1 by (field; lra). lra.
Qed.

End MeanRange.

(** X14.  In rounding-free arithmetic the local mean of [_mean_std] never
    leaves the range of the image: if every pixel lies between [lo] and
    [hi], so does the mean surface at every pixel, at the borders too (the
    zeros that pad the window there are not averaged in). *)
Theorem local_mean_within_range (r : nat -> nat -> R) (H W : nat) (w : Z) (lo hi : R) :
  (0 < H)%nat -> (0 < W)%nat -> valid_window w ->
  (forall y x, (y < H)%nat -> (x < W)%nat -> (lo <= r y x <= hi)%R) ->
  exists m s,
    _mean_std (real_image r H W) w = (mean_std_trace, Ok (m, s)) /\
    forall i j, (i < H)%nat -> (j < W)%nat ->
      exists v, nth j (nth i m []) Exact.NaN = Exact.Fin v /\ (lo <= v <= hi)%R.
Proof.
  intros HH HW Hw Hb. eexists. eexists.
  split; [exact (mean_std_real_image r H W HH HW w Hw)|].
  intros i j Hi Hj. eexists. split.
  - unfold real_image. rewrite nth_table by assumption. reflexivity.
  - apply window_mean_between; assumption.
Qed.

Lemma local_mean_within_range_ramp :
  exists m s,
    _mean_std (real_image (fun y x => INR (3 * y + x)) 3 3) 3 =
      (mean_std_trace, Ok (m, s)) /\
    forall i j, (i < 3)%nat -> (j < 3)%nat ->
      exists v, nth j (nth i m []) Exact.NaN = Exact.Fin v /\ (0 <= v <= 8)%R.
Proof.
  apply (local_mean_within_range (fun y x => INR (3 * y + x)) 3 3 3 0 8).
  - lia.
  - lia.
  - split; [lia|reflexivity].
  - intros y x Hy Hx. split.
    + apply pos_INR.
    + change 8%R with (IZR (Z.of_nat 8)). rewrite <- INR_IZR_INZ.
      apply le_INR. lia.
Defined.

(** ** The engines on a constant image *)

Section ConstantEngines.

Import Exact.

Local Open Scope R_scope.

Lemma mean_std_flat_surfaces (c : R) (H W : nat) (w : Z) :
  (0 < H)%nat -> (0 < W)%nat -> valid_window w ->
  _mean_std (flat c H W) w = (mean_std_trace, Ok (flat c H W, flat 0 H W)).
Proof.
  intros HH HW Hw. rewrite (mean_std_ok (flat c H W) w Hw).
  destruct (odd_window_half w Hw) as (h & Hh & ->).
  assert (Hs : (0 < fst (shape (flat c H W)))%nat)
    by (rewrite (shape_flat c H W HH HW); exact HH).
  rewrite (local_mean_table (flat c H W) (S (2 * h)) Hs).
  rewrite (local_std_table (flat c H W) (S (2 * h)) Hs).
  rewrite (shape_flat c H W HH HW). cbn [fst snd].
  rewrite (table_ext (mean_at (flat c H W) (S (2 * h))) (fun _ _ => Fin c) H W).
  2:{ intros i j Hi Hj. apply flat_pixel; assumption. }
  rewrite (table_ext (fun i j => Fsqrt (variance_at (flat c H W) (S (2 * h)) i j))
             (fun _ _ => Fin 0) H W).
  2:{ intros i j Hi Hj. apply flat_pixel; assumption. }
  unfold flat. rewrite !repeat_table. reflexivity.
Qed.

Lemma concat_repeat_rows {A} (x : A) (W H : nat) :
  concat (repeat (repeat x W) H) = repeat x (H * W).
Proof.
  induction H as [|h IH]; [reflexivity|].
  cbn [repeat concat]. rewrite IH, <- repeat_app. reflexivity.
Qed.

Lemma fold_maximum_repeat (c : R) (n : nat) :
  fold_left Fmaximum (repeat (Fin c) n) (Fin c) = Fin c.
Proof.
  induction n as [|n IH]; [reflexivity|].
  cbn [repeat fold_left]. unfold Fmaximum at 2.
  cbn [Fleb Fisnan Exact.arith xleb xisnan].
  destruct (Rleb c c); exact IH.
Qed.

Lemma fold_minimum_repeat (c : R) (n : nat) :
  fold_left Fminimum (repeat (Fin c) n) (Fin c) = Fin c.
Proof.
  induction n as [|n IH]; [reflexivity|].
  cbn [repeat fold_left]. unfold Fminimum at 2.
  cbn [Fleb Fisnan Exact.arith xleb xisnan].
  destruct (Rleb c c); exact IH.
Qed.

Lemma amax_flat (c : R) (H W : nat) :
  (0 < H)%nat -> (0 < W)%nat -> amax (flat c H W) = Ok (Fin c).
Proof.
  intros HH HW. unfold amax, flat. rewrite concat_repeat_rows.
  destruct (H * W)%nat as [|n] eqn:E; [nia|].
  cbn [repeat]. rewrite fold_maximum_repeat. reflexivity.
Qed.

Lemma amin_flat (c : R) (H W : nat) :
  (0 < H)%nat -> (0 < W)%nat -> amin (flat c H W) = Ok (Fin c).
Proof.
  intros HH HW. unfold amin, flat. rewrite concat_repeat_rows.
  destruct (H * W)%nat as [|n] eqn:E; [nia|].
  cbn [repeat]. rewrite fold_minimum_repeat. reflexivity.
Qed.

Lemma classify_flat (c : R) (t : xreal) (o : xreal) (H W : nat) :
  classify (flat c H W) (repeat (repeat t W) H) o =
  repeat (repeat (Fltb (Fsub t o) (Fin c)) W) H.
Proof.
  unfold flat. rewrite !repeat_table. apply classify_tables.
Qed.

Lemma arr_map2_flat (g : xreal -> xreal -> xreal) (a b : xreal) (H W : nat) :
  arr_map2 g (repeat (repeat a W) H) (repeat (repeat b W) H) =
  repeat (repeat (g a b) W) H.
Proof. rewrite !repeat_table. apply arr_map2_table. Qed.

Lemma arr_map_flat (g : xreal -> xreal) (a : xreal) (H W : nat) :
  arr_map g (repeat (repeat a W) H) = repeat (repeat (g a) W) H.
Proof. rewrite !repeat_table. apply arr_map_table. Qed.

Lemma rltb_shift (a b : R) : Rltb a b = Rltb 0 (b - a).
Proof.
  unfold Rltb. destruct (Rlt_dec a b); destruct (Rlt_dec 0 (b - a));
    try reflexivity; lra.
Qed.

Lemma niblack_flat (c : R) (H W : nat) (w : Z) (k o : R) :
  (0 < H)%nat -> (0 < W)%nat -> valid_window w ->
  threshold_niblack (flat c H W) w (Fin k) (Fin o) =
  (mean_std_trace, Ok (repeat (repeat (Rltb 0 o) W) H)).
Proof.
  intros HH HW Hw. unfold threshold_niblack.
  rewrite (mean_std_flat_surfaces c H W w HH HW Hw).
  rewrite bind_ok. cbv beta iota. unfold ret, flat.
  rewrite arr_map_flat, arr_map2_flat.
  change (repeat (repeat (Fin c) W) H) with (flat c H W) at 1.
  rewrite classify_flat. rewrite app_nil_r.
  cbn [Fltb Fsub Fmul Exact.arith xsub xadd xopp xmul xltb].
  rewrite rltb_shift.
  match goal with
  | |- (_, Ok (repeat (repeat (Rltb 0 ?x) _) _)) = _ =>
      replace x with o by ring
  end.
  reflexivity.
Qed.

Lemma sauvola_flat (c : R) (H W : nat) (w : Z) (k r o : R) (p q : xreal) :
  (0 < H)%nat -> (0 < W)%nat -> valid_window w -> r <> 0 ->
  threshold_sauvola (flat c H W) "sauvola" w (Fin k) (Fin r) (Fin o) p q =
  (EvAlloc :: mean_std_trace, Ok (repeat (repeat (Rltb 0 (c * k + o)) W) H)).
Proof.
  intros HH HW Hw Hr.
  unfold threshold_sauvola, np_zeros_like, emit, ret.
  rewrite !bind_ok. cbv beta iota.
  rewrite (mean_std_flat_surfaces c H W w HH HW Hw). rewrite bind_ok. cbv beta iota.
  change (String.eqb "sauvola" "sauvola") with true. cbv iota.
  unfold flat. rewrite arr_map2_flat.
  change (repeat (repeat (Fin c) W) H) with (flat c H W).
  rewrite classify_flat. rewrite app_nil_r. unfold sauvola_formula.
  cbn [Fltb Fsub Fmul Fadd Fdiv FofZ Exact.arith].
  rewrite xdiv_fin by exact Hr.
  cbn [xsub xadd xopp xmul xltb].
  rewrite rltb_shift.
  match goal with
  | |- (_, Ok (repeat (repeat (Rltb 0 ?x) _) _)) = _ =>
      replace x with (c * k + o) by (field; exact Hr)
  end.
  reflexivity.
Qed.

Lemma xadd_nan_r (x : xreal) : xadd x NaN = NaN.
Proof. destruct x; reflexivity. Qed.

Lemma xmul_nan_r (x : xreal) : xmul x NaN = NaN.
Proof. destruct x; reflexivity. Qed.

Lemma wolf_flat (c : R) (H W : nat) (w : Z) (k r o p q : xreal) :
  (0 < H)%nat -> (0 < W)%nat -> valid_window w ->
  threshold_sauvola (flat c H W) "wolf" w k r o p q =
  (EvAlloc :: mean_std_trace, Ok (repeat (repeat false W) H)).
Proof.
  intros HH HW Hw.
  unfold threshold_sauvola, np_zeros_like, emit, ret.
  rewrite !bind_ok. cbv beta iota.
  rewrite (mean_std_flat_surfaces c H W w HH HW Hw). rewrite bind_ok. cbv beta iota.
  change (String.eqb "wolf" "sauvola") with false.
  change (String.eqb "wolf" "wolf") with true. cbv iota.
  rewrite (amax_flat 0 H W HH HW), (amin_flat c H W HH HW).
  unfold lift. rewrite !bind_ok. cbv beta iota.
  unfold flat. rewrite arr_map2_flat.
  change (repeat (repeat (Fin c) W) H) with (flat c H W).
  rewrite classify_flat. rewrite !app_nil_r. unfold wolf_formula.
  cbn [Fltb Fsub Fmul Fadd Fdiv FofZ Exact.arith].
  replace (xdiv (Fin 0) (Fin 0)) with NaN
    by (unfold xdiv, Reqb; destruct (Req_dec_T 0 0); [reflexivity|lra]).
  rewrite xmul_nan_r. cbn [xmul]. rewrite xadd_nan_r.
  cbn [xsub xadd xltb]. reflexivity.
Qed.

End ConstantEngines.

(** X15.  On a constant image, in rounding-free arithmetic, the
    classification is the same at every pixel and the local statistics
    drop out of it: [threshold_niblack] marks every pixel foreground when
    [0 < offset] and every pixel background otherwise, whatever [k] is;
    [threshold_sauvola] (method sauvola, [r] not 0) marks every pixel
    foreground when [0 < c*k + offset], [c] being the grey level, and
    every pixel background otherwise. *)
Theorem constant_image_niblack_sauvola
  (c : R) (H W : nat) (w : Z) (k r o : R) (p q : Exact.xreal) :
  (0 < H)%nat -> (0 < W)%nat -> valid_window w -> r <> 0%R ->
  threshold_niblack (flat c H W) w (Exact.Fin k) (Exact.Fin o) =
    (mean_std_trace, Ok (repeat (repeat (Exact.Rltb 0 o) W) H)) /\
  threshold_sauvola (flat c H W) "sauvola" w (Exact.Fin k) (Exact.Fin r)
    (Exact.Fin o) p q =
    (EvAlloc :: mean_std_trace,
     Ok (repeat (repeat (Exact.Rltb 0 (c * k + o)) W) H)).
Proof.
  intros HH HW Hw Hr. split.
  - apply niblack_flat; assumption.
  - apply sauvola_flat; assumption.
Qed.

Lemma constant_image_niblack_sauvola_grey :
  threshold_niblack (flat 5 3 3) 3 (Exact.Fin (1/5)) (Exact.Fin 0) =
    (mean_std_trace, Ok (repeat (repeat (Exact.Rltb 0 0) 3) 3)) /\
  threshold_sauvola (flat 5 3 3) "sauvola" 3 (Exact.Fin (1/5)) (Exact.Fin 128)
    (Exact.Fin 0) (Exact.Fin 2) (Exact.Fin 10) =
    (EvAlloc :: mean_std_trace,
     Ok (repeat (repeat (Exact.Rltb 0 (5 * (1/5) + 0)) 3) 3)).
Proof.
  apply (constant_image_niblack_sauvola 5 3 3 3 (1/5) 128 0
           (Exact.Fin 2) (Exact.Fin 10)).
  - lia.
  - lia.
  - split; [lia|reflexivity].
  - lra.
Defined.

(** X16.  On a constant image, in rounding-free arithmetic,
    [threshold_sauvola] with method wolf marks every pixel background,
    whatever [k], [r], [offset], [p] and [q] are: the stddev surface is 0
    everywhere, so [R = s.max()] is 0, the quotient [s / R] is [0 / 0], and
    the NaN threshold compares false with every pixel. *)
Theorem constant_image_wolf_background
  (c : R) (H W : nat) (w : Z) (k r o p q : Exact.xreal) :
  (0 < H)%nat -> (0 < W)%nat -> valid_window w ->
  threshold_sauvola (flat c H W) "wolf" w k r o p q =
  (EvAlloc :: mean_std_trace, Ok (repeat (repeat false W) H)).
Proof.
  intros HH HW Hw. apply wolf_flat; assumption.
Qed.

Lemma constant_image_wolf_background_grey :
  threshold_sauvola (flat 5 3 3) "wolf" 3 (Exact.Fin (1/2)) (Exact.Fin 128)
    (Exact.Fin 0) (Exact.Fin 2) (Exact.Fin 10) =
  (EvAlloc :: mean_std_trace, Ok (repeat (repeat false 3) 3)).
Proof.
  apply (constant_image_wolf_background 5 3 3 3 (Exact.Fin (1/2)) (Exact.Fin 128)
           (Exact.Fin 0) (Exact.Fin 2) (Exact.Fin 10)).
  - lia.
  - lia.
  - split; [lia|reflexivity].
Defined.

(** X17.  The normaliser [w2] of [_mean_std] (the box filter of an array
    of ones with zero padding) holds, for a window [w = 2h+1], the number
    of pixels of the window that lie inside the image: rows
    [max(0, i-h) .. min(H, i+h+1) - 1] times columns
    [max(0, j-h) .. min(W, j+h+1) - 1].  That is [w*w] for a pixel at least
    [h] away from every border and less near the borders. *)
Theorem window_pixel_count (img : @image Exact.xreal) (h : nat) :
  (0 < fst (shape img))%nat ->
  local_count img (S (2 * h)) =
  table (fun i j =>
           Exact.Fin (INR ((Nat.min (fst (shape img)) (i + h + 1) - (i - h))
                           * (Nat.min (snd (shape img)) (j + h + 1) - (j - h)))))
        (fst (shape img)) (snd (shape img)).
Proof.
  intros HH. rewrite (local_count_table img (S (2 * h)) HH).
  apply table_ext. intros i j Hi Hj. unfold count_at.
  set (H := fst (shape img)) in *. set (W := snd (shape img)) in *.
  change (ones H W) with (flat 1 H W).
  rewrite box_sum_flat by lia.
  destruct (covered_as_clamped i h H Hi) as [_ Ey].
  destruct (covered_as_clamped j h W Hj) as [_ Ex].
  rewrite Ey, Ex. rewrite mult_INR.
  replace (clamp_index (Z.of_nat i + Z.of_nat (S (2 * h)) - Z.of_nat h) (S H)
           - clamp_index (Z.of_nat i + Z.of_nat 0 - Z.of_nat h) (S H))%nat
    with (Nat.min H (i + h + 1) - (i - h))%nat by (unfold clamp_index; lia).
  replace (clamp_index (Z.of_nat j + Z.of_nat (S (2 * h)) - Z.of_nat h) (S W)
           - clamp_index (Z.of_nat j + Z.of_nat 0 - Z.of_nat h) (S W))%nat
    with (Nat.min W (j + h + 1) - (j - h))%nat by (unfold clamp_index; lia).
  f_equal. ring.
Qed.

Lemma window_pixel_count_grey :
  local_count (flat 5 3 3) (S (2 * 1)) =
  table (fun i j =>
           Exact.Fin (INR ((Nat.min (fst (shape (flat 5 3 3))) (i + 1 + 1) - (i - 1))
                           * (Nat.min (snd (shape (flat 5 3 3))) (j + 1 + 1) - (j - 1)))))
        (fst (shape (flat 5 3 3))) (snd (shape (flat 5 3 3))).
Proof.
  apply (window_pixel_count (flat 5 3 3) 1).
  simpl. lia.
Defined.
